(** * GTOS 1.0: the command engine, the virtual path model and the text
      algorithms of [GTOS_1.0.py]

    The program is a Python shell emulator.  Its console state is a record,
    its dicts are finite maps, its handlers are functions from the console
    and the world outside it to a result; the operating system and the
    Python runtime are the class [Host].

    A Python [str] is modelled by the [string] of its UTF-8 bytes, so that
    the messages of the program are written down as they are and the order
    of two strings is the order of their code points.  White space is what
    [str.split] and [str.strip] take for it, in ASCII and beyond; [str.lower]
    belongs to the runtime, the class [PyStr].  The functions of the program
    that call themselves take the number of calls the interpreter still
    allows, [depth]. *)

From Stdlib Require Import String Ascii ZArith List Lia DecimalString Sorted.
From stdpp Require Import gmap strings list.

Local Open Scope string_scope.
Local Open Scope list_scope.
Set Warnings "-clear-no-such-hyp".

(** ** Strings *)

(** [c.isspace()] on ASCII: TAB, LF, VT, FF, CR, FS, GS, RS, US, SPACE. *)
Definition is_space (c : ascii) : bool :=
  let n := nat_of_ascii c in
  ((9 <=? n)%nat && (n <=? 13)%nat) || ((28 <=? n)%nat && (n <=? 32)%nat).

(** [c.isspace()] beyond ASCII, on the bytes of [c]: U+0085 (C2 85) and
    U+00A0 (C2 A0); *)
Definition is_space2 (c1 c2 : ascii) : bool :=
  (nat_of_ascii c1 =? 194)%nat &&
  ((nat_of_ascii c2 =? 133)%nat || (nat_of_ascii c2 =? 160)%nat).

(** U+1680 (E1 9A 80), U+2000 to U+200A (E2 80 80 to E2 80 8A), U+2028,
    U+2029 and U+202F (E2 80 A8, A9, AF), U+205F (E2 81 9F) and U+3000
    (E3 80 80). *)
Definition is_space3 (c1 c2 c3 : ascii) : bool :=
  let n1 := nat_of_ascii c1 in
  let n2 := nat_of_ascii c2 in
  let n3 := nat_of_ascii c3 in
  ((n1 =? 225)%nat && ((n2 =? 154)%nat && (n3 =? 128)%nat)) ||
  ((n1 =? 226)%nat &&
   (((n2 =? 128)%nat &&
     (((128 <=? n3)%nat && (n3 <=? 138)%nat) ||
      ((n3 =? 168)%nat || ((n3 =? 169)%nat || (n3 =? 175)%nat)))) ||
    ((n2 =? 129)%nat && (n3 =? 159)%nat))) ||
  ((n1 =? 227)%nat && ((n2 =? 128)%nat && (n3 =? 128)%nat)).

(** The white-space character that [s] starts with, if it starts with
    one: the number of its bytes after the first. *)
Definition space_at (s : string) : option nat :=
  match s with
  | String c1 s1 =>
      if is_space c1 then Some 0
      else
        match s1 with
        | String c2 s2 =>
            if is_space2 c1 c2 then Some 1
            else
              match s2 with
              | String c3 _ => if is_space3 c1 c2 c3 then Some 2 else None
              | EmptyString => None
              end
        | EmptyString => None
        end
  | EmptyString => None
  end.

(** [s.lower()] on ASCII *)
Definition lower_char (c : ascii) : ascii :=
  let n := nat_of_ascii c in
  if ((65 <=? n)%nat && (n <=? 90)%nat) then ascii_of_nat (n + 32) else c.

Fixpoint ascii_lower (s : string) : string :=
  match s with
  | EmptyString => EmptyString
  | String c s' => String (lower_char c) (ascii_lower s')
  end.

Fixpoint is_ascii (s : string) : bool :=
  match s with
  | EmptyString => true
  | String c s' => (nat_of_ascii c <? 128)%nat && is_ascii s'
  end.

(** [s.lower()] is the runtime's: it follows the Unicode tables.  On a
    string of ASCII it changes the letters A to Z and nothing else, and
    what it returns is in lower case already. *)
Class PyStr : Type := {
  lower : string -> string;
  lower_ascii : forall s, is_ascii s = true -> lower s = ascii_lower s;
  lower_lower : forall s, lower (lower s) = lower s
}.

Definition snoc (s : string) (c : ascii) : string := s +:+ String c EmptyString.

Definition emit (tok : string) : list string :=
  match tok with
  | EmptyString => []
  | _ => [tok]
  end.

(** [s.split()]: the maximal runs of characters that are not white space.
    [tok] is the run being read, [skip] the number of bytes left of the
    white-space character being passed. *)
Fixpoint split_from (skip : nat) (tok : string) (s : string) : list string :=
  match s with
  | EmptyString => emit tok
  | String c s' =>
      match skip with
      | S skip' => split_from skip' tok s'
      | O =>
          match space_at s with
          | Some skip' => emit tok ++ split_from skip' EmptyString s'
          | None => split_from O (snoc tok c) s'
          end
      end
  end.

Definition split (s : string) : list string := split_from 0 EmptyString s.

Fixpoint lstrip_from (skip : nat) (s : string) : string :=
  match s with
  | EmptyString => EmptyString
  | String c s' =>
      match skip with
      | S skip' => lstrip_from skip' s'
      | O =>
          match space_at s with
          | Some skip' => lstrip_from skip' s'
          | None => s
          end
      end
  end.

Definition lstrip (s : string) : string := lstrip_from 0 s.

(** [s] is made of white space only. *)
Fixpoint all_space_from (skip : nat) (s : string) : bool :=
  match s with
  | EmptyString => true
  | String c s' =>
      match skip with
      | S skip' => all_space_from skip' s'
      | O =>
          match space_at s with
          | Some skip' => all_space_from skip' s'
          | None => false
          end
      end
  end.

Definition all_space (s : string) : bool := all_space_from 0 s.

Fixpoint rstrip (s : string) : string :=
  match s with
  | EmptyString => EmptyString
  | String c s' => if all_space s then EmptyString else String c (rstrip s')
  end.

(** [s.strip()] *)
Definition strip (s : string) : string := rstrip (lstrip s).

(** [sep.join(l)] *)
Fixpoint join (sep : string) (l : list string) : string :=
  match l with
  | [] => EmptyString
  | [x] => x
  | x :: l' => x +:+ sep +:+ join sep l'
  end.

(** [s.lstrip('/')] *)
Fixpoint lstrip_slash (s : string) : string :=
  match s with
  | EmptyString => EmptyString
  | String c s' => if Ascii.eqb c "/" then lstrip_slash s' else s
  end.

Definition starts_with_slash (s : string) : bool :=
  match s with
  | String c _ => Ascii.eqb c "/"
  | EmptyString => false
  end.

Fixpoint ends_with_slash (s : string) : bool :=
  match s with
  | EmptyString => false
  | String c EmptyString => Ascii.eqb c "/"
  | String _ s' => ends_with_slash s'
  end.

(** ** Paths *)

(** [os.path.join(a, b)] of posixpath: an absolute [b] replaces [a]; no
    segment is interpreted. *)
Definition path_join (a b : string) : string :=
  if starts_with_slash b then b
  else if String.eqb a "" || ends_with_slash a then a +:+ b
  else a +:+ "/" +:+ b.

(** [FileSystem._full_path] *)
Definition _full_path (root_dir path : string) : string :=
  path_join root_dir (lstrip_slash path).

(** The path a command resolves: every handler hands
    [os.path.join(self.current_dir, args[0])] to the file system, which
    puts it under the root with [_full_path]. *)
Definition resolve (root_dir current_dir user_path : string) : string :=
  _full_path root_dir (path_join current_dir user_path).

(** What the operating system makes of a path: its segments between
    slashes, with the empty segment and [.] dropped and [..] going one
    directory up (and staying at [/] there).  The stack holds the directory
    reached so far, innermost first. *)
Fixpoint segments_from (cur : string) (s : string) : list string :=
  match s with
  | EmptyString => [cur]
  | String c s' =>
      if Ascii.eqb c "/" then cur :: segments_from EmptyString s'
      else segments_from (snoc cur c) s'
  end.

Definition segments (s : string) : list string := segments_from EmptyString s.

Definition walk_step (stack : list string) (seg : string) : list string :=
  if String.eqb seg "" || String.eqb seg "." then stack
  else if String.eqb seg ".." then tail stack
  else seg :: stack.

Definition walk (stack : list string) (segs : list string) : list string :=
  fold_left walk_step segs stack.

(** The directory an absolute path denotes, outermost segment first. *)
Definition denotes (p : string) : list string := rev (walk [] (segments p)).

Fixpoint is_prefix_of (l1 l2 : list string) : bool :=
  match l1, l2 with
  | [], _ => true
  | x :: l1', y :: l2' => String.eqb x y && is_prefix_of l1' l2'
  | _ :: _, [] => false
  end.

(** [p] is the root directory or lies below it. *)
Definition under_root (root_dir p : string) : bool :=
  is_prefix_of (denotes root_dir) (denotes p).

(** The segments of a relative path never climb above their starting
    point: [d] is the depth reached below it. *)
Fixpoint stays_below (d : nat) (segs : list string) : bool :=
  match segs with
  | [] => true
  | seg :: rest =>
      if String.eqb seg "" || String.eqb seg "." then stays_below d rest
      else if String.eqb seg ".." then
        match d with
        | O => false
        | S d' => stays_below d' rest
        end
      else stays_below (S d) rest
  end.

Definition stays_inside (p : string) : bool := stays_below 0 (segments p).

(** ** Files as text *)

Definition LF : ascii := ascii_of_nat 10.
Definition CR : ascii := ascii_of_nat 13.

(** Text mode reads with universal newlines: CR LF and a lone CR arrive
    as LF. *)
Fixpoint universal_newlines (s : string) : string :=
  match s with
  | EmptyString => EmptyString
  | String c s' =>
      if Ascii.eqb c CR then
        match s' with
        | String c' s'' =>
            if Ascii.eqb c' LF then String LF (universal_newlines s'')
            else String LF (universal_newlines s')
        | EmptyString => String LF EmptyString
        end
      else String c (universal_newlines s')
  end.

(** [f.readlines()], and the lines [for line in f] yields: every line keeps
    its LF; the last one has none when the file does not end with one. *)
Fixpoint lines_from (cur : string) (s : string) : list string :=
  match s with
  | EmptyString => emit cur
  | String c s' =>
      if Ascii.eqb c LF then snoc cur c :: lines_from EmptyString s'
      else lines_from (snoc cur c) s'
  end.

Definition readlines (content : string) : list string :=
  lines_from EmptyString (universal_newlines content).

(** [f.read()] of a file opened with ['rb']: the bytes as integers. *)
Fixpoint bytes_of (s : string) : list Z :=
  match s with
  | EmptyString => []
  | String c s' => Z.of_nat (nat_of_ascii c) :: bytes_of s'
  end.

(** [str(n)] of an integer. *)
Definition show_Z (z : Z) : string :=
  DecimalString.NilZero.string_of_int (Z.to_int z).

(** ** Sorting and membership *)

(** [x in l] for a list of strings. *)
Definition mem (x : string) (l : list string) : bool :=
  existsb (String.eqb x) l.

Fixpoint insert_sorted (x : string) (l : list string) : list string :=
  match l with
  | [] => [x]
  | y :: l' => if String.ltb y x then y :: insert_sorted x l' else x :: l
  end.

(** [sorted(l)]: the strings in non-decreasing order of their code points. *)
Definition sorted (l : list string) : list string :=
  fold_right insert_sorted [] l.


(** ** Exceptions

    The exceptions of class [Exception] that the program meets, with the
    text [str] gives of them. *)

Inductive exn : Type :=
| NameError (name : string)
| ValueError (expected got : nat)
| IndexError
| RecursionError
| Raised (text : string).

(** [str(e)] *)
Definition exn_text (e : exn) : string :=
  match e with
  | NameError name => "name '" +:+ name +:+ "' is not defined"
  | ValueError expected got =>
      if (got <? expected)%nat then
        "not enough values to unpack (expected " +:+ show_Z (Z.of_nat expected)
          +:+ ", got " +:+ show_Z (Z.of_nat got) +:+ ")"
      else "too many values to unpack (expected " +:+ show_Z (Z.of_nat expected) +:+ ")"
  | IndexError => "list index out of range"
  | RecursionError => "maximum recursion depth exceeded"
  | Raised text => text
  end.

(** ** uniq *)

(** The loop of [Console.uniq]: [unique_lines] holds the lines seen, as
    they were read; a line not yet in it is recorded and printed stripped. *)
Fixpoint uniq_loop (unique_lines : list string) (lines : list string) : list string :=
  match lines with
  | [] => []
  | line :: rest =>
      if mem line unique_lines then uniq_loop unique_lines rest
      else strip line :: uniq_loop (unique_lines ++ [line]) rest
  end.

Definition uniq_lines (lines : list string) : list string := uniq_loop [] lines.

(** What uniq is to print, in the words of the specification: each line
    the first time it is seen across the whole file, in the order of first
    occurrence. *)
Fixpoint first_occurrences (lines : list string) : list string :=
  match lines with
  | [] => []
  | line :: rest =>
      line :: List.filter (fun x => negb (String.eqb x line)) (first_occurrences rest)
  end.

(** The lines [unique_lines] ends up with. *)
Fixpoint uniq_kept (unique_lines : list string) (lines : list string) : list string :=
  match lines with
  | [] => unique_lines
  | line :: rest =>
      if mem line unique_lines then uniq_kept unique_lines rest
      else uniq_kept (unique_lines ++ [line]) rest
  end.

(** ** comm *)

Inductive comm_column : Type := Only1 | Only2 | Both.

#[global] Instance comm_column_eq_dec : EqDecision comm_column.
Proof. solve_decision. Defined.

(** The three [print] calls of the merge. *)
Definition comm_print (e : comm_column * string) : string :=
  match e with
  | (Only1, line) => "< " +:+ line
  | (Only2, line) => "> " +:+ line
  | (Both, line) => "  " +:+ line
  end.

(** The three [while] loops of [Console.comm] over [lines1[i:]] and
    [lines2[j:]]. *)
Fixpoint comm_merge (lines1 : list string) : list string -> list (comm_column * string) :=
  fix inner (lines2 : list string) : list (comm_column * string) :=
    match lines1, lines2 with
    | x :: rest1, y :: rest2 =>
        if String.ltb x y then (Only1, x) :: comm_merge rest1 lines2
        else if String.ltb y x then (Only2, y) :: inner rest2
        else (Both, x) :: comm_merge rest1 rest2
    | _ :: _, [] => map (pair Only1) lines1
    | [], _ => map (pair Only2) lines2
    end.


(** ** cksum *)

(** The module never binds the name [crc32_table]: looking it up finds
    nothing. *)
Definition crc32_table : option (list Z) := None.

(** The loop of [Console.cksum]. *)
Fixpoint cksum_loop (crc : Z) (bytes : list Z) : Z + exn :=
  match bytes with
  | [] => inl crc
  | byte :: rest =>
      match crc32_table with
      | None => inr (NameError "crc32_table")
      | Some table =>
          match nth_error table (Z.to_nat (Z.lxor (Z.shiftr crc 24) byte)) with
          | None => inr IndexError
          | Some entry => cksum_loop (Z.lxor (Z.shiftl crc 8) entry) rest
          end
      end
  end.

Definition cksum_bytes (bytes : list Z) : Z + exn :=
  match cksum_loop 0 bytes with
  | inl crc => inl (Z.land crc 4294967295)
  | inr e => inr e
  end.

(** ** The registry and the two description tables *)

(** The keys of [self.commands], in the order of the dict literal; the
    handler of a name is the method of that name. *)
Definition commands : list string :=
  ["about"; "alias"; "cal"; "cat"; "cd"; "chmod"; "chown"; "clear"; "cp";
   "date"; "df"; "du"; "echo"; "env"; "export"; "find"; "grep"; "head";
   "help"; "history"; "kill"; "ln"; "ls"; "man"; "mkdir"; "mv"; "ps";
   "pwd"; "rm"; "rmdir"; "sleep"; "sort"; "top"; "touch"; "uname";
   "unalias"; "uniq"; "uptime"; "wc"; "whereis"; "which"; "whoami"; "tail";
   "cut"; "paste"; "tr"; "sed"; "awk"; "printf"; "test"; "expr"; "bc";
   "time"; "watch"; "yes"; "seq"; "shuf"; "nl"; "fold"; "expand";
   "unexpand"; "join"; "comm"; "diff"; "patch"; "cmp"; "sum"; "cksum";
   "md5sum"; "sha1sum"; "sha256sum"; "factor"; "numfmt"; "od"; "hexdump";
   "strings"; "file"; "mime"; "stat"; "mktemp"; "realpath"; "dirname";
   "basename"; "pathchk"; "readlink"; "link"; "unlink"; "truncate";
   "split"; "csplit"; "fmt"; "pr"; "ul"; "col"; "colrm"; "column"; "rev";
   "tac"; "tsort"].

(** [help_text] of [Console.help] *)
Definition help_text : list (string * string) :=
  [("about", "显示关于GTOS的信息");
   ("alias", "创建命令别名");
   ("awk", "模式扫描和处理语言");
   ("basename", "返回文件路径的基本名称");
   ("bc", "基本计算器语言");
   ("cal", "显示日历");
   ("cat", "显示文件内容");
   ("cd", "更改当前工作目录");
   ("chmod", "更改文件模式");
   ("chown", "更改文件所有者");
   ("cksum", "计算文件的校验和");
   ("clear", "清除屏幕上的输出");
   ("cmp", "比较文件的字节");
   ("col", "过滤控制字符");
   ("colrm", "删除列");
   ("column", "格式化表格输出");
   ("comm", "比较两个排序文件");
   ("cp", "复制文件");
   ("csplit", "根据模式分割文件");
   ("cut", "从文件中提取指定列");
   ("date", "显示或设置系统日期和时间");
   ("df", "显示磁盘空间使用情况");
   ("diff", "比较文件差异");
   ("dirname", "返回文件路径的目录部分");
   ("du", "显示目录或文件的磁盘使用情况");
   ("echo", "输出文本到标准输出");
   ("env", "显示环境变量");
   ("expand", "将制表符转换为空格");
   ("expr", "计算表达式");
   ("factor", "分解数字");
   ("file", "确定文件类型");
   ("find", "在文件系统中查找文件");
   ("fmt", "简单文本格式化");
   ("fold", "限制行宽度");
   ("grep", "在文件中搜索文本模式");
   ("head", "显示文件的前几行");
   ("hexdump", "以十六进制格式转储文件内容");
   ("history", "显示命令历史记录");
   ("join", "根据指定字段连接文件");
   ("kill", "模拟终止进程");
   ("link", "创建硬链接");
   ("ln", "创建符号链接");
   ("ls", "列出当前目录中的文件");
   ("man", "显示命令手册");
   ("md5sum", "计算文件的MD5校验和");
   ("mime", "确定文件的MIME类型");
   ("mkdir", "创建一个新目录");
   ("mktemp", "创建临时文件或目录");
   ("mv", "移动或重命名文件");
   ("nl", "为文件添加行号");
   ("numfmt", "格式化数字");
   ("od", "转储文件内容");
   ("paste", "合并文件");
   ("patch", "应用补丁文件");
   ("pathchk", "检查文件名是否有效");
   ("pr", "格式化并打印文本文件");
   ("printf", "格式化输出文本");
   ("ps", "模拟显示当前运行的进程");
   ("pwd", "显示当前工作目录");
   ("readlink", "读取符号链接的内容");
   ("realpath", "返回文件的绝对路径");
   ("rev", "反转行");
   ("rm", "删除一个文件");
   ("rmdir", "删除一个空目录");
   ("sed", "流编辑器");
   ("seq", "生成序列");
   ("sha1sum", "计算文件的SHA1校验和");
   ("sha256sum", "计算文件的SHA256校验和");
   ("shuf", "随机排列行");
   ("sleep", "暂停执行一段时间");
   ("sort", "对文件内容进行排序");
   ("split", "分割文件");
   ("stat", "显示文件或文件系统状态");
   ("strings", "从文件中提取可打印字符串");
   ("sum", "计算文件的校验和");
   ("tac", "反向显示文件内容");
   ("tail", "显示文件的最后几行");
   ("test", "测试文件或字符串");
   ("time", "测量命令执行时间");
   ("top", "模拟显示系统资源使用情况");
   ("touch", "创建空文件或更新文件时间");
   ("tr", "转换或删除字符");
   ("truncate", "截断文件或扩展文件");
   ("tsort", "拓扑排序");
   ("ul", "下划线文本");
   ("unalias", "删除命令别名");
   ("uname", "显示系统信息");
   ("unexpand", "将空格转换为制表符");
   ("uniq", "去除文件中的重复行");
   ("unlink", "删除文件");
   ("uptime", "显示系统运行时间");
   ("watch", "周期性执行命令并显示输出");
   ("wc", "统计文件的行数、单词数和字符数");
   ("whereis", "查找命令的二进制文件、源代码和手册页的路径");
   ("which", "查找命令的路径");
   ("whoami", "显示当前用户的登录名");
   ("yes", "输出字符串直到被中断")].

(** [man_pages] of [Console.man] *)
Definition man_pages : list (string * string) :=
  [("about", "显示关于GTOS的信息。用法：about");
   ("alias", "创建命令别名。用法：alias <别名> <命令>");
   ("awk", "模式扫描和处理语言。用法：awk '<脚本>' <文件>");
   ("basename", "返回文件路径的基本名称。用法：basename <文件>");
   ("bc", "基本计算器语言。用法：bc <表达式>");
   ("cal", "显示日历。用法：cal [年份]");
   ("cat", "显示文件内容。用法：cat <文件>");
   ("cd", "更改当前工作目录。用法：cd <目录>");
   ("chmod", "更改文件模式。用法：chmod <模式> <文件>");
   ("chown", "更改文件所有者。用法：chown <uid> <gid> <文件>");
   ("cksum", "计算文件的校验和。用法：cksum <文件>");
   ("clear", "清除屏幕上的输出。用法：clear");
   ("cmp", "比较文件的字节。用法：cmp <文件1> <文件2>");
   ("col", "过滤控制字符。用法：col <文件>");
   ("colrm", "删除列。用法：colrm <文件> <开始列> <结束列>");
   ("column", "格式化表格输出。用法：column <文件>");
   ("comm", "比较两个排序文件。用法：comm <文件1> <文件2>");
   ("cp", "复制文件。用法：cp <源文件> <目标文件>");
   ("csplit", "根据模式分割文件。用法：csplit <文件> <模式> <前缀>");
   ("cut", "从文件中提取指定列。用法：cut -f <字段号> <文件>");
   ("date", "显示或设置系统日期和时间。用法：date");
   ("df", "显示磁盘空间使用情况。用法：df");
   ("diff", "比较文件差异。用法：diff <文件1> <文件2>");
   ("dirname", "返回文件路径的目录部分。用法：dirname <文件>");
   ("du", "显示目录或文件的磁盘使用情况。用法：du <路径>");
   ("echo", "输出文本到标准输出。用法：echo <内容>");
   ("env", "显示环境变量。用法：env");
   ("expand", "将制表符转换为空格。用法：expand <文件>");
   ("expr", "计算表达式。用法：expr <表达式>");
   ("factor", "分解数字。用法：factor <数字>");
   ("file", "确定文件类型。用法：file <文件>");
   ("find", "在文件系统中查找文件。用法：find <路径> <模式>");
   ("fmt", "简单文本格式化。用法：fmt <文件>");
   ("fold", "限制行宽度。用法：fold <文件> <宽度>");
   ("grep", "在文件中搜索文本模式。用法：grep <模式> <文件1> [<文件2> ...]");
   ("head", "显示文件的前几行。用法：head <文件>");
   ("hexdump", "以十六进制格式转储文件内容。用法：hexdump <文件>");
   ("history", "显示命令历史记录。用法：history [数量]");
   ("join", "根据指定字段连接文件。用法：join <文件1> <文件2> <字段号>");
   ("kill", "模拟终止进程。用法：kill <进程ID>");
   ("link", "创建硬链接。用法：link <源文件> <目标文件>");
   ("ln", "创建符号链接。用法：ln <目标> <链接名>");
   ("ls", "列出当前目录中的文件。用法：ls");
   ("man", "显示命令手册。用法：man <命令>");
   ("md5sum", "计算文件的MD5校验和。用法：md5sum <文件>");
   ("mime", "确定文件的MIME类型。用法：mime <文件>");
   ("mkdir", "创建一个新目录。用法：mkdir <目录>");
   ("mktemp", "创建临时文件或目录。用法：mktemp <模板>");
   ("mv", "移动或重命名文件。用法：mv <源文件> <目标文件>");
   ("nl", "为文件添加行号。用法：nl <文件>");
   ("numfmt", "格式化数字。用法：numfmt <格式字符串> <数字>");
   ("od", "转储文件内容。用法：od <文件>");
   ("paste", "合并文件。用法：paste <文件1> [<文件2> ...]");
   ("patch", "应用补丁文件。用法：patch <文件> <补丁文件>");
   ("pathchk", "检查文件名是否有效。用法：pathchk <文件>");
   ("pr", "格式化并打印文本文件。用法：pr <文件>");
   ("printf", "格式化输出文本。用法：printf <格式字符串> [值1] [值2] ...");
   ("ps", "模拟显示当前运行的进程。用法：ps");
   ("pwd", "显示当前工作目录。用法：pwd");
   ("readlink", "读取符号链接的内容。用法：readlink <符号链接>");
   ("realpath", "返回文件的绝对路径。用法：realpath <文件>");
   ("rev", "反转行。用法：rev <文件>");
   ("rm", "删除一个文件。用法：rm <文件>");
   ("rmdir", "删除一个空目录。用法：rmdir <目录>");
   ("sed", "流编辑器。用法：sed <模式> <替换> <文件>");
   ("seq", "生成序列。用法：seq <结束值> 或 seq <开始值> <结束值> 或 seq <开始值> <增量> <结束值>");
   ("sha1sum", "计算文件的SHA1校验和。用法：sha1sum <文件>");
   ("sha256sum", "计算文件的SHA256校验和。用法：sha256sum <文件>");
   ("shuf", "随机排列行。用法：shuf <文件>");
   ("sleep", "暂停执行一段时间。用法：sleep <秒数>");
   ("sort", "对文件内容进行排序。用法：sort <文件>");
   ("split", "分割文件。用法：split <文件> <前缀>");
   ("stat", "显示文件或文件系统状态。用法：stat <文件>");
   ("strings", "从文件中提取可打印字符串。用法：strings <文件>");
   ("sum", "计算文件的校验和。用法：sum <文件>");
   ("tac", "反向显示文件内容。用法：tac <文件>");
   ("tail", "显示文件的最后几行。用法：tail <文件>");
   ("test", "测试文件或字符串。用法：test <操作数1> <操作符> <操作数2>");
   ("time", "测量命令执行时间。用法：time <命令>");
   ("top", "模拟显示系统资源使用情况。用法：top");
   ("touch", "创建空文件或更新文件时间。用法：touch <文件>");
   ("tr", "转换或删除字符。用法：tr <集合1> <集合2> <文件>");
   ("truncate", "截断文件或扩展文件。用法：truncate <文件> <大小>");
   ("tsort", "拓扑排序。用法：tsort <文件>");
   ("ul", "下划线文本。用法：ul <文件>");
   ("unalias", "删除命令别名。用法：unalias <别名>");
   ("uname", "显示系统信息。用法：uname");
   ("unexpand", "将空格转换为制表符。用法：unexpand <文件>");
   ("uniq", "去除文件中的重复行。用法：uniq <文件>");
   ("unlink", "删除文件。用法：unlink <文件>");
   ("uptime", "显示系统运行时间。用法：uptime");
   ("watch", "周期性执行命令并显示输出。用法：watch <命令>");
   ("wc", "统计文件的行数、单词数和字符数。用法：wc <文件>");
   ("whereis", "查找命令的二进制文件、源代码和手册页的路径。用法：whereis <命令>");
   ("which", "查找命令的路径。用法：which <命令>");
   ("whoami", "显示当前用户的登录名。用法：whoami");
   ("yes", "输出字符串直到被中断。用法：yes <字符串>")].

(** [table[key]], if [key in table]. *)
Fixpoint table_get (key : string) (table : list (string * string)) : option string :=
  match table with
  | [] => None
  | (k, v) :: table' => if String.eqb k key then Some v else table_get key table'
  end.

Definition keys (table : list (string * string)) : list string := map fst table.

(** ** The console *)

Record FileSystem : Type := { root_dir : string }.

Record Console : Type := {
  file_system : FileSystem;
  current_dir : string;
  command_history : list string;
  aliases : gmap string string;
  environment : gmap string string
}.

(** [Console.__init__] *)
Definition new_console (fs : FileSystem) : Console :=
  {| file_system := fs; current_dir := "/"; command_history := [];
     aliases := ∅; environment := ∅ |}.

Definition set_current_dir (d : string) (c : Console) : Console :=
  {| file_system := file_system c; current_dir := d;
     command_history := command_history c;
     aliases := aliases c; environment := environment c |}.

Definition set_aliases (a : gmap string string) (c : Console) : Console :=
  {| file_system := file_system c; current_dir := current_dir c;
     command_history := command_history c;
     aliases := a; environment := environment c |}.

Definition set_environment (e : gmap string string) (c : Console) : Console :=
  {| file_system := file_system c; current_dir := current_dir c;
     command_history := command_history c;
     aliases := aliases c; environment := e |}.

Definition set_command_history (h : list string) (c : Console) : Console :=
  {| file_system := file_system c; current_dir := current_dir c;
     command_history := h;
     aliases := aliases c; environment := environment c |}.

(** A string that [split] can produce: not empty, no white space in it. *)
Fixpoint no_space (s : string) : bool :=
  match s with
  | EmptyString => true
  | String c s' =>
      match space_at s with
      | Some _ => false
      | None => no_space s'
      end
  end.

Definition is_token (s : string) : bool :=
  negb (String.eqb s "") && no_space s.

(** [clean tok s]: no white-space character starts inside [tok] when [s]
    follows it. *)
Fixpoint clean (tok s : string) : bool :=
  match tok with
  | EmptyString => true
  | String c tok' =>
      match space_at (tok +:+ s) with
      | Some _ => false
      | None => clean tok' s
      end
  end.


(** ** Graphs of tsort: a dict from node to the set of its successors, in
    insertion order *)

Abbreviation graph := (list (string * gset string)).

Fixpoint graph_get (g : graph) (node : string) : gset string :=
  match g with
  | [] => ∅
  | (k, s) :: g' => if String.eqb k node then s else graph_get g' node
  end.

Definition graph_declare (g : graph) (u : string) : graph :=
  if mem u (map fst g) then g else g ++ [(u, ∅)].

Definition graph_add (g : graph) (u v : string) : graph :=
  map (fun kv => if String.eqb kv.1 u then (kv.1, kv.2 ∪ {[v]}) else kv) g.

(** The body of [for u, v in edges]. *)
Definition add_edge (g : graph) (u v : string) : graph :=
  graph_add (graph_declare (graph_declare g u) v) u v.

(** [for u, v in edges]: a line that does not hold two tokens cannot be
    unpacked. *)
Fixpoint build_graph (g : graph) (edges : list (list string)) : graph + exn :=
  match edges with
  | [] => inl g
  | [u; v] :: rest => build_graph (add_edge g u v) rest
  | e :: _ => inr (ValueError 2 (length e))
  end.

Definition tsort_edges (lines : list string) : list (list string) :=
  map (fun line => split (strip line)) lines.

(** [x] is printed before [y] *)
Definition before (x y : string) (l : list string) : Prop :=
  exists l1 l2 l3 : list string, l = l1 ++ x :: l2 ++ y :: l3.

Definition edge (g : graph) (u v : string) : Prop := v ∈ graph_get g u.

Inductive path (g : graph) : string -> string -> Prop :=
| path_one u v : edge g u v -> path g u v
| path_cons u v w : edge g u v -> path g v w -> path g u w.

Definition acyclic (g : graph) : Prop := forall u, ~ path g u u.

(** ** The host: the operating system and the Python runtime

    [W] is the state of the world outside the console (files, directories,
    the working directory of the process); the log that [logging] appends
    to is kept out of it.  [isdir] is [os.path.isdir].
    [chdir] is [os.chdir], which raises an [OSError] on a directory that
    cannot be entered and then leaves the world as it is.  [read_file] is
    [open] followed by reading, with the text of the [OSError] on failure;
    a file that opens is taken to hold text that the codec decodes.
    [set_iter] is the order in which a [set] is iterated, which Python
    leaves open.

    [evaluate] stands for the three handlers that hand the text of their
    arguments to [eval], with [self] in scope: awk, expr and bc.  What they
    evaluate can call any method of the console and of its fields, so they
    return a console of their own.  [external] stands for the other
    handlers that are not spelled out below, taken at their return (two of
    them, yes and watch, loop until they are interrupted): they read the
    console and act on the world, and none of them assigns to a field of
    the console or calls a method that changes one.

    The interpreter lets calls nest up to its recursion limit.  [depth]
    counts the calls of functions of the program ([execute_command], the
    handlers, [dfs]) that may still nest inside a call; what these
    functions call in the library is taken to find room, and [print] to
    succeed.  [overflow w f] is the [RecursionError] the interpreter raises
    when a call of the function [f] finds no room; its text differs
    between versions of the interpreter.  An [except] clause of the program
    formats its message, prints it and hands it to [logging.error]; these
    steps need calls of their own, and right after a [RecursionError] there
    may be no room for them.  In a clause from which [depth] more calls may
    nest, [report_fails w depth] is the exception raised before the message
    is printed, and [log_error w depth] the one raised after it is printed;
    [None] when there is none. *)
Class Host (W : Type) : Type := {
  isdir : W -> string -> bool;
  chdir : string -> W -> W + exn;
  read_file : W -> string -> string + string;
  set_iter : gset string -> list string;
  set_iter_NoDup : forall s, NoDup (set_iter s);
  set_iter_elem : forall s x, x ∈ set_iter s <-> x ∈ s;
  external : string -> list string -> Console -> W -> W * list string * option exn;
  evaluate : string -> list string -> Console -> W ->
             Console * W * list string * option exn;
  overflow : W -> string -> exn;
  report_fails : W -> nat -> option exn;
  log_error : W -> nat -> option exn
}.

(** The commands whose handlers call [eval]. *)
Definition evaluating : list string := ["awk"; "expr"; "bc"].

Section Shell.
Context {W : Type} {host : Host W} {str : PyStr}.

(** What a handler leaves behind: the console, the world, the lines it
    printed and the exception it raised, if any. *)
Record result : Type := {
  console : Console;
  world : W;
  output : list string;
  raised : option exn
}.

Definition prints (c : Console) (w : W) (out : list string) : result :=
  {| console := c; world := w; output := out; raised := None |}.

Definition raises (c : Console) (w : W) (e : exn) : result :=
  {| console := c; world := w; output := []; raised := Some e |}.

(** [FileSystem.change_dir] *)
Definition change_dir (fs : FileSystem) (path : string) (w : W) : bool * W + exn :=
  let full_path := _full_path (root_dir fs) path in
  if isdir w full_path then
    match chdir full_path w with
    | inl w' => inl (true, w')
    | inr e => inr e
    end
  else inl (false, w).

(** [Console.cd] *)
Definition cd (args : list string) (c : Console) (w : W) : result :=
  match args with
  | arg :: _ =>
      match change_dir (file_system c) (path_join (current_dir c) arg) w with
      | inl (true, w') => prints (set_current_dir (path_join (current_dir c) arg) c) w' []
      | inl (false, w') => prints c w' ["未找到目录"]
      | inr e => raises c w e
      end
  | [] => prints c w ["用法：cd <目录>"]
  end.

(** [Console.alias] *)
Definition alias (args : list string) (c : Console) (w : W) : result :=
  match args with
  | [name; value] =>
      prints (set_aliases (<[name := value]> (aliases c)) c) w
        ["别名 '" +:+ name +:+ "' 已设置为 '" +:+ value +:+ "'"]
  | _ => prints c w ["用法：alias <别名> <命令>"]
  end.

(** [Console.unalias] *)
Definition unalias (args : list string) (c : Console) (w : W) : result :=
  match args with
  | name :: _ =>
      match aliases c !! name with
      | Some _ =>
          prints (set_aliases (delete name (aliases c)) c) w
            ["别名 '" +:+ name +:+ "' 已删除"]
      | None => prints c w ["未找到别名 '" +:+ name +:+ "'"]
      end
  | [] => prints c w ["用法：unalias <别名>"]
  end.

(** [Console.export] *)
Definition export (args : list string) (c : Console) (w : W) : result :=
  match args with
  | [name; value] =>
      prints (set_environment (<[name := value]> (environment c)) c) w
        ["环境变量 '" +:+ name +:+ "' 已设置为 '" +:+ value +:+ "'"]
  | _ => prints c w ["用法：export <变量名> <值>"]
  end.

(** [Console.help] *)
Definition help (args : list string) (c : Console) (w : W) : result :=
  match args with
  | arg :: _ =>
      let command := lower arg in
      match table_get command help_text with
      | Some text => prints c w [command +:+ ": " +:+ text]
      | None => prints c w ["未找到命令 '" +:+ command +:+ "' 的帮助信息"]
      end
  | [] =>
      prints c w
        ("可用命令：" ::
         map (fun cmd => "  " +:+ cmd +:+ ": " +:+ default "" (table_get cmd help_text))
             (sorted (keys help_text)))
  end.

(** [Console.man] *)
Definition man (args : list string) (c : Console) (w : W) : result :=
  match args with
  | arg :: _ =>
      let command := lower arg in
      match table_get command man_pages with
      | Some text => prints c w [text]
      | None => prints c w ["未找到命令 '" +:+ command +:+ "' 的手册"]
      end
  | [] => prints c w ["用法：man <命令>"]
  end.

(** [Console.uniq] *)
Definition uniq (args : list string) (c : Console) (w : W) : result :=
  match args with
  | arg :: _ =>
      match read_file w (path_join (current_dir c) arg) with
      | inl content => prints c w (uniq_lines (readlines content))
      | inr e => prints c w ["无法读取文件 '" +:+ arg +:+ "': " +:+ e]
      end
  | [] => prints c w ["用法：uniq <文件>"]
  end.

(** [sorted(set(line.strip() for line in f))] *)
Definition unique_lines_of (content : string) : gset string :=
  list_to_set (map strip (readlines content)).

Definition comm_lines (content1 content2 : string) : list (comm_column * string) :=
  comm_merge (sorted (set_iter (unique_lines_of content1)))
             (sorted (set_iter (unique_lines_of content2))).

(** [Console.comm] *)
Definition comm (args : list string) (c : Console) (w : W) : result :=
  match args with
  | [file1; file2] =>
      match read_file w (path_join (current_dir c) file1),
            read_file w (path_join (current_dir c) file2) with
      | inl content1, inl content2 =>
          prints c w (map comm_print (comm_lines content1 content2))
      | inr e, _ => prints c w ["无法读取文件：" +:+ e]
      | _, inr e => prints c w ["无法读取文件：" +:+ e]
      end
  | _ => prints c w ["用法：comm <文件1> <文件2>"]
  end.

(** [Console.cksum]; [os.path.getsize] is the number of bytes read. *)
Definition cksum (args : list string) (c : Console) (w : W) : result :=
  match args with
  | arg :: _ =>
      match read_file w (path_join (current_dir c) arg) with
      | inl content =>
          match cksum_bytes (bytes_of content) with
          | inl crc =>
              prints c w [show_Z crc +:+ " " +:+ show_Z (Z.of_nat (String.length content))
                            +:+ " " +:+ arg]
          | inr e => raises c w e
          end
      | inr e => prints c w ["无法读取文件 '" +:+ arg +:+ "': " +:+ e]
      end
  | [] => prints c w ["用法：cksum <文件>"]
  end.

(** The inner function [dfs] of [Console.tsort], on the pair of [visited]
    and [result].  It calls itself for every neighbour, one call inside the
    other along a path of the graph; [depth] is the number of calls the
    interpreter still allows, and [None] says that a call found none
    left. *)
Fixpoint dfs (depth : nat) (g : graph) (node : string)
    (st : gset string * list string) : option (gset string * list string) :=
  match depth with
  | O => None
  | S depth' =>
      if decide (node ∈ st.1) then Some st
      else
        match fold_left (fun acc neighbor => acc ≫= dfs depth' g neighbor)
                        (set_iter (graph_get g node))
                        (Some ({[node]} ∪ st.1, st.2)) with
        | Some st' => Some (st'.1, st'.2 ++ [node])
        | None => None
        end
  end.

(** [for node in graph: dfs(node)], then [reversed(result)] *)
Definition dfs_all (depth : nat) (g : graph) : option (gset string * list string) :=
  fold_left (fun acc node => acc ≫= dfs depth g node) (map fst g) (Some (∅, [])).

Definition tsort_order (depth : nat) (g : graph) : option (list string) :=
  match dfs_all depth g with
  | Some st => Some (rev st.2)
  | None => None
  end.

(** [Console.tsort], with [depth] calls allowed inside it. *)
Definition tsort (depth : nat) (args : list string) (c : Console) (w : W) : result :=
  match args with
  | arg :: _ =>
      match read_file w (path_join (current_dir c) arg) with
      | inl content =>
          match build_graph [] (tsort_edges (readlines content)) with
          | inl g =>
              match tsort_order depth g with
              | Some order => prints c w [join " " order]
              | None => raises c w (overflow w "dfs")
              end
          | inr e => raises c w e
          end
      | inr e => prints c w ["无法读取文件 '" +:+ arg +:+ "': " +:+ e]
      end
  | [] => prints c w ["用法：tsort <文件>"]
  end.

(** [self.commands[cmd](args)], with [depth] calls allowed inside the
    handler. *)
Definition call (depth : nat) (cmd : string) (args : list string) (c : Console) (w : W)
    : result :=
  if String.eqb cmd "alias" then alias args c w
  else if String.eqb cmd "unalias" then unalias args c w
  else if String.eqb cmd "export" then export args c w
  else if String.eqb cmd "cd" then cd args c w
  else if String.eqb cmd "help" then help args c w
  else if String.eqb cmd "man" then man args c w
  else if String.eqb cmd "uniq" then uniq args c w
  else if String.eqb cmd "comm" then comm args c w
  else if String.eqb cmd "cksum" then cksum args c w
  else if String.eqb cmd "tsort" then tsort depth args c w
  else if mem cmd evaluating then
    let '(c', w', out, e) := evaluate cmd args c w in
    {| console := c'; world := w'; output := out; raised := e |}
  else
    let '(w', out, e) := external cmd args c w in
    {| console := c; world := w'; output := out; raised := e |}.

(** The message of the [except Exception] clause of [execute_command]. *)
Definition report (command : string) (e : option exn) : list string :=
  match e with
  | Some e => ["执行命令 '" +:+ command +:+ "' 时发生错误：" +:+ exn_text e]
  | None => []
  end.

(** The exceptions that come from the interpreter when the room for calls
    is used up, in the world [w]. *)
Definition from_interpreter (w : W) (e : exn) : Prop :=
  e = overflow w "execute_command" \/
  exists depth, report_fails w depth = Some e \/ log_error w depth = Some e.

(** The [try] of [execute_command] around [r], in a call from which
    [depth] more calls may nest: an exception is reported, and then
    logged. *)
Definition handle (depth : nat) (command : string) (r : result) : result :=
  match raised r with
  | Some e =>
      match report_fails (world r) depth with
      | Some e' =>
          {| console := console r; world := world r; output := output r;
             raised := Some e' |}
      | None =>
          {| console := console r; world := world r;
             output := output r ++ report command (Some e);
             raised := log_error (world r) depth |}
      end
  | None => r
  end.

(** [Console.execute_command], in a call from which [depth] more calls may
    nest.  The function calls itself on the expansion of an alias, with no
    bound and no record of the names it has expanded; only the interpreter
    stops it, with its [RecursionError], which the [except] clause of the
    call that meets it reports like any other. *)
Fixpoint execute_command (depth : nat) (c : Console) (w : W) (command : string) : result :=
  match split command with
  | [] => prints c w []
  | part :: args =>
      let cmd := lower part in
      match aliases c !! cmd with
      | Some expansion =>
          let command := expansion +:+ " " +:+ join " " args in
          handle depth command
            match depth with
            | O => raises c w (overflow w "execute_command")
            | S depth' => execute_command depth' c w command
            end
      | None =>
          if mem cmd commands then
            handle depth command
              match depth with
              | O => raises c w (overflow w cmd)
              | S depth' => call depth' cmd args c w
              end
          else prints c w ["未找到命令 '" +:+ cmd +:+ "'"]
      end
  end.

(** One turn of the loop of [Console.run] on the line that [input]
    returns, [execute_command] being called with [depth].  An exception
    that leaves [execute_command] is reported by the [except] clause of the
    loop, and logged; one that leaves the loop ends the session. *)
Inductive turn : Type :=
| Exit
| Continue (c : Console) (w : W) (out : list string)
| Leave (c : Console) (w : W) (out : list string) (e : exn).

Definition repl_step (depth : nat) (c : Console) (w : W) (line : string) : turn :=
  let command := strip line in
  if String.eqb (lower command) "exit" then Exit
  else
    let r := execute_command depth
               (set_command_history (command_history c ++ [command]) c) w command in
    match raised r with
    | None => Continue (console r) (world r) (output r)
    | Some e =>
        match report_fails (world r) (S depth) with
        | Some e' => Leave (console r) (world r) (output r) e'
        | None =>
            let out := output r ++ ["发生错误：" +:+ exn_text e] in
            match log_error (world r) (S depth) with
            | None => Continue (console r) (world r) out
            | Some e' => Leave (console r) (world r) out e'
            end
        end
    end.

(** The consoles a session can be in. *)
Inductive reachable (fs : FileSystem) : Console -> Prop :=
| reachable_new : reachable fs (new_console fs)
| reachable_turn c w depth line c' w' out :
    reachable fs c ->
    repl_step depth c w line = Continue c' w' out ->
    reachable fs c'.

(** The name on which [execute_command] ends up looking for a handler,
    through the aliases of [table]: [None] on a line without a token, and
    when the expansions go deeper than [depth]. *)
Fixpoint dispatched (depth : nat) (table : gmap string string) (command : string)
    : option string :=
  match split command with
  | [] => None
  | part :: args =>
      match table !! lower part with
      | Some expansion =>
          match depth with
          | O => None
          | S depth' => dispatched depth' table (expansion +:+ " " +:+ join " " args)
          end
      | None => Some (lower part)
      end
  end.

(** The line does not end at a handler that calls [eval]. *)
Definition avoids_eval (depth : nat) (table : gmap string string) (command : string) : bool :=
  match dispatched depth table command with
  | Some cmd => negb (mem cmd evaluating)
  | None => true
  end.

(** The consoles of the sessions none of whose lines ends there. *)
Inductive session (fs : FileSystem) : Console -> Prop :=
| session_new : session fs (new_console fs)
| session_turn c w depth line c' w' out :
    session fs c ->
    avoids_eval depth (aliases c) (strip line) = true ->
    repl_step depth c w line = Continue c' w' out ->
    session fs c'.

(** The expansion [execute_command] makes of a line whose first token is
    an alias, with the name it looked up. *)
Definition alias_expand (table : gmap string string) (command : string)
    : option (string * string) :=
  match split command with
  | [] => None
  | part :: args =>
      match table !! lower part with
      | Some expansion => Some (lower part, expansion +:+ " " +:+ join " " args)
      | None => None
      end
  end.

(** The alias names looked up in the first [n] expansions of a line. *)
Fixpoint alias_chain (n : nat) (table : gmap string string) (command : string) : list string :=
  match n with
  | O => []
  | S n' =>
      match alias_expand table command with
      | Some (name, next) => name :: alias_chain n' table next
      | None => []
      end
  end.

(** The line after [n] expansions, as far as they go. *)
Fixpoint alias_expanded (n : nat) (table : gmap string string) (command : string) : string :=
  match n with
  | O => command
  | S n' =>
      match alias_expand table command with
      | Some (_, next) => alias_expanded n' table next
      | None => command
      end
  end.

Definition alias_values_tokens (table : gmap string string) : Prop :=
  forall name value, table !! name = Some value -> is_token value = true.

End Shell.

Arguments result W : clear implicits.
Arguments turn W : clear implicits.

(** ** A small runtime and a small host, to run the definitions on.

    The runtime lowers ASCII.  The world of the host is the list of the
    directories, the list of those among them that cannot be entered, and
    the list of the files with their contents; sets are iterated in the
    order of [elements]; the handlers that are not spelled out print
    nothing; of [eval] the host knows one expression, the call that stores
    the alias [x]; the [except] clauses always have room. *)
#[global, refine] Instance ascii_str : PyStr := {| lower := ascii_lower |}.
Proof.
  - reflexivity.
  - induction s as [|ch s IH]; [reflexivity|].
    simpl. rewrite IH. f_equal. unfold lower_char.
    destruct ((65 <=? nat_of_ascii ch)%nat && (nat_of_ascii ch <=? 90)%nat) eqn:Hu.
    + apply andb_true_iff in Hu as [H1%Nat.leb_le H2%Nat.leb_le].
      rewrite nat_ascii_embedding by lia.
      destruct (Nat.leb_spec 65 (nat_of_ascii ch + 32)); [|lia].
      destruct (Nat.leb_spec (nat_of_ascii ch + 32) 90); [lia|]. reflexivity.
    + rewrite Hu. reflexivity.
Defined.

Record Disk : Type := {
  dirs : list string;
  locked : list string;
  files : list (string * string)
}.

#[global, refine] Instance disk_host : Host Disk := {|
  isdir w p := mem p (dirs w);
  chdir p w :=
    if mem p (locked w) then inr (Raised ("[Errno 13] Permission denied: '" +:+ p +:+ "'"))
    else inl w;
  read_file w p :=
    match table_get p (files w) with
    | Some content => inl content
    | None => inr ("[Errno 2] No such file or directory: '" +:+ p +:+ "'")
    end;
  set_iter := elements;
  external _ _ _ w := (w, [], None);
  evaluate cmd args c w :=
    if String.eqb cmd "expr" &&
       String.eqb (join " " args) "self.aliases.__setitem__('x','cd docs')"
    then (set_aliases (<["x" := "cd docs"]> (aliases c)) c, w, ["None"], None)
    else (c, w, [], None);
  overflow _ _ := RecursionError;
  report_fails _ _ := None;
  log_error _ _ := None
|}.
Proof.
  - intros s. apply NoDup_elements.
  - intros s x. apply elem_of_elements.
Defined.

(** ** What the traversal of tsort is to achieve *)

Definition nodes (g : graph) : gset string := list_to_set (map fst g).

(** Every successor of a node is a node. *)
Definition closed (g : graph) : Prop := forall u v, edge g u v -> v ∈ nodes g.

(** In [result] every node comes after its successors; [result] is printed
    reversed. *)
Definition finished_in_order (g : graph) (res : list string) : Prop :=
  forall u v, u ∈ res -> edge g u v -> before v u res.

(** A call of [dfs] on a node with [depth] calls allowed, from any
    [visited] that leaves fewer than [depth] nodes to visit: it returns;
    [new] are the nodes it appends to [result], the nodes it marks; on an
    acyclic graph, when the nodes marked and not yet in [result] all lead
    to the node, [result] stays in order and holds the node afterwards. *)
Definition dfs_spec {W : Type} {host : Host W} (depth : nat) (g : graph) : Prop :=
  forall node (vis : gset string) (res : list string),
    node ∈ nodes g -> size (nodes g ∖ vis) < depth ->
    exists new,
      dfs depth g node (vis, res) = Some (vis ∪ list_to_set new, res ++ new) /\
      NoDup new /\
      (forall x, x ∈ new -> (x ∉ vis) /\ x ∈ nodes g) /\
      node ∈ vis ∪ list_to_set new /\
      (acyclic g -> list_to_set res ⊆ vis -> finished_in_order g res ->
       (forall x, x ∈ vis -> x ∉ res -> path g x node) ->
       finished_in_order g (res ++ new) /\ node ∈ res ++ new).

(** A root directory and a disk to run examples on. *)
Definition home : FileSystem := {| root_dir := "/home/gtos" |}.

Definition sample_disk : Disk :=
  {| dirs := ["/home/gtos/docs"];
     locked := [];
     files := [("/one", String "a" (String LF "a"));
               ("/pairs", "a b" +:+ String LF ("b a" +:+ String LF ""));
               ("/byte", "a");
               ("/dag", "a b" +:+ String LF ("b c" +:+ String LF "a c"))] |}.

(** ** More of the console: completion, history and the text commands

    The handlers below are dispatched like the others; they are spelled
    out here under the names of their methods. *)

(** [int(s)] of the runtime; [None] when it raises, and then [int_raises s]
    is the [ValueError] raised. *)
Class PyInt : Type := {
  int_of_str : string -> option Z;
  int_raises : string -> exn
}.

(** [l[i]] of a list: a negative index counts from the end, an index out of
    range raises [IndexError] ([None]). *)
Definition py_index {A : Type} (l : list A) (i : Z) : option A :=
  if (0 <=? i)%Z then nth_error l (Z.to_nat i)
  else if (- Z.of_nat (length l) <=? i)%Z then nth_error l (Z.to_nat (Z.of_nat (length l) + i))
  else None.

(** [l[i:]] of a list: a negative start counts from the end, and the start
    is clipped to the list. *)
Definition py_slice_from {A : Type} (l : list A) (i : Z) : list A :=
  if (0 <=? i)%Z then skipn (Z.to_nat i) l
  else skipn (Z.to_nat (Z.of_nat (length l) + i)) l.

(** [enumerate(l, start)] *)
Fixpoint enumerate (start : Z) (l : list string) : list (Z * string) :=
  match l with
  | [] => []
  | x :: l' => (start, x) :: enumerate (start + 1) l'
  end.

(** The number of elements of [range(start, stop, step)], as the runtime
    computes it, and its elements. *)
Definition range_length (start stop step : Z) : Z :=
  if (0 <? step)%Z then
    if (start <? stop)%Z then ((stop - start - 1) / step + 1)%Z else 0%Z
  else if (step <? 0)%Z then
    if (stop <? start)%Z then ((start - stop - 1) / (- step) + 1)%Z else 0%Z
  else 0%Z.

Fixpoint range_from (n : nat) (start step : Z) : list Z :=
  match n with
  | O => []
  | S n' => start :: range_from n' (start + step)%Z step
  end.

(** [range(start, stop, step)]; a zero step raises [ValueError] ([None]). *)
Definition py_range (start stop step : Z) : option (list Z) :=
  if (step =? 0)%Z then None
  else Some (range_from (Z.to_nat (range_length start stop step)) start step).

(** [Console.create_completer]: the function it returns, for the word
    [text] being completed and the number [state] of the proposal asked
    for. *)
Definition custom_completer (commands : list string) (text : string) (state : Z)
    : option string + exn :=
  let options := List.filter (String.prefix text) commands in
  if (state <? Z.of_nat (length options))%Z then
    match py_index options state with
    | Some option => inl (Some option)
    | None => inr IndexError
    end
  else inl None.

Definition create_completer (commands : list string) : string -> Z -> option string + exn :=
  custom_completer commands.

(** The completer [Console.setup_autocomplete] installs. *)
Definition completer : string -> Z -> option string + exn := create_completer commands.

(** The columns of comm with the two files exchanged. *)
Definition comm_swap (e : comm_column * string) : comm_column * string :=
  match e with
  | (Only1, line) => (Only2, line)
  | (Only2, line) => (Only1, line)
  | (Both, line) => (Both, line)
  end.

(** The loop of [Console.sum]. *)
Fixpoint sum_loop (checksum : Z) (bytes : list Z) : Z :=
  match bytes with
  | [] => checksum
  | byte :: rest => sum_loop (Z.land (checksum + byte) 65535) rest
  end.

(** The first loop of [Console.diff], over [zip(lines1, lines2)] numbered
    from [i]. *)
Fixpoint diff_changes (i : Z) (lines1 lines2 : list string) : list string :=
  match lines1, lines2 with
  | line1 :: rest1, line2 :: rest2 =>
      (if String.eqb line1 line2 then []
       else [show_Z i +:+ "c" +:+ show_Z i; "< " +:+ strip line1; "---";
             "> " +:+ strip line2])
      ++ diff_changes (i + 1) rest1 rest2
  | _, _ => []
  end.

(** The loops over the lines one file has more than the other, numbered
    from [i]. *)
Fixpoint diff_excess (letter mark : string) (i : Z) (lines : list string) : list string :=
  match lines with
  | [] => []
  | line :: rest =>
      (show_Z i +:+ letter +:+ show_Z i) :: (mark +:+ strip line)
        :: diff_excess letter mark (i + 1) rest
  end.

Definition diff_lines (lines1 lines2 : list string) : list string :=
  diff_changes 1 lines1 lines2 ++
  (if (length lines2 <? length lines1)%nat then
     diff_excess "a" "> " (Z.of_nat (length lines2) + 1) (skipn (length lines2) lines1)
   else if (length lines1 <? length lines2)%nat then
     diff_excess "d" "< " (Z.of_nat (length lines1) + 1) (skipn (length lines1) lines2)
   else []).

(** What [Console.cmp] finds. *)
Inductive cmp_verdict : Type :=
| Differ (i : Z)
| LengthsDiffer
| Same.

(** The loop of [Console.cmp], which reads one byte of each file at a
    time; [i] counts the pairs of bytes read. *)
Fixpoint cmp_loop (i : Z) (data1 data2 : string) : cmp_verdict :=
  match data1, data2 with
  | String byte1 rest1, String byte2 rest2 =>
      if Ascii.eqb byte1 byte2 then cmp_loop (i + 1) rest1 rest2 else Differ (i + 1)
  | EmptyString, EmptyString => Same
  | _, _ => LengthsDiffer
  end.

Definition cmp_print (file1 file2 : string) (v : cmp_verdict) : string :=
  match v with
  | Differ i =>
      "文件 '" +:+ file1 +:+ "' 和 '" +:+ file2 +:+ "' 在第 " +:+ show_Z i +:+ " 个字节处不同"
  | LengthsDiffer => "文件 '" +:+ file1 +:+ "' 和 '" +:+ file2 +:+ "' 长度不同"
  | Same => "文件 '" +:+ file1 +:+ "' 和 '" +:+ file2 +:+ "' 相同"
  end.

(** [32 <= byte <= 126] *)
Definition printable (c : ascii) : bool :=
  ((32 <=? nat_of_ascii c)%nat && (nat_of_ascii c <=? 126)%nat).

Fixpoint all_printable (s : string) : bool :=
  match s with
  | EmptyString => true
  | String c s' => printable c && all_printable s'
  end.

Definition strings_flush (current_string : string) : list string :=
  if (4 <=? String.length current_string)%nat then [current_string] else [].

(** The loop of [Console.strings] and the test after it. *)
Fixpoint strings_loop (current_string : string) (data : string) : list string :=
  match data with
  | EmptyString => strings_flush current_string
  | String byte rest =>
      if printable byte then strings_loop (snoc current_string byte) rest
      else strings_flush current_string ++ strings_loop EmptyString rest
  end.

Module Cmd.
Section Handlers.
Context {W : Type} {host : Host W} {py : PyInt}.

(** [Console.sort] *)
Definition sort (args : list string) (c : Console) (w : W) : result W :=
  match args with
  | arg :: _ =>
      match read_file w (path_join (current_dir c) arg) with
      | inl content => prints c w (map strip (sorted (readlines content)))
      | inr e => prints c w ["无法读取文件 '" +:+ arg +:+ "': " +:+ e]
      end
  | [] => prints c w ["用法：sort <文件>"]
  end.

(** [Console.head] *)
Definition head (args : list string) (c : Console) (w : W) : result W :=
  match args with
  | arg :: _ =>
      match read_file w (path_join (current_dir c) arg) with
      | inl content => prints c w (map strip (firstn 10 (readlines content)))
      | inr e => prints c w ["无法读取文件 '" +:+ arg +:+ "': " +:+ e]
      end
  | [] => prints c w ["用法：head <文件>"]
  end.

(** [Console.tail] *)
Definition tail (args : list string) (c : Console) (w : W) : result W :=
  match args with
  | arg :: _ =>
      match read_file w (path_join (current_dir c) arg) with
      | inl content => prints c w (map strip (py_slice_from (readlines content) (-10)))
      | inr e => prints c w ["无法读取文件 '" +:+ arg +:+ "': " +:+ e]
      end
  | [] => prints c w ["用法：tail <文件>"]
  end.

(** [Console.sum]; [os.path.getsize] is the number of bytes read. *)
Definition sum (args : list string) (c : Console) (w : W) : result W :=
  match args with
  | arg :: _ =>
      match read_file w (path_join (current_dir c) arg) with
      | inl content =>
          prints c w [show_Z (sum_loop 0 (bytes_of content)) +:+ " "
                        +:+ show_Z (Z.of_nat (String.length content)) +:+ " " +:+ arg]
      | inr e => prints c w ["无法读取文件 '" +:+ arg +:+ "': " +:+ e]
      end
  | [] => prints c w ["用法：sum <文件>"]
  end.

(** [Console.diff] *)
Definition diff (args : list string) (c : Console) (w : W) : result W :=
  match args with
  | [file1; file2] =>
      match read_file w (path_join (current_dir c) file1),
            read_file w (path_join (current_dir c) file2) with
      | inl content1, inl content2 =>
          prints c w (diff_lines (readlines content1) (readlines content2))
      | inr e, _ => prints c w ["无法读取文件：" +:+ e]
      | _, inr e => prints c w ["无法读取文件：" +:+ e]
      end
  | _ => prints c w ["用法：diff <文件1> <文件2>"]
  end.

(** [Console.cmp] *)
Definition cmp (args : list string) (c : Console) (w : W) : result W :=
  match args with
  | [file1; file2] =>
      match read_file w (path_join (current_dir c) file1),
            read_file w (path_join (current_dir c) file2) with
      | inl data1, inl data2 => prints c w [cmp_print file1 file2 (cmp_loop 0 data1 data2)]
      | inr e, _ => prints c w ["无法读取文件：" +:+ e]
      | _, inr e => prints c w ["无法读取文件：" +:+ e]
      end
  | _ => prints c w ["用法：cmp <文件1> <文件2>"]
  end.

(** [Console.strings] *)
Definition strings (args : list string) (c : Console) (w : W) : result W :=
  match args with
  | arg :: _ =>
      match read_file w (path_join (current_dir c) arg) with
      | inl data => prints c w (strings_loop EmptyString data)
      | inr e => prints c w ["无法读取文件 '" +:+ arg +:+ "': " +:+ e]
      end
  | [] => prints c w ["用法：strings <文件>"]
  end.

(** [Console.seq] *)
Definition seq (args : list string) (c : Console) (w : W) : result W :=
  match args with
  | [a] =>
      match int_of_str a with
      | Some stop => prints c w (map show_Z (default [] (py_range 1 (stop + 1) 1)))
      | None => prints c w ["用法：seq <结束值>"]
      end
  | [a; b] =>
      match int_of_str a, int_of_str b with
      | Some start, Some stop => prints c w (map show_Z (default [] (py_range start (stop + 1) 1)))
      | _, _ => prints c w ["用法：seq <开始值> <结束值>"]
      end
  | [a; b; d] =>
      match int_of_str a, int_of_str b, int_of_str d with
      | Some start, Some increment, Some stop =>
          match py_range start (stop + 1) increment with
          | Some numbers => prints c w (map show_Z numbers)
          | None => prints c w ["用法：seq <开始值> <增量> <结束值>"]
          end
      | _, _, _ => prints c w ["用法：seq <开始值> <增量> <结束值>"]
      end
  | _ => prints c w ["用法：seq <结束值> 或 seq <开始值> <结束值> 或 seq <开始值> <增量> <结束值>"]
  end.

Definition cut_usage : string := "用法：cut -f <字段号> <文件>".

(** The loop of [Console.cut] over the lines of the file: what it prints,
    and the exception that ends it, if any. *)
Fixpoint cut_loop (args0 args1 : string) (lines : list string) : list string * option exn :=
  match lines with
  | [] => ([], None)
  | line :: rest =>
      let fields := split (strip line) in
      if String.eqb args0 "-f" then
        match int_of_str args1 with
        | Some n =>
            let field_index := (n - 1)%Z in
            if (field_index <? Z.of_nat (length fields))%Z then
              match py_index fields field_index with
              | Some field => let (out, e) := cut_loop args0 args1 rest in (field :: out, e)
              | None => ([], Some IndexError)
              end
            else cut_loop args0 args1 rest
        | None => ([], Some (int_raises args1))
        end
      else let (out, e) := cut_loop args0 args1 rest in (cut_usage :: out, e)
  end.

(** [Console.cut]; the file is the last argument, [args[-1]]. *)
Definition cut (args : list string) (c : Console) (w : W) : result W :=
  match args with
  | args0 :: args1 :: rest =>
      let file := List.last (args1 :: rest) args1 in
      match read_file w (path_join (current_dir c) file) with
      | inl content =>
          let (out, e) := cut_loop args0 args1 (readlines content) in
          {| console := c; world := w; output := out; raised := e |}
      | inr e => prints c w ["无法读取文件 '" +:+ file +:+ "': " +:+ e]
      end
  | _ => prints c w [cut_usage]
  end.

Definition history_print (e : Z * string) : string := show_Z e.1 +:+ ": " +:+ e.2.

(** [Console.history] *)
Definition history (args : list string) (c : Console) (w : W) : result W :=
  match args with
  | arg :: _ =>
      match int_of_str arg with
      | Some num =>
          prints c w
            (map history_print
               (enumerate (Z.of_nat (length (command_history c)) - num + 1)
                  (py_slice_from (command_history c) (- num))))
      | None => prints c w ["用法：history [数量]"]
      end
  | [] => prints c w (map history_print (enumerate 1 (command_history c)))
  end.

End Handlers.
End Cmd.

(** A reader of decimal numerals, to run examples on: an optional minus
    sign and ASCII digits. *)
Fixpoint digits_value (acc : Z) (s : string) : option Z :=
  match s with
  | EmptyString => Some acc
  | String c s' =>
      let n := nat_of_ascii c in
      if ((48 <=? n)%nat && (n <=? 57)%nat) then digits_value (10 * acc + Z.of_nat (n - 48)) s'
      else None
  end.

#[global] Instance decimal_int : PyInt := {|
  int_of_str s :=
    match s with
    | EmptyString => None
    | String "-" (String c s') => option_map Z.opp (digits_value 0 (String c s'))
    | _ => digits_value 0 s
    end;
  int_raises s := Raised ("invalid literal for int() with base 10: '" +:+ s +:+ "'")
|}.

Definition demo_disk : Disk :=
  {| dirs := ["/home/gtos/docs"; "/home/gtos/docs/img"; "/home/gtos/docs/..";
              "/home/gtos/vault"];
     locked := ["/home/gtos/vault"];
     files := [("/words", "pear" +:+ String LF ("apple" +:+ String LF ("fig" +:+ String LF "")));
               ("/words2", "pear" +:+ String LF ("plum" +:+ String LF ""));
               ("/blob", String (ascii_of_nat 1) ("GTOS" +:+ String (ascii_of_nat 0) "ab"));
               ("/table", "a b c" +:+ String LF ("d e" +:+ String LF (String LF "f")))] |}.
(** * Strings *)

Lemma append_cons c s t : String c s +:+ t = String c (s +:+ t).
Proof. reflexivity. Qed.

Lemma append_nil_l s : "" +:+ s = s.
Proof. reflexivity. Qed.

Lemma append_nil_r s : s +:+ "" = s.
Proof. induction s as [|c s IH]; [reflexivity|]. rewrite append_cons, IH. reflexivity. Qed.

Lemma append_assoc s t u : (s +:+ t) +:+ u = s +:+ (t +:+ u).
Proof.
  induction s as [|c s IH]; [reflexivity|].
  rewrite !append_cons, IH. reflexivity.
Qed.

Lemma snoc_append tok c s : snoc tok c +:+ s = tok +:+ String c s.
Proof. unfold snoc. rewrite append_assoc. reflexivity. Qed.

Lemma snoc_not_empty tok c : snoc tok c <> "".
Proof. unfold snoc. destruct tok; discriminate. Qed.

(** ** White space *)

(** Whether a string starts with white space is decided by its first
    three bytes: what follows a string that does not, and is not cut
    inside them, changes nothing. *)
Lemma space_at_prefix s t : space_at (s +:+ t) = None -> space_at s = None.
Proof.
  destruct s as [|c1 [|c2 [|c3 s]]]; try reflexivity.
  - rewrite append_cons, append_nil_l. simpl.
    destruct (is_space c1); [discriminate | reflexivity].
  - rewrite !append_cons, append_nil_l. simpl.
    destruct (is_space c1); [discriminate|].
    destruct (is_space2 c1 c2); [discriminate | reflexivity].
  - rewrite !append_cons. simpl. tauto.
Qed.

Lemma is_space2_space c : is_space2 c " " = false.
Proof. unfold is_space2. apply andb_false_r. Qed.

Lemma is_space3_space_2 c1 c3 : is_space3 c1 " " c3 = false.
Proof.
  unfold is_space3. cbv zeta.
  change (nat_of_ascii " ") with 32.
  change (32 =? 154)%nat with false. change (32 =? 128)%nat with false.
  change (32 =? 129)%nat with false.
  cbn [andb orb]. rewrite !andb_false_r. reflexivity.
Qed.

Lemma is_space3_space_3 c1 c2 : is_space3 c1 c2 " " = false.
Proof.
  unfold is_space3. cbv zeta.
  change (nat_of_ascii " ") with 32.
  change (32 =? 128)%nat with false. change (32 =? 159)%nat with false.
  change (128 <=? 32)%nat with false. change (32 =? 168)%nat with false.
  change (32 =? 169)%nat with false. change (32 =? 175)%nat with false.
  cbn [andb orb]. rewrite !andb_false_r. reflexivity.
Qed.

(** A space behind a string that does not start with white space does not
    make it start with white space. *)
Lemma space_at_before_space s t :
  s <> "" -> space_at s = None -> space_at (s +:+ String " " t) = None.
Proof.
  intros Hne Hs. destruct s as [|c1 [|c2 [|c3 s]]]; [congruence | | |].
  - rewrite append_cons, append_nil_l. simpl in Hs |- *.
    destruct (is_space c1); [discriminate|].
    rewrite is_space2_space. destruct t; [reflexivity|].
    rewrite is_space3_space_2. reflexivity.
  - rewrite !append_cons, append_nil_l. simpl in Hs |- *.
    destruct (is_space c1); [discriminate|].
    destruct (is_space2 c1 c2); [discriminate|].
    rewrite is_space3_space_3. reflexivity.
  - rewrite !append_cons. exact Hs.
Qed.

Lemma clean_nil_r tok : clean tok "" = no_space tok.
Proof.
  induction tok as [|c tok IH]; [reflexivity|].
  cbn [clean no_space]. rewrite append_nil_r, IH. reflexivity.
Qed.

Lemma clean_no_space tok s : clean tok s = true -> no_space tok = true.
Proof.
  induction tok as [|c tok IH]; [reflexivity|].
  cbn [clean no_space].
  destruct (space_at (String c tok +:+ s)) eqn:Hs; [discriminate|].
  rewrite (space_at_prefix _ _ Hs). exact IH.
Qed.

Lemma clean_snoc tok c s :
  clean tok (String c s) = true -> space_at (String c s) = None ->
  clean (snoc tok c) s = true.
Proof.
  intros Ht Hc. induction tok as [|c' tok IH].
  - change (snoc "" c) with (String c ""). cbn [clean].
    change (String c "" +:+ s) with (String c s). rewrite Hc. reflexivity.
  - cbn [clean] in Ht.
    destruct (space_at (String c' tok +:+ String c s)) eqn:Hs; [discriminate|].
    change (clean (snoc (String c' tok) c) s)
      with (match space_at (snoc (String c' tok) c +:+ s) with
            | Some _ => false
            | None => clean (snoc tok c) s
            end).
    rewrite snoc_append, Hs. apply IH, Ht.
Qed.

Lemma clean_before_space tok s : no_space tok = true -> clean tok (String " " s) = true.
Proof.
  induction tok as [|c tok IH]; [reflexivity|].
  cbn [clean no_space]. destruct (space_at (String c tok)) eqn:Hs; [discriminate|].
  intros Ht. rewrite space_at_before_space by (discriminate || exact Hs). apply IH, Ht.
Qed.

Lemma is_token_spec s : is_token s = true <-> s <> "" /\ no_space s = true.
Proof.
  unfold is_token. rewrite andb_true_iff, negb_true_iff, String.eqb_neq. reflexivity.
Qed.

Lemma emit_tokens tok :
  no_space tok = true -> Forall (fun t => is_token t = true) (emit tok).
Proof.
  intros Ht. destruct tok as [|c tok]; simpl; [constructor|].
  repeat constructor. apply is_token_spec. split; [discriminate | exact Ht].
Qed.

Lemma split_from_S skip tok c s :
  split_from (S skip) tok (String c s) = split_from skip tok s.
Proof. reflexivity. Qed.

Lemma split_from_O tok c s :
  split_from 0 tok (String c s) =
  match space_at (String c s) with
  | Some skip => emit tok ++ split_from skip "" s
  | None => split_from 0 (snoc tok c) s
  end.
Proof. reflexivity. Qed.


Lemma split_from_tokens s : forall skip tok,
  (skip = 0 -> clean tok s = true) -> (skip <> 0 -> tok = "") ->
  Forall (fun t => is_token t = true) (split_from skip tok s).
Proof.
  induction s as [|c s IH]; intros skip tok Ht Hskip.
  - destruct skip as [|skip].
    + apply emit_tokens. rewrite <- clean_nil_r. apply Ht. reflexivity.
    + rewrite Hskip by discriminate. constructor.
  - destruct skip as [|skip].
    + specialize (Ht eq_refl).
      rewrite split_from_O. destruct (space_at (String c s)) as [skip|] eqn:Hc.
      * apply Forall_app. split; [|apply IH; reflexivity].
        apply emit_tokens. eapply clean_no_space, Ht.
      * apply IH; [intros _; apply clean_snoc; assumption | congruence].
    + rewrite split_from_S, Hskip by discriminate. apply IH; reflexivity.
Qed.

(** Every token of a line is a non-empty string free of white space. *)
Lemma split_tokens s : Forall (fun t => is_token t = true) (split s).
Proof. apply split_from_tokens; [reflexivity | congruence]. Qed.

Lemma split_from_all_space s : forall skip,
  all_space_from skip s = true -> split_from skip "" s = [].
Proof.
  induction s as [|c s IH]; intros skip Hs; [reflexivity|].
  destruct skip as [|skip].
  - rewrite split_from_O. cbn [all_space_from] in Hs.
    destruct (space_at (String c s)); [apply IH, Hs | discriminate].
  - apply IH, Hs.
Qed.

Lemma split_all_space s : all_space s = true -> split s = [].
Proof. apply split_from_all_space. Qed.



(** A line whose [split] is empty is made of white space. *)
Lemma split_from_nil s : forall skip tok,
  split_from skip tok s = [] -> tok = "" /\ all_space_from skip s = true.
Proof.
  induction s as [|c s IH]; intros skip tok Hs.
  - destruct tok; [split; reflexivity | discriminate].
  - destruct skip as [|skip].
    + rewrite split_from_O in Hs. cbn [all_space_from].
      destruct (space_at (String c s)) as [skip|].
      * apply app_eq_nil in Hs as [Ht Hs]. apply IH in Hs as [_ Hs].
        split; [destruct tok; [reflexivity | discriminate] | exact Hs].
      * apply IH in Hs as [Hs _]. exfalso. eapply snoc_not_empty, Hs.
    + apply IH in Hs. exact Hs.
Qed.

Lemma split_nil s : split s = [] <-> all_space s = true.
Proof. split; [intros Hs; apply (split_from_nil s 0 ""), Hs | apply split_all_space]. Qed.

(** A token in front of a line is read back as its first token. *)
Lemma split_from_clean v : forall tok s,
  clean v s = true -> split_from 0 tok (v +:+ s) = split_from 0 (tok +:+ v) s.
Proof.
  induction v as [|c v IH]; intros tok s Hv.
  - rewrite append_nil_l, append_nil_r. reflexivity.
  - cbn [clean] in Hv.
    destruct (space_at (String c v +:+ s)) eqn:Hc; [discriminate|].
    rewrite append_cons in Hc |- *. rewrite split_from_O, Hc.
    rewrite IH by exact Hv. rewrite snoc_append. reflexivity.
Qed.

Lemma split_token_space v s :
  is_token v = true -> split (v +:+ " " +:+ s) = v :: split s.
Proof.
  intros [Hne Hv]%is_token_spec. unfold split.
  change (" " +:+ s) with (String " " s).
  rewrite split_from_clean by (apply clean_before_space, Hv). rewrite append_nil_l.
  rewrite split_from_O. change (space_at (String " " s)) with (Some 0).
  destruct v; [congruence | reflexivity].
Qed.

Lemma split_token v : is_token v = true -> split v = [v].
Proof.
  intros [Hne Hv]%is_token_spec. unfold split.
  rewrite <- (append_nil_r v) at 1.
  rewrite split_from_clean by (rewrite clean_nil_r; exact Hv).
  rewrite append_nil_l. simpl. destruct v; [congruence | reflexivity].
Qed.

(** * The definitions at work *)

Example split_example : split "  ls   -l  a " = ["ls"; "-l"; "a"].
Proof. reflexivity. Qed.

(** U+3000 and U+00A0 are white space, U+00E9 is not. *)
Example split_beyond_ascii_example :
  split ("expr" +:+ String (ascii_of_nat 227) (String (ascii_of_nat 128)
           (String (ascii_of_nat 128)
              ("x" +:+ String (ascii_of_nat 194) (String (ascii_of_nat 160)
                 ("y" +:+ String (ascii_of_nat 195) (String (ascii_of_nat 169) "")))))))
  = ["expr"; "x"; "y" +:+ String (ascii_of_nat 195) (String (ascii_of_nat 169) "")].
Proof. reflexivity. Qed.

Example strip_example : strip (String " " (String "a" (String " " (String LF "")))) = "a".
Proof. reflexivity. Qed.

Example strip_beyond_ascii_example :
  strip ("exit" +:+ String (ascii_of_nat 227) (String (ascii_of_nat 128)
           (String (ascii_of_nat 128) ""))) = "exit".
Proof. reflexivity. Qed.

Example path_join_example :
  path_join "/" "docs" = "/docs" /\ path_join "/docs" "img" = "/docs/img" /\
  path_join "/docs" "/img" = "/img".
Proof. repeat split. Qed.

Example resolve_example : resolve "/home/gtos" "/docs" "img" = "/home/gtos/docs/img".
Proof. reflexivity. Qed.

Example cd_example :
  execute_command 1 (new_console home) sample_disk "cd docs"
    = prints (set_current_dir "/docs" (new_console home)) sample_disk [] /\
  execute_command 1 (new_console home) sample_disk "CD nowhere"
    = prints (new_console home) sample_disk ["未找到目录"].
Proof. split; reflexivity. Qed.

Example unknown_command_example :
  execute_command 0 (new_console home) sample_disk "frob x"
    = prints (new_console home) sample_disk ["未找到命令 'frob'"].
Proof. reflexivity. Qed.

Example alias_example :
  execute_command 3
    (set_aliases (<["go" := "to"]> (<["to" := "cd"]> ∅)) (new_console home))
    sample_disk "go docs"
    = prints (set_current_dir "/docs"
                (set_aliases (<["go" := "to"]> (<["to" := "cd"]> ∅)) (new_console home)))
             sample_disk [].
Proof. vm_compute. reflexivity. Qed.

(** One call too few, and the interpreter stops the expansion. *)
Example alias_overflow_example :
  execute_command 1
    (set_aliases (<["go" := "to"]> (<["to" := "cd"]> ∅)) (new_console home))
    sample_disk "go docs"
    = prints (set_aliases (<["go" := "to"]> (<["to" := "cd"]> ∅)) (new_console home))
             sample_disk
             ["执行命令 'cd docs' 时发生错误：maximum recursion depth exceeded"].
Proof. vm_compute. reflexivity. Qed.

Example comm_example :
  execute_command 1 (new_console home) sample_disk "comm dag pairs"
    = prints (new_console home) sample_disk ["  a b"; "< a c"; "> b a"; "< b c"].
Proof. vm_compute. reflexivity. Qed.

Example tsort_example :
  execute_command 4 (new_console home) sample_disk "tsort dag"
    = prints (new_console home) sample_disk ["a b c"].
Proof. vm_compute. reflexivity. Qed.

(** The path from a to c takes three calls of dfs, one inside the other. *)
Example tsort_overflow_example :
  execute_command 3 (new_console home) sample_disk "tsort dag"
    = prints (new_console home) sample_disk
        ["执行命令 'tsort dag' 时发生错误：maximum recursion depth exceeded"].
Proof. vm_compute. reflexivity. Qed.

Example tsort_unpack_example :
  execute_command 1 (new_console home) sample_disk "tsort byte"
    = prints (new_console home) sample_disk
        ["执行命令 'tsort byte' 时发生错误：not enough values to unpack (expected 2, got 1)"].
Proof. vm_compute. reflexivity. Qed.

(** * The dispatcher *)

Section Dispatcher.
Context {W : Type} {host : Host W} {str : PyStr}.

Lemma execute_command_eq depth (c : Console) (w : W) command :
  execute_command depth c w command =
  match split command with
  | [] => prints c w []
  | part :: args =>
      match aliases c !! lower part with
      | Some expansion =>
          handle depth (expansion +:+ " " +:+ join " " args)
            match depth with
            | O => raises c w (overflow w "execute_command")
            | S depth' => execute_command depth' c w (expansion +:+ " " +:+ join " " args)
            end
      | None =>
          if mem (lower part) commands then
            handle depth command
              match depth with
              | O => raises c w (overflow w (lower part))
              | S depth' => call depth' (lower part) args c w
              end
          else prints c w ["未找到命令 '" +:+ lower part +:+ "'"]
      end
  end.
Proof. destruct depth; reflexivity. Qed.

Lemma dispatched_eq depth table command :
  dispatched depth table command =
  match split command with
  | [] => None
  | part :: args =>
      match table !! lower part with
      | Some expansion =>
          match depth with
          | O => None
          | S depth' => dispatched depth' table (expansion +:+ " " +:+ join " " args)
          end
      | None => Some (lower part)
      end
  end.
Proof. destruct depth; reflexivity. Qed.

(** ** The [except] clause *)

Lemma handle_None depth command (r : result W) :
  raised r = None -> handle depth command r = r.
Proof. intros Hr. unfold handle. rewrite Hr. reflexivity. Qed.

Lemma handle_console depth command (r : result W) :
  console (handle depth command r) = console r.
Proof.
  unfold handle. destruct (raised r); [|reflexivity].
  destruct (report_fails _ depth); reflexivity.
Qed.

Lemma handle_world depth command (r : result W) :
  world (handle depth command r) = world r.
Proof.
  unfold handle. destruct (raised r); [|reflexivity].
  destruct (report_fails _ depth); reflexivity.
Qed.

(** The clause prints at most its own message, after what was printed. *)
Lemma handle_output depth command (r : result W) :
  output (handle depth command r) = output r \/
  exists e, raised r = Some e /\
    output (handle depth command r) = output r ++ report command (Some e).
Proof.
  unfold handle. destruct (raised r) as [e|]; [|left; reflexivity].
  destruct (report_fails _ depth); [left; reflexivity|]. right. exists e. auto.
Qed.

(** A call that returns without an exception has printed the message of
    its clause, or the call inside it has returned without one. *)
Lemma handle_returns depth command (r : result W) :
  raised (handle depth command r) = None ->
  raised r = None \/
  exists e, raised r = Some e /\
    output (handle depth command r) = output r ++ report command (Some e).
Proof.
  unfold handle. destruct (raised r) as [e|]; [|left; reflexivity].
  destruct (report_fails _ depth); [discriminate|]. intros _. right. exists e. auto.
Qed.

(** ** The alias table holds tokens *)

Lemma tokens_insert (table : gmap string string) name value :
  alias_values_tokens table -> is_token value = true ->
  alias_values_tokens (<[name := value]> table).
Proof.
  intros Ht Hv k v. rewrite lookup_insert. case_decide.
  - intros [= <-]. exact Hv.
  - apply Ht.
Qed.

Lemma tokens_delete (table : gmap string string) name :
  alias_values_tokens table -> alias_values_tokens (delete name table).
Proof.
  intros Ht k v. rewrite lookup_delete. case_decide; [discriminate | apply Ht].
Qed.

Lemma alias_keeps_tokens args (c : Console) (w : W) :
  Forall (fun t => is_token t = true) args ->
  alias_values_tokens (aliases c) ->
  alias_values_tokens (aliases (console (alias args c w))).
Proof.
  intros Ha Hc. unfold alias.
  destruct args as [|name [|value [|]]]; try exact Hc.
  simpl. apply tokens_insert; [exact Hc|].
  inversion Ha as [|? ? _ Ha']. inversion Ha'. assumption.
Qed.

Lemma unalias_keeps_tokens args (c : Console) (w : W) :
  alias_values_tokens (aliases c) ->
  alias_values_tokens (aliases (console (unalias args c w))).
Proof.
  intros Hc. unfold unalias. destruct args as [|name ?]; [exact Hc|].
  destruct (aliases c !! name); [|exact Hc].
  simpl. apply tokens_delete, Hc.
Qed.

Lemma cd_aliases args (c : Console) (w : W) : aliases (console (cd args c w)) = aliases c.
Proof.
  unfold cd. destruct args; [reflexivity|].
  destruct (change_dir _ _ w) as [[[] ?]|]; reflexivity.
Qed.

Lemma export_aliases args (c : Console) (w : W) :
  aliases (console (export args c w)) = aliases c.
Proof. unfold export. destruct args as [|? [|? [|]]]; reflexivity. Qed.

Lemma help_console args (c : Console) (w : W) : console (help args c w) = c.
Proof. unfold help. destruct args; [reflexivity|]. destruct (table_get _ _); reflexivity. Qed.

Lemma man_console args (c : Console) (w : W) : console (man args c w) = c.
Proof. unfold man. destruct args; [reflexivity|]. destruct (table_get _ _); reflexivity. Qed.

Lemma uniq_console args (c : Console) (w : W) : console (uniq args c w) = c.
Proof. unfold uniq. destruct args; [reflexivity|]. destruct (read_file w _); reflexivity. Qed.

Lemma comm_console args (c : Console) (w : W) : console (comm args c w) = c.
Proof.
  unfold comm. destruct args as [|file1 [|file2 [|]]]; try reflexivity.
  destruct (read_file w (path_join (current_dir c) file1));
    destruct (read_file w (path_join (current_dir c) file2)); reflexivity.
Qed.

Lemma cksum_console args (c : Console) (w : W) : console (cksum args c w) = c.
Proof.
  unfold cksum. destruct args; [reflexivity|].
  destruct (read_file w _); [|reflexivity]. destruct (cksum_bytes _); reflexivity.
Qed.

Lemma tsort_console depth args (c : Console) (w : W) : console (tsort depth args c w) = c.
Proof.
  unfold tsort. destruct args; [reflexivity|].
  destruct (read_file w _); [|reflexivity].
  destruct (build_graph _ _); [|reflexivity]. destruct (tsort_order _ _); reflexivity.
Qed.

(** No handler but those that call [eval] puts anything but a token of
    the line into the table. *)
Lemma call_keeps_tokens depth cmd args (c : Console) (w : W) :
  mem cmd evaluating = false ->
  Forall (fun t => is_token t = true) args ->
  alias_values_tokens (aliases c) ->
  alias_values_tokens (aliases (console (call depth cmd args c w))).
Proof.
  intros He Ha Hc. unfold call.
  destruct (String.eqb cmd "alias"); [apply alias_keeps_tokens; assumption|].
  destruct (String.eqb cmd "unalias"); [apply unalias_keeps_tokens; assumption|].
  destruct (String.eqb cmd "export"); [rewrite export_aliases; assumption|].
  destruct (String.eqb cmd "cd"); [rewrite cd_aliases; assumption|].
  destruct (String.eqb cmd "help"); [rewrite help_console; assumption|].
  destruct (String.eqb cmd "man"); [rewrite man_console; assumption|].
  destruct (String.eqb cmd "uniq"); [rewrite uniq_console; assumption|].
  destruct (String.eqb cmd "comm"); [rewrite comm_console; assumption|].
  destruct (String.eqb cmd "cksum"); [rewrite cksum_console; assumption|].
  destruct (String.eqb cmd "tsort"); [rewrite tsort_console; assumption|].
  rewrite He. destruct (external cmd args c w) as [[? ?] ?]. exact Hc.
Qed.

Lemma execute_command_keeps_tokens depth : forall (c : Console) (w : W) command,
  avoids_eval depth (aliases c) command = true ->
  alias_values_tokens (aliases c) ->
  alias_values_tokens (aliases (console (execute_command depth c w command))).
Proof.
  induction depth as [|depth IH]; intros c w command Hav Hc;
    unfold avoids_eval in Hav; rewrite dispatched_eq in Hav;
    rewrite execute_command_eq;
    pose proof (split_tokens command) as Htok;
    (destruct (split command) as [|part args]; [exact Hc|]);
    (destruct (aliases c !! lower part); [rewrite handle_console|]).
  - exact Hc.
  - destruct (mem (lower part) commands); [rewrite handle_console|]; exact Hc.
  - apply IH; [exact Hav | exact Hc].
  - destruct (mem (lower part) commands); [rewrite handle_console|exact Hc].
    apply call_keeps_tokens; [|inversion Htok; assumption | exact Hc].
    apply negb_true_iff, Hav.
Qed.

(** What a turn that goes on leaves is the console [execute_command]
    returned. *)
Lemma repl_step_Continue depth (c : Console) (w : W) line c' w' out :
  repl_step depth c w line = Continue c' w' out ->
  String.eqb (lower (strip line)) "exit" = false /\
  c' = console (execute_command depth
                  (set_command_history (command_history c ++ [strip line]) c) w
                  (strip line)) /\
  w' = world (execute_command depth
                (set_command_history (command_history c ++ [strip line]) c) w
                (strip line)).
Proof.
  unfold repl_step. destruct (String.eqb (lower (strip line)) "exit"); [discriminate|].
  destruct (raised _).
  - destruct (report_fails _ (S depth)); [discriminate|].
    destruct (log_error _ (S depth)); [discriminate|]. intros [= <- <- _]. auto.
  - intros [= <- <- _]. auto.
Qed.

Lemma repl_step_keeps_tokens depth (c : Console) (w : W) line c' w' out :
  avoids_eval depth (aliases c) (strip line) = true ->
  alias_values_tokens (aliases c) ->
  repl_step depth c w line = Continue c' w' out ->
  alias_values_tokens (aliases c').
Proof.
  intros Hav Hc (_ & -> & _)%repl_step_Continue.
  apply execute_command_keeps_tokens; assumption.
Qed.

(** ** Alias chains *)

Lemma alias_chain_S n table command :
  alias_chain (S n) table command =
  match alias_expand table command with
  | Some (name, next) => name :: alias_chain n table next
  | None => []
  end.
Proof. reflexivity. Qed.

Lemma alias_expanded_S n table command :
  alias_expanded (S n) table command =
  match alias_expand table command with
  | Some (_, next) => alias_expanded n table next
  | None => command
  end.
Proof. reflexivity. Qed.

Lemma alias_expand_Some table command name next :
  alias_expand table command = Some (name, next) ->
  exists part args expansion,
    split command = part :: args /\ name = lower part /\
    table !! lower part = Some expansion /\
    next = expansion +:+ " " +:+ join " " args.
Proof.
  unfold alias_expand. destruct (split command) as [|part args]; [discriminate|].
  destruct (table !! lower part) as [expansion|] eqn:Hl; [|discriminate].
  intros [= <- <-]. exists part, args, expansion. auto.
Qed.

Lemma alias_chain_keys n : forall table command x,
  x ∈ alias_chain n table command -> is_Some (table !! x).
Proof.
  induction n as [|n IH]; intros table command x; [intros Hx; inversion Hx|].
  rewrite alias_chain_S.
  destruct (alias_expand table command) as [[name next]|] eqn:He; [|intros Hx; inversion Hx].
  apply alias_expand_Some in He as (part & args & expansion & _ & -> & Hl & _).
  intros [->|Hx]%elem_of_cons; [eauto | eapply IH, Hx].
Qed.

(** A chain without a repeated name is no longer than the table. *)
Lemma alias_chain_short n (table : gmap string string) command :
  NoDup (alias_chain n table command) ->
  length (alias_chain n table command) <= size table.
Proof.
  intros Hnd. rewrite <- size_dom.
  change (size (dom table)) with (length (elements (dom table))).
  apply submseteq_length, NoDup_submseteq; [exact Hnd|].
  intros x Hx. apply elem_of_elements, elem_of_dom. eapply alias_chain_keys, Hx.
Qed.

(** A chain that has stopped stays as it is. *)
Lemma alias_chain_stops n : forall table command m,
  length (alias_chain n table command) < n -> n <= m ->
  alias_chain m table command = alias_chain n table command.
Proof.
  induction n as [|n IH]; intros table command m Hlen Hm; [simpl in Hlen; lia|].
  destruct m as [|m]; [lia|].
  rewrite !alias_chain_S in *.
  destruct (alias_expand table command) as [[name next]|]; [|reflexivity].
  simpl in Hlen. f_equal. apply IH; lia.
Qed.

(** Where the chain stops, the line is not headed by an alias. *)
Lemma alias_expanded_stops n : forall table command,
  length (alias_chain (S n) table command) <= n ->
  alias_expand table
    (alias_expanded (length (alias_chain (S n) table command)) table command) = None.
Proof.
  induction n as [|n IH]; intros table command Hlen; rewrite alias_chain_S in *;
    destruct (alias_expand table command) as [[name next]|] eqn:He;
    try (simpl in Hlen; lia); try exact He.
  simpl length in *. rewrite alias_expanded_S, He. apply IH. lia.
Qed.

(** When the chain stops within [depth] expansions, the line it stops at
    is dispatched with the calls that are left; the calls around it add to
    what it prints only when an exception leaves it. *)
Lemma alias_chain_ends depth : forall (c : Console) (w : W) command,
  length (alias_chain (S depth) (aliases c) command) <= depth ->
  let n := length (alias_chain (S depth) (aliases c) command) in
  let r := execute_command depth c w command in
  let r0 := execute_command (depth - n) c w (alias_expanded n (aliases c) command) in
  console r = console r0 /\ world r = world r0 /\
  (exists extra, output r = output r0 ++ extra) /\
  (raised r0 = None -> r = r0).
Proof.
  induction depth as [|depth IH]; intros c w command Hlen; cbv zeta.
  - rewrite alias_chain_S in *.
    destruct (alias_expand (aliases c) command) as [[name next]|]; [simpl in Hlen; lia|].
    simpl. split; [reflexivity|]. split; [reflexivity|]. split; [|reflexivity].
    exists []. symmetry. apply app_nil_r.
  - rewrite alias_chain_S in *.
    destruct (alias_expand (aliases c) command) as [[name next]|] eqn:He.
    + simpl length in *. rewrite alias_expanded_S, He.
      replace (S depth - S (length (alias_chain (S depth) (aliases c) next)))
        with (depth - length (alias_chain (S depth) (aliases c) next)) by lia.
      destruct (IH c w next) as (Hc & Hw & [extra Ho] & Hr); [lia|].
      apply alias_expand_Some in He as (part & args & expansion & Hs & -> & Hl & ->).
      rewrite (execute_command_eq (S depth)), Hs, Hl.
      rewrite handle_console, handle_world. split; [exact Hc|]. split; [exact Hw|]. split.
      * destruct (handle_output (S depth) (expansion +:+ " " +:+ join " " args)
                    (execute_command depth c w (expansion +:+ " " +:+ join " " args)))
          as [-> | (e & _ & ->)].
        -- exists extra. exact Ho.
        -- rewrite Ho, <- app_assoc. eauto.
      * intros H0. rewrite handle_None; [apply Hr, H0|]. rewrite (Hr H0). exact H0.
    + cbn [length alias_expanded Nat.sub]. split; [reflexivity|]. split; [reflexivity|].
      split; [|reflexivity]. exists []. symmetry. apply app_nil_r.
Qed.

(** When the chain goes on for more than [depth] expansions, no handler is
    called: the interpreter stops the expansion, and what is printed are
    the messages of the [except] clauses, each about the expansion its call
    was making and an exception of the interpreter.  When the call returns
    without an exception, one at least was printed. *)
Lemma alias_chain_runs depth : forall (c : Console) (w : W) command,
  length (alias_chain (S depth) (aliases c) command) = S depth ->
  let r := execute_command depth c w command in
  console r = c /\ world r = w /\
  Forall (fun line => exists k e,
            [line] = report (alias_expanded (S k) (aliases c) command) (Some e) /\
            from_interpreter w e)
         (output r) /\
  (raised r = None -> output r <> []) /\
  (forall e, raised r = Some e -> from_interpreter w e).
Proof.
  induction depth as [|depth IH]; intros c w command Hlen; cbv zeta;
    rewrite alias_chain_S in Hlen;
    (destruct (alias_expand (aliases c) command) as [[name next]|] eqn:He;
       [|discriminate]);
    pose proof He as He';
    apply alias_expand_Some in He' as (part & args & expansion & Hs & -> & Hl & ->);
    rewrite execute_command_eq, Hs, Hl, handle_console, handle_world.
  - split; [reflexivity|]. split; [reflexivity|].
    unfold handle. cbn [raised raises output world console].
    destruct (report_fails w 0) as [e'|] eqn:Hf.
    + split; [constructor|]. split; [discriminate|].
      intros e [= <-]. right. exists 0. left. exact Hf.
    + split; [|split; [intros _; discriminate|]].
      * repeat constructor. exists 0, (overflow w "execute_command").
        rewrite alias_expanded_S, He. split; [reflexivity | left; reflexivity].
      * intros e He'. right. exists 0. right. exact He'.
  - simpl in Hlen. injection Hlen as Hlen.
    destruct (IH c w _ Hlen) as (Hc & Hw & Hout & Hne & Hfrom).
    split; [exact Hc|]. split; [exact Hw|].
    assert (Hout' : Forall (fun line => exists k e,
                      [line] = report (alias_expanded (S k) (aliases c) command) (Some e) /\
                      from_interpreter w e)
                      (output (execute_command depth c w
                                 (expansion +:+ " " +:+ join " " args)))).
    { eapply Forall_impl; [exact Hout|]. intros line (k & e & Hline & Hint).
      exists (S k), e. rewrite alias_expanded_S, He. auto. }
    unfold handle. rewrite Hw.
    destruct (raised (execute_command depth c w (expansion +:+ " " +:+ join " " args)))
      as [e|] eqn:Hr.
    + destruct (report_fails w (S depth)) as [e'|] eqn:Hf; cbn [output raised].
      * split; [exact Hout'|]. split; [discriminate|].
        intros e0 [= <-]. right. exists (S depth). left. exact Hf.
      * split; [|split; [intros _ Hnil; apply app_eq_nil in Hnil as [_ Hnil];
                           discriminate Hnil|]].
        -- apply Forall_app. split; [exact Hout'|].
           repeat constructor. exists 0, e. rewrite alias_expanded_S, He.
           split; [reflexivity | apply Hfrom; reflexivity].
        -- intros e0 He0. right. exists (S depth). right. exact He0.
    + split; [exact Hout'|]. split; [intros _; apply Hne; reflexivity|].
      intros e0 He0. congruence.
Qed.

(** Under the invariant of the table, the chain of a line is decided by
    its first token. *)
Lemma alias_chain_head n : forall table command command' part args part' args',
  alias_values_tokens table ->
  split command = part :: args -> split command' = part' :: args' ->
  lower part = lower part' ->
  alias_chain n table command = alias_chain n table command'.
Proof.
  induction n as [|n IH]; intros table command command' part args part' args' Ht Hs Hs' Hl;
    [reflexivity|].
  rewrite !alias_chain_S. unfold alias_expand. rewrite Hs, Hs', <- Hl.
  destruct (table !! lower part) as [expansion|] eqn:He; [|reflexivity].
  f_equal. apply Ht in He.
  eapply IH; [exact Ht | apply split_token_space, He | apply split_token_space, He | reflexivity].
Qed.

Lemma alias_chain_return n : forall table cy cx part args part' args' m,
  alias_values_tokens table ->
  split cy = part :: args -> split cx = part' :: args' ->
  lower part ∈ alias_chain n table cx ->
  (forall m', m' <= m -> length (alias_chain m' table cy) = m') ->
  length (alias_chain m table cx) = m.
Proof.
  induction n as [|n IH]; intros table cy cx part args part' args' m Ht Hy Hx Hin Hrun;
    [inversion Hin|].
  rewrite alias_chain_S in Hin.
  destruct (alias_expand table cx) as [[name next]|] eqn:He; [|inversion Hin].
  pose proof He as He'.
  apply alias_expand_Some in He' as (p & a & expansion & Hs & -> & Hl & ->).
  rewrite Hx in Hs. injection Hs as <- <-.
  apply elem_of_cons in Hin as [Heq|Hin].
  - rewrite <- (alias_chain_head m table cy cx part args part' args' Ht Hy Hx Heq).
    apply Hrun. lia.
  - destruct m as [|m]; [reflexivity|].
    rewrite alias_chain_S, He. simpl. f_equal.
    eapply (IH table cy _ part args expansion _ m Ht Hy).
    + apply split_token_space. eapply Ht, Hl.
    + exact Hin.
    + intros m' Hm'. apply Hrun. lia.
Qed.

(** A chain that comes back to a name never stops. *)
Lemma alias_chain_cycle n : forall table command,
  alias_values_tokens table ->
  ~ NoDup (alias_chain n table command) ->
  forall m, length (alias_chain m table command) = m.
Proof.
  induction n as [|n IH]; intros table command Ht Hdup; [exfalso; apply Hdup; constructor|].
  rewrite alias_chain_S in Hdup.
  destruct (alias_expand table command) as [[name next]|] eqn:He;
    [|exfalso; apply Hdup; constructor].
  destruct (decide (name ∈ alias_chain n table next)) as [Hin|Hnin].
  - pose proof He as He'.
    apply alias_expand_Some in He' as (part & args & expansion & Hs & -> & Hl & ->).
    intros m. induction m as [m IHm] using lt_wf_ind.
    destruct m as [|m]; [reflexivity|].
    rewrite alias_chain_S, He. simpl. f_equal.
    eapply (alias_chain_return n table command _ part args expansion _ m Ht Hs).
    + apply split_token_space. eapply Ht, Hl.
    + exact Hin.
    + intros m' Hm'. apply IHm. lia.
  - assert (Hrest : ~ NoDup (alias_chain n table next)).
    { intros Hnd. apply Hdup. constructor; assumption. }
    intros [|m]; [reflexivity|].
    rewrite alias_chain_S, He. simpl. f_equal. apply IH; assumption.
Qed.

Lemma tokens_empty : alias_values_tokens ∅.
Proof. intros name value Hl. rewrite lookup_empty in Hl. discriminate. Qed.

End Dispatcher.

Section DispatcherClaims.
Context {W : Type} {host : Host W} {str : PyStr}.



(** C9 (as amended): in every console that a session reaches by lines
    none of which ends at a handler that calls [eval], each expansion
    stored in the alias table is a single token, not empty and free of
    white space; the alias command stores its second argument when it is
    given exactly two, and otherwise prints its usage line and leaves the
    console as it is. *)
Theorem alias_table_holds_tokens (fs : FileSystem) (c : Console) :
  session (W := W) fs c ->
  alias_values_tokens (aliases c) /\
  (forall name value (w : W),
     aliases (console (alias [name; value] c w)) = <[name := value]> (aliases c)) /\
  (forall args (w : W), length args <> 2 ->
     alias args c w = prints c w ["用法：alias <别名> <命令>"]).
Proof.
  intros Hr. split; [|split].
  - induction Hr as [|c w depth line c' w' out _ IH Hav Hstep]; [apply tokens_empty|].
    eapply repl_step_keeps_tokens; eassumption.
  - reflexivity.
  - intros args w Hlen. destruct args as [|? [|? [|]]]; simpl in Hlen; try reflexivity.
    congruence.
Qed.

Lemma alias_chain_mono n : forall table command m,
  n <= m -> length (alias_chain n table command) <= length (alias_chain m table command).
Proof.
  induction n as [|n IH]; intros table command m Hm; [simpl; lia|].
  destruct m as [|m]; [lia|]. rewrite !alias_chain_S.
  destruct (alias_expand table command) as [[name next]|]; [|reflexivity].
  simpl. apply le_n_S, IH. lia.
Qed.

Lemma alias_chain_length n table command : length (alias_chain n table command) <= n.
Proof.
  revert command. induction n as [|n IH]; intros command; [reflexivity|].
  rewrite alias_chain_S. destruct (alias_expand table command) as [[name next]|]; [|simpl; lia].
  simpl. apply le_n_S, IH.
Qed.

(** C2 (as amended): [execute_command] has no depth limit and no check for
    cycles of its own; the interpreter's limit on nested calls is the only
    bound.  For a table of tokens: a chain in which no alias name comes
    twice stops within as many expansions as the table has entries, at a
    line that is not headed by an alias, and with that many calls allowed
    this line is what is dispatched.  A chain in which a name comes twice,
    or that is longer than the calls allowed, never reaches a handler: the
    console and the world stay as they are, and what is printed are the
    messages of the [except] clauses about the exceptions the interpreter
    raised for want of room, one at least when the call returns without an
    exception. *)
Theorem alias_expansion_is_cut_by_the_interpreter
    (depth : nat) (c : Console) (w : W) (command : string) :
  alias_values_tokens (aliases c) ->
  let table := aliases c in
  let r := execute_command depth c w command in
  (NoDup (alias_chain (S (size table)) table command) ->
   let n := length (alias_chain (S (size table)) table command) in
   let r0 := execute_command (depth - n) c w (alias_expanded n table command) in
   n <= size table /\
   alias_expand table (alias_expanded n table command) = None /\
   (n <= depth ->
    console r = console r0 /\ world r = world r0 /\
    (exists extra, output r = output r0 ++ extra) /\
    (raised r0 = None -> r = r0))) /\
  ((exists n, ~ NoDup (alias_chain n table command)) \/
   depth < length (alias_chain (S depth) table command) ->
   console r = c /\ world r = w /\
   Forall (fun line => exists k e,
             [line] = report (alias_expanded (S k) table command) (Some e) /\
             from_interpreter w e)
          (output r) /\
   (raised r = None -> output r <> []) /\
   (forall e, raised r = Some e -> from_interpreter w e)).
Proof.
  intros Ht table r. split.
  - intros Hnd n r0. subst n r0.
    pose proof (alias_chain_short _ _ _ Hnd) as Hlen. fold table in Hlen.
    set (n := length (alias_chain (S (size table)) table command)) in *.
    assert (Hstop : forall m, n <= m -> alias_chain (S m) table command
                                       = alias_chain (S (size table)) table command).
    { intros m Hm.
      assert (Hn : length (alias_chain (S n) table command) < S n).
      { pose proof (alias_chain_mono (S n) table command (S (size table))). lia. }
      rewrite (alias_chain_stops (S n) table command (S m)) by (exact Hn || lia).
      symmetry. apply alias_chain_stops; [exact Hn | lia]. }
    split; [exact Hlen|]. split.
    + pose proof (alias_expanded_stops (size table) table command Hlen) as He. exact He.
    + intros Hd.
      pose proof (alias_chain_ends depth c w command) as Hends. cbv zeta in Hends.
      fold table in Hends. rewrite (Hstop depth Hd) in Hends. fold n in Hends.
      apply Hends. exact Hlen || lia.
  - intros Hlong. subst r table. apply alias_chain_runs.
    destruct Hlong as [[n Hdup]|Hlong].
    + eapply alias_chain_cycle; eassumption.
    + pose proof (alias_chain_length (S depth) (aliases c) command). lia.
Qed.

End DispatcherClaims.


Lemma alias_table_witness :
  exists c : Console,
    session (W := Disk) home c /\
    aliases c !! "ll" = Some "ls" /\
    alias_values_tokens (aliases c).
Proof.
  exists (set_aliases {[ "ll" := "ls" ]}
            (set_command_history ["alias ll ls"] (new_console home))).
  assert (Hr : session (W := Disk) home
                 (set_aliases {[ "ll" := "ls" ]}
                    (set_command_history ["alias ll ls"] (new_console home)))).
  { eapply (session_turn home (new_console home) sample_disk 1 "  alias ll ls ");
      [constructor | reflexivity | vm_compute; reflexivity]. }
  split; [exact Hr|]. split; [reflexivity|].
  apply (alias_table_holds_tokens home _ Hr).
Defined.

(** C9 as stated fails: [expr] hands its arguments to [eval], and the
    line below stores the two-word expansion [cd docs] under the name [x];
    the line [x] then changes the directory. *)
Lemma alias_table_counterexample :
  let c := set_aliases (<["x" := "cd docs"]> ∅)
             (set_command_history ["expr self.aliases.__setitem__('x','cd docs')"]
                (new_console home)) in
  repl_step 1 (new_console home) sample_disk "expr self.aliases.__setitem__('x','cd docs')"
    = Continue c sample_disk ["None"] /\
  reachable (W := Disk) home c /\
  aliases c !! "x" = Some "cd docs" /\
  is_token "cd docs" = false /\
  ~ alias_values_tokens (aliases c) /\
  execute_command 2 c sample_disk "x" = prints (set_current_dir "/docs" c) sample_disk [].
Proof.
  intros c.
  assert (Hstep : repl_step 1 (new_console home) sample_disk
                    "expr self.aliases.__setitem__('x','cd docs')"
                  = Continue c sample_disk ["None"]) by (vm_compute; reflexivity).
  split; [exact Hstep|]. split.
  { eapply reachable_turn; [constructor | exact Hstep]. }
  split; [reflexivity|]. split; [reflexivity|]. split; [|vm_compute; reflexivity].
  intros Ht. specialize (Ht "x" "cd docs" eq_refl). discriminate Ht.
Qed.

Lemma alias_expansion_witness :
  let c := set_aliases (<["go" := "cd"]> ∅) (new_console home) in
  alias_values_tokens (aliases c) /\
  NoDup (alias_chain (S (size (aliases c))) (aliases c) "go docs") /\
  alias_expanded 1 (aliases c) "go docs" = "cd docs" /\
  execute_command 2 c sample_disk "go docs" = execute_command 1 c sample_disk "cd docs".
Proof.
  intros c.
  assert (Ht : alias_values_tokens (aliases c)).
  { apply tokens_insert; [apply tokens_empty | reflexivity]. }
  assert (Hnd : NoDup (alias_chain (S (size (aliases c))) (aliases c) "go docs")).
  { vm_compute. apply NoDup_singleton. }
  split; [exact Ht|]. split; [exact Hnd|]. split; [reflexivity|].
  destruct (proj1 (alias_expansion_is_cut_by_the_interpreter 2 c sample_disk "go docs" Ht) Hnd)
    as (_ & _ & Hrun).
  destruct Hrun as (_ & _ & _ & Hr); [vm_compute; lia|].
  apply Hr. reflexivity.
Defined.

(** C2 as stated fails: with the alias [a] standing for [a], the line [a]
    has a cyclic chain.  No cycle is detected or reported: on every host
    and with any number of calls allowed, the expansion goes on until the
    interpreter stops it; the console and the world are left as they are,
    and every line printed is the general message of an [except] clause
    about the expansion of the line, with the text of an exception the
    interpreter raised for want of room. *)
Lemma alias_cycle_counterexample :
  let c := set_aliases (<["a" := "a"]> ∅) (new_console home) in
  (forall str : PyStr, alias_chain 2 (aliases c) "a" = ["a"; "a"]) /\
  forall (W : Type) (host : Host W) (str : PyStr) (depth : nat) (w : W),
    let r := execute_command depth c w "a" in
    console r = c /\ world r = w /\
    Forall (fun line => exists e,
              line = "执行命令 'a ' 时发生错误：" +:+ exn_text e /\ from_interpreter w e)
           (output r) /\
    (raised r = None -> output r <> []).
Proof.
  intros c.
  assert (Hl : forall str : PyStr, lower "a" = "a").
  { intros str. rewrite lower_ascii; reflexivity. }
  assert (He : forall (str : PyStr) command, command = "a" \/ command = "a " ->
            alias_expand (aliases c) command = Some ("a", "a ")).
  { intros str command [-> | ->]; unfold alias_expand.
    - change (split "a") with ["a"]. cbv iota. rewrite Hl. reflexivity.
    - change (split "a ") with ["a"]. cbv iota. rewrite Hl. reflexivity. }
  assert (Hchain : forall (str : PyStr) n command, command = "a" \/ command = "a " ->
            length (alias_chain n (aliases c) command) = n).
  { intros str n. induction n as [|n IH]; intros command Hc; [reflexivity|].
    rewrite alias_chain_S, (He str command Hc). simpl. f_equal. apply IH. right. reflexivity. }
  assert (Hexp : forall (str : PyStr) k command, command = "a" \/ command = "a " ->
            alias_expanded (S k) (aliases c) command = "a ").
  { intros str k. induction k as [|k IH]; intros command Hc;
      rewrite alias_expanded_S, (He str command Hc); [reflexivity|].
    apply IH. right. reflexivity. }
  split.
  - intros str. rewrite alias_chain_S, (He str "a" (or_introl eq_refl)).
    rewrite alias_chain_S, (He str "a " (or_intror eq_refl)). reflexivity.
  - intros W host str depth w r. subst r.
    destruct (alias_chain_runs depth c w "a") as (Hc & Hw & Hout & Hne & _).
    { apply Hchain. left. reflexivity. }
    split; [exact Hc|]. split; [exact Hw|]. split; [|exact Hne].
    eapply Forall_impl; [exact Hout|]. intros line (k & e & Hline & Hint).
    exists e. rewrite (Hexp str k "a" (or_introl eq_refl)) in Hline.
    injection Hline as ->. auto.
Qed.

(** * Paths and the current directory *)

Lemma segments_from_slash a : forall cur b,
  segments_from cur (a +:+ String "/" b) = segments_from cur a ++ segments_from "" b.
Proof.
  induction a as [|c a IH]; intros cur b.
  - reflexivity.
  - rewrite append_cons. simpl. destruct (Ascii.eqb c "/"); simpl; rewrite IH; reflexivity.
Qed.

Lemma ends_with_slash_split s :
  ends_with_slash s = true -> exists s', s = s' +:+ "/".
Proof.
  induction s as [|c s IH]; [discriminate|].
  destruct s as [|c' s].
  - simpl. intros ->%Ascii.eqb_eq. exists "". reflexivity.
  - intros Hs. destruct (IH Hs) as [s' ->]. exists (String c s'). reflexivity.
Qed.

Lemma lstrip_slash_relative s : starts_with_slash (lstrip_slash s) = false.
Proof.
  induction s as [|c s IH]; [reflexivity|].
  simpl. destruct (Ascii.eqb c "/") eqn:Hc; [exact IH|]. simpl. exact Hc.
Qed.

Lemma walk_app stack segs1 segs2 :
  walk stack (segs1 ++ segs2) = walk (walk stack segs1) segs2.
Proof. apply fold_left_app. Qed.

(** The operating system walks [_full_path] by walking the root and then
    the path, whose leading slashes are gone. *)
Lemma full_path_walk root path :
  walk [] (segments (_full_path root path)) =
  walk (walk [] (segments root)) (segments (lstrip_slash path)).
Proof.
  unfold _full_path, path_join. rewrite lstrip_slash_relative.
  destruct (String.eqb_spec root "") as [->|Hne]; [reflexivity|].
  simpl. destruct (ends_with_slash root) eqn:He.
  - apply ends_with_slash_split in He as [r ->].
    rewrite append_assoc. change ("/" +:+ lstrip_slash path) with (String "/" (lstrip_slash path)).
    unfold segments. rewrite !segments_from_slash, !walk_app. reflexivity.
  - change ("/" +:+ lstrip_slash path) with (String "/" (lstrip_slash path)).
    unfold segments. rewrite segments_from_slash, walk_app. reflexivity.
Qed.

(** The text of the resolved path always starts with the text of the root. *)
Lemma full_path_text root path : exists rest, _full_path root path = root +:+ rest.
Proof.
  unfold _full_path, path_join. rewrite lstrip_slash_relative.
  destruct (String.eqb root "" || ends_with_slash root); eauto.
Qed.

Lemma stays_below_walk segs : forall d extra base,
  length extra = d -> stays_below d segs = true ->
  exists extra', walk (extra ++ base) segs = extra' ++ base.
Proof.
  induction segs as [|seg segs IH]; intros d extra base Hd Hs; [exists extra; reflexivity|].
  simpl in Hs. unfold walk. simpl. unfold walk_step at 2.
  destruct (String.eqb seg "" || String.eqb seg ".").
  - eapply IH; eassumption.
  - destruct (String.eqb seg "..").
    + destruct d as [|d]; [discriminate|].
      destruct extra as [|top extra]; [discriminate|].
      simpl. apply (IH d); [simpl in Hd; lia | exact Hs].
    + apply (IH (S d) (seg :: extra) base); [simpl; lia | exact Hs].
Qed.

Lemma is_prefix_of_app l k : is_prefix_of l (l ++ k) = true.
Proof.
  induction l as [|x l IH]; [reflexivity|].
  simpl. rewrite String.eqb_refl. exact IH.
Qed.

(** The joined path is put behind the root as it is. *)
Lemma full_path_keeps root path :
  exists sep,
    (sep = "" \/ sep = "/") /\
    (sep = "" <-> root = "" \/ ends_with_slash root = true) /\
    _full_path root path = root +:+ sep +:+ lstrip_slash path.
Proof.
  unfold _full_path, path_join. rewrite lstrip_slash_relative.
  destruct (String.eqb_spec root "") as [->|Hne]; simpl.
  - exists "". split; [left; reflexivity|]. split; [|reflexivity]. split; auto.
  - destruct (ends_with_slash root) eqn:He.
    + exists "". split; [left; reflexivity|]. split; [|reflexivity]. split; auto.
    + exists "/". split; [right; reflexivity|]. split; [|reflexivity].
      split; [discriminate|]. intros [?|?]; congruence.
Qed.

Lemma full_path_segments root path :
  exists before, segments (_full_path root path) = before ++ segments (lstrip_slash path).
Proof.
  unfold _full_path, path_join. rewrite lstrip_slash_relative.
  destruct (String.eqb_spec root "") as [->|Hne]; [exists []; reflexivity|].
  simpl. destruct (ends_with_slash root) eqn:He.
  - apply ends_with_slash_split in He as [r ->].
    rewrite append_assoc. change ("/" +:+ lstrip_slash path) with (String "/" (lstrip_slash path)).
    unfold segments. rewrite segments_from_slash. eauto.
  - change ("/" +:+ lstrip_slash path) with (String "/" (lstrip_slash path)).
    unfold segments. rewrite segments_from_slash. eauto.
Qed.

(** C1 (as amended): [_full_path] puts the text of the root, and a slash
    when the root does not end with one, in front of the joined path
    without its leading slashes; the segments of that path, [.] and [..]
    among them, are the last segments of the result as they are.  When the
    [..] segments of that path never outnumber the segments before them,
    the result denotes the root directory or a directory below it. *)
Theorem resolve_under_root_without_climbing (root current user : string) :
  let joined := lstrip_slash (path_join current user) in
  (exists sep,
     (sep = "" \/ sep = "/") /\
     (sep = "" <-> root = "" \/ ends_with_slash root = true) /\
     resolve root current user = root +:+ sep +:+ joined) /\
  (exists before, segments (resolve root current user) = before ++ segments joined) /\
  (stays_inside joined = true -> under_root root (resolve root current user) = true).
Proof.
  intros joined. split; [apply full_path_keeps|]. split; [apply full_path_segments|].
  intros Hs. unfold under_root, denotes, resolve. rewrite full_path_walk.
  destruct (stays_below_walk _ 0 [] (walk [] (segments root)) eq_refl Hs) as [extra He].
  simpl in He. fold joined. rewrite He, rev_app_distr. apply is_prefix_of_app.
Qed.

Lemma resolve_under_root_witness :
  stays_inside (lstrip_slash (path_join "/docs" "a/../../img")) = true /\
  resolve "/home/gtos" "/docs" "a/../../img" = "/home/gtos/docs/a/../../img" /\
  under_root "/home/gtos" (resolve "/home/gtos" "/docs" "a/../../img") = true.
Proof.
  split; [reflexivity|]. split; [reflexivity|].
  exact (proj2 (proj2 (resolve_under_root_without_climbing "/home/gtos" "/docs" "a/../../img"))
           eq_refl).
Defined.

(** C1 as stated fails: from the current directory [/], the user path
    [..] resolves to the parent of the root. *)
Lemma resolve_escapes_root_counterexample :
  resolve "/home/gtos" "/" ".." = "/home/gtos/.." /\
  denotes (resolve "/home/gtos" "/" "..") = ["home"] /\
  under_root "/home/gtos" (resolve "/home/gtos" "/" "..") = false.
Proof. repeat split. Qed.

Section ChangeDirectory.
Context {W : Type} {host : Host W} {str : PyStr}.

(** C8 (as amended): [cd] with an argument sets the current directory to
    the joined path, and prints nothing, exactly when the path it resolves
    to is an existing directory that [os.chdir] enters.  When the path is
    no existing directory, the console is left as it is and the message
    that the directory was not found is printed.  When the directory exists
    and [os.chdir] raises, the console is left as it is too, nothing is
    printed, and the exception leaves the handler. *)
Theorem cd_updates_iff_directory_entered
    (c : Console) (w : W) (arg : string) (rest : list string) :
  let target := path_join (current_dir c) arg in
  let full := resolve (root_dir (file_system c)) (current_dir c) arg in
  let r := cd (arg :: rest) c w in
  (forall w', isdir w full = true -> chdir full w = inl w' ->
     current_dir (console r) = target /\ file_system (console r) = file_system c /\
     command_history (console r) = command_history c /\
     aliases (console r) = aliases c /\ environment (console r) = environment c /\
     world r = w' /\ output r = [] /\ raised r = None) /\
  (isdir w full = false ->
     console r = c /\ world r = w /\ output r = ["未找到目录"] /\ raised r = None) /\
  (forall e, isdir w full = true -> chdir full w = inr e ->
     console r = c /\ world r = w /\ output r = [] /\ raised r = Some e) /\
  (output r = [] /\ raised r = None <->
   isdir w full = true /\ exists w', chdir full w = inl w').
Proof.
  intros target full r. subst target full r. unfold cd, change_dir, resolve.
  destruct (isdir w _) eqn:Hd; [destruct (chdir _ w) as [w1|e1] eqn:Hc|]; simpl.
  - split; [intros w' _ [= <-]; repeat split|]. split; [discriminate|].
    split; [intros e _ [=]|]. split; [eauto | auto].
  - split; [intros w' _ [=]|]. split; [discriminate|].
    split; [intros e _ [= <-]; repeat split|].
    split; [intros [_ [=]] | intros [_ [w' [=]]]].
  - split; [discriminate|]. split; [intros _; repeat split|].
    split; [discriminate|]. split; [intros [[=] _] | intros [[=] _]].
Qed.

Lemma lower_cd : lower "cd" = "cd".
Proof. rewrite lower_ascii; reflexivity. Qed.

(** The line [cd arg] typed at the prompt, when [cd] is not an alias,
    calls the handler. *)
Lemma cd_from_the_prompt (depth : nat) (c : Console) (w : W) (arg : string) :
  is_token arg = true -> aliases c !! "cd" = None ->
  execute_command (S depth) c w ("cd " +:+ arg)
  = handle (S depth) ("cd " +:+ arg) (cd [arg] c w).
Proof.
  intros Harg Hcd. rewrite execute_command_eq.
  change ("cd " +:+ arg) with ("cd" +:+ " " +:+ arg).
  rewrite split_token_space by reflexivity. rewrite split_token by exact Harg.
  rewrite lower_cd, Hcd. reflexivity.
Qed.

End ChangeDirectory.

Lemma cd_updates_witness :
  isdir sample_disk (resolve "/home/gtos" "/" "docs") = true /\
  chdir (resolve "/home/gtos" "/" "docs") sample_disk = inl sample_disk /\
  current_dir (console (cd ["docs"] (new_console home) sample_disk)) = "/docs".
Proof.
  assert (Hd : isdir sample_disk (resolve "/home/gtos" "/" "docs") = true) by reflexivity.
  assert (Hc : chdir (resolve "/home/gtos" "/" "docs") sample_disk = inl sample_disk)
    by reflexivity.
  split; [exact Hd|]. split; [exact Hc|].
  exact (proj1 (proj1 (cd_updates_iff_directory_entered (new_console home) sample_disk
                         "docs" []) sample_disk Hd Hc)).
Defined.

(** C8 as stated fails: the directory [vault] exists and cannot be
    entered.  [cd vault] neither sets the current directory nor prints
    that the directory was not found: the [OSError] of [os.chdir] is what
    [execute_command] reports. *)
Lemma cd_locked_directory_counterexample :
  isdir demo_disk (resolve "/home/gtos" "/" "vault") = true /\
  current_dir (console (cd ["vault"] (new_console home) demo_disk)) = "/" /\
  path_join "/" "vault" = "/vault" /\
  output (cd ["vault"] (new_console home) demo_disk) = [] /\
  execute_command 1 (new_console home) demo_disk "cd vault"
    = prints (new_console home) demo_disk
        ["执行命令 'cd vault' 时发生错误：[Errno 13] Permission denied: '/home/gtos/vault'"].
Proof. repeat split. Qed.


(** * The registry and its descriptions *)

(** What does hold between the three tables: [help_text] and [man_pages]
    have the same keys, and each of them is a registered command. *)
Lemma descriptions_are_registered :
  keys help_text = keys man_pages /\
  forallb (fun key => mem key commands) (keys help_text) = true.
Proof. split; vm_compute; reflexivity. Qed.

(** C7 fails on the code: [export] and [help] are registered and looked up
    by [execute_command], and neither has an entry in [help_text] or in
    [man_pages]; they are the only two. *)
Theorem export_and_help_lack_descriptions :
  mem "export" commands = true /\ mem "help" commands = true /\
  table_get "export" help_text = None /\ table_get "export" man_pages = None /\
  table_get "help" help_text = None /\ table_get "help" man_pages = None /\
  List.filter (fun cmd => negb (mem cmd (keys help_text))) commands = ["export"; "help"] /\
  List.filter (fun cmd => negb (mem cmd (keys man_pages))) commands = ["export"; "help"] /\
  execute_command 1 (new_console home) sample_disk "help export"
    = prints (new_console home) sample_disk ["未找到命令 'export' 的帮助信息"] /\
  execute_command 1 (new_console home) sample_disk "man help"
    = prints (new_console home) sample_disk ["未找到命令 'help' 的手册"].
Proof. repeat split; vm_compute; reflexivity. Qed.

(** * cksum *)

(** On a file that holds at least one byte the loop looks up the table
    that does not exist. *)
Lemma cksum_bytes_nonempty byte rest :
  cksum_bytes (byte :: rest) = inr (NameError "crc32_table").
Proof. reflexivity. Qed.

Lemma cksum_nonempty_file {W : Type} {host : Host W}
    (c : Console) (w : W) (arg : string) (rest : list string) byte content :
  read_file w (path_join (current_dir c) arg) = inl (String byte content) ->
  output (cksum (arg :: rest) c w) = [] /\
  raised (cksum (arg :: rest) c w) = Some (NameError "crc32_table").
Proof. intros Hr. unfold cksum. rewrite Hr. split; reflexivity. Qed.

(** C3 fails on the code: on the readable file [byte], which holds the one
    byte 97, [cksum] prints no checksum, size or name; the [NameError] of
    the missing table is what [execute_command] reports. *)
Theorem cksum_raises_name_error :
  read_file sample_disk (path_join "/" "byte") = inl "a" /\
  cksum ["byte"] (new_console home) sample_disk =
    {| console := new_console home; world := sample_disk; output := [];
       raised := Some (NameError "crc32_table") |} /\
  execute_command 1 (new_console home) sample_disk "cksum byte"
    = prints (new_console home) sample_disk
        ["执行命令 'cksum byte' 时发生错误：name 'crc32_table' is not defined"].
Proof. repeat split. Qed.

(** * uniq *)

Lemma uniq_loop_kept lines : forall unique_lines,
  map strip unique_lines ++ uniq_loop unique_lines lines =
  map strip (uniq_kept unique_lines lines).
Proof.
  induction lines as [|line lines IH]; intros unique_lines; simpl.
  - apply app_nil_r.
  - destruct (mem line unique_lines); [apply IH|].
    rewrite <- IH, map_app, <- app_assoc. reflexivity.
Qed.

(** [uniq] prints, stripped, the lines it has kept. *)
Lemma uniq_lines_kept lines : uniq_lines lines = map strip (uniq_kept [] lines).
Proof. unfold uniq_lines. rewrite <- uniq_loop_kept. reflexivity. Qed.

Lemma mem_spec x l : mem x l = true <-> x ∈ l.
Proof.
  unfold mem. rewrite existsb_exists. split.
  - intros (y & Hy & ->%String.eqb_eq). apply list_elem_of_In, Hy.
  - intros Hx. exists x. split; [apply list_elem_of_In, Hx | apply String.eqb_refl].
Qed.

Lemma mem_false x l : mem x l = false <-> x ∉ l.
Proof. rewrite <- mem_spec. destruct (mem x l); split; congruence. Qed.

(** The lines kept are the lines of the file as they were read, each once,
    in the order of their first occurrence among these. *)
Lemma uniq_kept_spec lines : forall unique_lines,
  NoDup unique_lines ->
  NoDup (uniq_kept unique_lines lines) /\
  (forall x, x ∈ uniq_kept unique_lines lines <-> x ∈ unique_lines \/ x ∈ lines) /\
  exists new, uniq_kept unique_lines lines = unique_lines ++ new.
Proof.
  induction lines as [|line lines IH]; intros unique_lines Hnd; simpl.
  - split; [exact Hnd|]. split; [|exists []; symmetry; apply app_nil_r].
    intros x. rewrite elem_of_nil. tauto.
  - destruct (mem line unique_lines) eqn:Hm.
    + apply mem_spec in Hm. destruct (IH unique_lines Hnd) as (H1 & H2 & H3).
      split; [exact H1|]. split; [|exact H3].
      intros x. rewrite H2, elem_of_cons. split; [tauto|].
      intros [?|[->|?]]; auto.
    + apply mem_false in Hm.
      destruct (IH (unique_lines ++ [line])) as (H1 & H2 & [new H3]).
      { apply NoDup_app. split; [exact Hnd|]. split; [|apply NoDup_singleton].
        intros x Hx ->%list_elem_of_singleton. contradiction. }
      split; [exact H1|]. split.
      * intros x. rewrite H2, elem_of_app, list_elem_of_singleton, elem_of_cons. tauto.
      * exists (line :: new). rewrite H3, <- app_assoc. reflexivity.
Qed.

Lemma uniq_loop_length lines : forall unique_lines,
  length (uniq_loop unique_lines lines) <= length lines.
Proof.
  induction lines as [|line lines IH]; intros unique_lines; simpl; [lia|].
  destruct (mem line unique_lines); simpl; [specialize (IH unique_lines) | specialize (IH (unique_lines ++ [line]))]; lia.
Qed.

Lemma filter_filter_not_mem acc x l :
  List.filter (fun z => negb (mem z (acc ++ [x]))) l =
  List.filter (fun z => negb (mem z acc)) (List.filter (fun z => negb (String.eqb z x)) l).
Proof.
  induction l as [|y l IH]; [reflexivity|].
  simpl. unfold mem at 1. rewrite existsb_app. simpl. rewrite orb_false_r.
  fold (mem y acc). destruct (String.eqb y x); simpl.
  - rewrite orb_true_r. exact IH.
  - rewrite orb_false_r. destruct (mem y acc); simpl; [exact IH | f_equal; exact IH].
Qed.

Lemma filter_not_mem_seen acc x l :
  mem x acc = true ->
  List.filter (fun z => negb (mem z acc)) (List.filter (fun z => negb (String.eqb z x)) l) =
  List.filter (fun z => negb (mem z acc)) l.
Proof.
  intros Hx. induction l as [|y l IH]; [reflexivity|].
  simpl. destruct (String.eqb_spec y x) as [->|Hne]; simpl.
  - rewrite Hx. exact IH.
  - destruct (mem y acc); simpl; [exact IH | f_equal; exact IH].
Qed.

(** The loop keeps the first occurrences. *)
Lemma uniq_kept_first_occurrences lines : forall unique_lines,
  uniq_kept unique_lines lines =
  unique_lines ++ List.filter (fun z => negb (mem z unique_lines)) (first_occurrences lines).
Proof.
  induction lines as [|line lines IH]; intros unique_lines; simpl.
  - symmetry. apply app_nil_r.
  - destruct (mem line unique_lines) eqn:Hm; simpl; rewrite IH.
    + rewrite filter_not_mem_seen by exact Hm. reflexivity.
    + rewrite <- app_assoc, filter_filter_not_mem. reflexivity.
Qed.

Lemma first_occurrences_kept lines : first_occurrences lines = uniq_kept [] lines.
Proof.
  rewrite uniq_kept_first_occurrences. simpl.
  induction (first_occurrences lines) as [|x l IH]; [reflexivity|].
  simpl. f_equal. exact IH.
Qed.

(** C5 (as amended): the lines are compared as they were read and printed
    stripped.  For every list of input lines, [uniq] prints the stripped
    form of each distinct line once, in the order of the first occurrences
    across the whole file, and no more lines than it was given. *)
Theorem uniq_prints_first_occurrences_stripped (lines : list string) :
  uniq_lines lines = map strip (first_occurrences lines) /\
  NoDup (first_occurrences lines) /\
  (forall x, x ∈ first_occurrences lines <-> x ∈ lines) /\
  length (uniq_lines lines) = length (first_occurrences lines) /\
  length (uniq_lines lines) <= length lines.
Proof.
  rewrite first_occurrences_kept.
  destruct (uniq_kept_spec lines [] (NoDup_nil_2 (A := string))) as (Hnd & Hin & _).
  split; [apply uniq_lines_kept|]. split; [exact Hnd|]. split.
  - intros x. rewrite Hin, elem_of_nil. tauto.
  - split; [rewrite uniq_lines_kept; apply length_map | apply uniq_loop_length].
Qed.

(** C5 as stated fails: two lines that differ in white space around them
    are two lines for the comparison and one and the same line when
    printed, and so are a line and its repetition at the end of a file that
    has no final newline: [a] is printed twice. *)
Lemma uniq_prints_twice_counterexample :
  uniq_lines [String "a" (String LF ""); String " " (String "a" (String LF ""))] = ["a"; "a"] /\
  readlines (String "a" (String LF "a")) = [String "a" (String LF ""); "a"] /\
  uniq_lines [String "a" (String LF ""); "a"] = ["a"; "a"] /\
  execute_command 1 (new_console home) sample_disk "uniq one"
    = prints (new_console home) sample_disk ["a"; "a"].
Proof. repeat split. Qed.

(** * The order of strings *)


Lemma ltb_asym x y : String.ltb x y = true -> String.ltb y x = false.
Proof.
  unfold String.ltb. rewrite (String.compare_antisym y x).
  destruct (String.compare x y); simpl; congruence.
Qed.

Lemma ltb_irrefl x : String.ltb x x = false.
Proof.
  destruct (String.ltb x x) eqn:H; [|reflexivity].
  pose proof (ltb_asym _ _ H). congruence.
Qed.

Lemma ltb_total x y : String.ltb x y = false -> String.ltb y x = false -> x = y.
Proof.
  unfold String.ltb. rewrite (String.compare_antisym y x).
  destruct (String.compare x y) eqn:Hc; simpl; try congruence.
  intros _ _. apply String.compare_eq_iff, Hc.
Qed.

Lemma ltb_leb x y : String.ltb x y = true -> String.leb x y = true.
Proof. unfold String.ltb, String.leb. destruct (String.compare x y); congruence. Qed.


(** * sorted *)









(** * comm *)





Lemma comm_merge_nil_l lines2 : comm_merge [] lines2 = map (pair Only2) lines2.
Proof. destruct lines2; reflexivity. Qed.

Lemma comm_merge_nil_r x lines1 : comm_merge (x :: lines1) [] = map (pair Only1) (x :: lines1).
Proof. reflexivity. Qed.

Lemma comm_merge_cons x rest1 y rest2 :
  comm_merge (x :: rest1) (y :: rest2) =
  if String.ltb x y then (Only1, x) :: comm_merge rest1 (y :: rest2)
  else if String.ltb y x then (Only2, y) :: comm_merge (x :: rest1) rest2
  else (Both, x) :: comm_merge rest1 rest2.
Proof. reflexivity. Qed.









Lemma comm_print_prefix line :
  comm_print (Only1, line) = "< " +:+ line /\
  comm_print (Only2, line) = "> " +:+ line /\
  comm_print (Both, line) = "  " +:+ line.
Proof. repeat split. Qed.







(** * tsort *)

(** ** Building the graph *)

Lemma graph_get_snoc g u x : graph_get (g ++ [(u, ∅)]) x = graph_get g x.
Proof.
  induction g as [|[k s] g IH]; simpl.
  - destruct (String.eqb u x); reflexivity.
  - destruct (String.eqb k x); [reflexivity | exact IH].
Qed.

Lemma graph_get_declare g u x : graph_get (graph_declare g u) x = graph_get g x.
Proof. unfold graph_declare. destruct (mem u (map fst g)); [reflexivity | apply graph_get_snoc]. Qed.

Lemma keys_declare g u x : x ∈ map fst (graph_declare g u) <-> x ∈ map fst g \/ x = u.
Proof.
  unfold graph_declare. destruct (mem u (map fst g)) eqn:Hm.
  - apply mem_spec in Hm. split; [tauto | intros [?| ->]; assumption].
  - rewrite map_app, elem_of_app. simpl. rewrite list_elem_of_singleton. reflexivity.
Qed.

Lemma keys_add g u v : map fst (graph_add g u v) = map fst g.
Proof.
  unfold graph_add. induction g as [|[k s] g IH]; [reflexivity|].
  simpl. rewrite IH. destruct (String.eqb k u); reflexivity.
Qed.

Lemma graph_get_add g u v x y :
  y ∈ graph_get (graph_add g u v) x <->
  y ∈ graph_get g x \/ (x = u /\ y = v /\ u ∈ map fst g).
Proof.
  unfold graph_add. induction g as [|[k s] g IH]; simpl.
  - rewrite elem_of_empty, elem_of_nil. tauto.
  - rewrite elem_of_cons.
    destruct (String.eqb_spec k u) as [->|Hku]; simpl.
    + destruct (String.eqb_spec u x) as [->|Hux].
      * rewrite elem_of_union, elem_of_singleton. tauto.
      * rewrite IH. split; [intros [?|(-> & _)]; [tauto | congruence] | intros [?|(-> & _)]; [tauto | congruence]].
    + destruct (String.eqb_spec k x) as [->|Hkx].
      * split; [tauto | intros [?|(-> & _)]; [assumption | congruence]].
      * rewrite IH. split; [intros [?|(? & ? & ?)]; tauto | intros [?|(? & ? & [?|?])]; [tauto | congruence | tauto]].
Qed.

Lemma edge_add_edge g u v x y :
  edge (add_edge g u v) x y <-> edge g x y \/ (x = u /\ y = v).
Proof.
  unfold edge, add_edge. rewrite graph_get_add, !graph_get_declare, !keys_declare. tauto.
Qed.

Lemma keys_add_edge g u v x :
  x ∈ map fst (add_edge g u v) <-> x ∈ map fst g \/ x = u \/ x = v.
Proof. unfold add_edge. rewrite keys_add, !keys_declare. tauto. Qed.

(** When every line holds two tokens, the graph is built, its edges are
    the lines and its nodes the tokens. *)
Lemma build_graph_spec edges : forall g,
  Forall (fun e => length e = 2) edges ->
  exists g', build_graph g edges = inl g' /\
    (forall x y, edge g' x y <-> edge g x y \/ [x; y] ∈ edges) /\
    (forall x, x ∈ map fst g' <-> x ∈ map fst g \/ exists e, e ∈ edges /\ x ∈ e).
Proof.
  induction edges as [|e edges IH]; intros g Hall.
  - exists g. split; [reflexivity|]. split; intros; rewrite ?elem_of_nil.
    + tauto.
    + split; [tauto | intros [?|(e & He & _)]; [assumption | inversion He]].
  - apply Forall_cons in Hall as [He Hall].
    destruct e as [|u [|v [|]]]; try discriminate.
    destruct (IH (add_edge g u v) Hall) as (g' & Hb & Hedge & Hkeys).
    exists g'. split; [exact Hb|]. split.
    + intros x y. rewrite Hedge, edge_add_edge, elem_of_cons.
      split; [intros [[?|[-> ->]]|?]; auto | intros [?|[[= -> ->]|?]]; auto].
    + intros x. rewrite Hkeys, keys_add_edge. split.
      * intros [[?|[->| ->]]|(e & Hin & Hx)]; auto.
        -- right. exists [u; v]. split; [left | left].
        -- right. exists [u; v]. split; [left | right; left].
        -- right. exists e. split; [right; exact Hin | exact Hx].
      * intros [?|(e & [->|Hin]%elem_of_cons & Hx)]; auto.
        -- apply elem_of_cons in Hx as [->|Hx]; auto.
           apply list_elem_of_singleton in Hx as ->. auto.
        -- right. exists e. auto.
Qed.

(** ** The order of printing *)

Lemma before_app_r x y l k : before x y l -> before x y (l ++ k).
Proof.
  intros (l1 & l2 & l3 & ->). exists l1, l2, (l3 ++ k).
  rewrite <- !app_assoc. simpl. rewrite <- app_assoc. reflexivity.
Qed.

Lemma before_snoc x y l : x ∈ l -> before x y (l ++ [y]).
Proof.
  intros (l1 & l2 & ->)%list_elem_of_split. exists l1, l2, [].
  rewrite <- app_assoc. reflexivity.
Qed.

Lemma before_rev x y l : before x y l -> before y x (rev l).
Proof.
  intros (l1 & l2 & l3 & ->). exists (rev l3), (rev l2), (rev l1).
  rewrite rev_app_distr. simpl. rewrite rev_app_distr. simpl.
  rewrite <- !app_assoc. reflexivity.
Qed.

Lemma size_list_to_set_le (l : list string) :
  size (list_to_set l : gset string) <= length l.
Proof.
  change (size (list_to_set l : gset string))
    with (length (elements (list_to_set l : gset string))).
  apply submseteq_length, NoDup_submseteq; [apply NoDup_elements|].
  intros x Hx%elem_of_elements%elem_of_list_to_set. exact Hx.
Qed.

Section Traversal.
Context {W : Type} {host : Host W}.
Variable g : graph.

Lemma dfs_S depth node (st : gset string * list string) :
  dfs (S depth) g node st =
  if decide (node ∈ st.1) then Some st
  else
    match fold_left (fun acc neighbor => acc ≫= dfs depth g neighbor)
                    (set_iter (graph_get g node)) (Some ({[node]} ∪ st.1, st.2)) with
    | Some st' => Some (st'.1, st'.2 ++ [node])
    | None => None
    end.
Proof. reflexivity. Qed.

Lemma path_snoc x y z : path g x y -> edge g y z -> path g x z.
Proof.
  induction 1 as [u v Huv|u v w Huv _ IH]; intros Hz.
  - eapply path_cons; [exact Huv | apply path_one, Hz].
  - eapply path_cons; [exact Huv | apply IH, Hz].
Qed.

Lemma unvisited_mono (vis vis' : gset string) :
  vis ⊆ vis' -> size (nodes g ∖ vis') <= size (nodes g ∖ vis).
Proof. intros Hsub. apply subseteq_size. set_solver. Qed.

Lemma unvisited_less node (vis : gset string) :
  node ∈ nodes g -> node ∉ vis ->
  size (nodes g ∖ ({[node]} ∪ vis)) < size (nodes g ∖ vis).
Proof.
  intros Hn Hv. apply subset_size. split; [set_solver|].
  intros Hsub. specialize (Hsub node). set_solver.
Qed.

(** The loop over the successors of a node, or over all the nodes. *)
Lemma dfs_fold depth :
  dfs_spec depth g ->
  forall l (vis : gset string) (res : list string),
    (forall x, x ∈ l -> x ∈ nodes g) -> size (nodes g ∖ vis) < depth ->
    exists new,
      fold_left (fun acc neighbor => acc ≫= dfs depth g neighbor) l (Some (vis, res))
        = Some (vis ∪ list_to_set new, res ++ new) /\
      NoDup new /\
      (forall x, x ∈ new -> (x ∉ vis) /\ x ∈ nodes g) /\
      (forall x, x ∈ l -> x ∈ vis ∪ list_to_set new) /\
      (acyclic g -> list_to_set res ⊆ vis -> finished_in_order g res ->
       (forall x, x ∈ vis -> x ∉ res -> forall nb, nb ∈ l -> path g x nb) ->
       finished_in_order g (res ++ new) /\ forall nb, nb ∈ l -> nb ∈ res ++ new).
Proof.
  intros Hdfs. induction l as [|nb l IH]; intros vis res Hl Hdepth.
  - exists []. simpl. rewrite union_empty_r_L, app_nil_r.
    split; [reflexivity|]. split; [constructor|].
    split; [intros x Hx; inversion Hx|]. split; [intros x Hx; inversion Hx|].
    intros _ _ Hfio _. split; [exact Hfio | intros x Hx; inversion Hx].
  - destruct (Hdfs nb vis res) as (new1 & Hrun1 & Hnd1 & Hnew1 & Hnb & Hord1);
      [apply Hl; left | exact Hdepth |].
    destruct (IH (vis ∪ list_to_set new1) (res ++ new1))
      as (new2 & Hrun2 & Hnd2 & Hnew2 & Hl2 & Hord2).
    { intros x Hx. apply Hl. right. exact Hx. }
    { eapply Nat.le_lt_trans; [apply unvisited_mono|exact Hdepth]. set_solver. }
    exists (new1 ++ new2). split; [|split; [|split; [|split]]].
    + simpl. rewrite Hrun1, Hrun2, list_to_set_app_L, (assoc_L (∪)), app_assoc. reflexivity.
    + apply NoDup_app. split; [exact Hnd1|]. split; [|exact Hnd2].
      intros x Hx1 Hx2. apply Hnew2 in Hx2 as [Hx2 _]. apply Hx2. set_solver.
    + intros x [Hx|Hx]%elem_of_app; [apply Hnew1, Hx|].
      apply Hnew2 in Hx as [Hx Hn]. split; [set_solver | exact Hn].
    + intros x [->|Hx]%elem_of_cons; rewrite list_to_set_app_L; [set_solver|].
      specialize (Hl2 x Hx). set_solver.
    + intros Hac Hsub Hfio Hgray.
      destruct Hord1 as [Hfio1 Hnb1]; [exact Hac | exact Hsub | exact Hfio | |].
      { intros x Hx Hxr. apply (Hgray x Hx Hxr). left. }
      destruct Hord2 as [Hfio2 Hl2']; [exact Hac | | exact Hfio1 | |].
      { rewrite list_to_set_app_L. set_solver. }
      { intros x Hx Hxr nb' Hnb'. apply not_elem_of_app in Hxr as [Hxr Hxn].
        apply (Hgray x); [set_solver | exact Hxr | right; exact Hnb']. }
      rewrite app_assoc. split; [exact Hfio2|].
      intros nb' [->|Hnb']%elem_of_cons; [|apply Hl2', Hnb'].
      apply elem_of_app. left. exact Hnb1.
Qed.

(** Every call of [dfs] returns and does what [dfs_spec] says. *)
Lemma dfs_meets_spec : closed g -> forall depth, dfs_spec depth g.
Proof.
  intros Hcl. induction depth as [|depth IH]; intros node vis res Hnode Hdepth; [lia|].
  rewrite dfs_S. simpl fst. simpl snd.
  destruct (decide (node ∈ vis)) as [Hv|Hv].
  - exists []. simpl. rewrite union_empty_r_L, app_nil_r.
    split; [reflexivity|]. split; [constructor|].
    split; [intros x Hx; inversion Hx|]. split; [exact Hv|].
    intros Hac Hsub Hfio Hgray. split; [exact Hfio|].
    destruct (decide (node ∈ res)) as [Hr|Hr]; [exact Hr|].
    exfalso. apply (Hac node), Hgray; assumption.
  - destruct (dfs_fold depth IH (set_iter (graph_get g node)) ({[node]} ∪ vis) res)
      as (new & Hrun & Hnd & Hnew & Hl & Hord).
    { intros x Hx%set_iter_elem. apply (Hcl node x), Hx. }
    { pose proof (unvisited_less node vis Hnode Hv). lia. }
    exists (new ++ [node]). rewrite Hrun. simpl.
    assert (Hnn : node ∉ new).
    { intros Hn. apply Hnew in Hn as [Hn _]. set_solver. }
    split; [|split; [|split; [|split]]].
    + rewrite list_to_set_app_L, app_assoc. f_equal. f_equal. set_solver.
    + apply NoDup_app. split; [exact Hnd|]. split; [|apply NoDup_singleton].
      intros x Hx ->%list_elem_of_singleton. contradiction.
    + intros x [Hx|Hx%list_elem_of_singleton]%elem_of_app; [|subst x; split; assumption].
      apply Hnew in Hx as [Hx Hn]. split; [set_solver | exact Hn].
    + rewrite list_to_set_app_L. set_solver.
    + intros Hac Hsub Hfio Hgray.
      destruct Hord as [Hfio' Hnbs]; [exact Hac | set_solver | exact Hfio | |].
      { intros x Hx Hxr nb Hnb%set_iter_elem.
        apply elem_of_union in Hx as [Hx%elem_of_singleton|Hx].
        - subst x. apply path_one, Hnb.
        - eapply path_snoc; [apply Hgray; assumption | exact Hnb]. }
      rewrite app_assoc. split; [|apply elem_of_app; right; left].
      intros u v [Hu|Hu%list_elem_of_singleton]%elem_of_app Hedge.
      * apply before_app_r. eapply Hfio'; eassumption.
      * subst u. apply before_snoc, Hnbs, set_iter_elem, Hedge.
Qed.

(** With more calls allowed than the graph has nodes, the whole traversal
    returns; it puts every node into [result] once, and in order when the
    graph has no cycle. *)
Lemma dfs_all_spec depth :
  closed g -> length g < depth ->
  exists res, dfs_all depth g = Some (list_to_set res, res) /\
    NoDup res /\ (forall x, x ∈ res <-> x ∈ map fst g) /\
    (acyclic g -> finished_in_order g res).
Proof.
  intros Hcl Hdepth.
  destruct (dfs_fold depth (dfs_meets_spec Hcl _) (map fst g) ∅ [])
    as (new & Hrun & Hnd & Hnew & Hl & Hord).
  { intros x Hx. apply elem_of_list_to_set, Hx. }
  { eapply Nat.le_lt_trans; [apply subseteq_size|].
    - apply subseteq_difference_l. reflexivity.
    - unfold nodes. pose proof (size_list_to_set_le (map fst g)) as Hle.
      rewrite length_map in Hle. lia. }
  rewrite union_empty_l_L in Hrun. change ([] ++ new) with new in Hrun, Hord.
  exists new. split; [exact Hrun|]. split; [exact Hnd|]. split.
  - intros x. split.
    + intros [_ Hx]%Hnew. apply elem_of_list_to_set in Hx. exact Hx.
    + intros Hx%Hl. rewrite union_empty_l_L in Hx. apply elem_of_list_to_set in Hx. exact Hx.
  - intros Hac. apply Hord; [exact Hac | set_solver | |].
    + intros u v Hu. inversion Hu.
    + intros x Hx. set_solver.
Qed.

(** ** The room for calls *)

Lemma fold_dfs_None depth l :
  fold_left (fun acc neighbor => acc ≫= dfs depth g neighbor) l None = None.
Proof. induction l as [|x l IH]; [reflexivity | exact IH]. Qed.

Lemma fold_dfs_more depth :
  (forall node st st', dfs depth g node st = Some st' -> dfs (S depth) g node st = Some st') ->
  forall l acc st',
    fold_left (fun acc neighbor => acc ≫= dfs depth g neighbor) l acc = Some st' ->
    fold_left (fun acc neighbor => acc ≫= dfs (S depth) g neighbor) l acc = Some st'.
Proof.
  intros Hdfs. induction l as [|x l IH]; intros acc st' Hrun; [exact Hrun|].
  destruct acc as [st|]; [|rewrite fold_dfs_None in Hrun; discriminate].
  cbn [fold_left] in Hrun |- *. change (Some st ≫= dfs depth g x) with (dfs depth g x st) in Hrun.
  change (Some st ≫= dfs (S depth) g x) with (dfs (S depth) g x st).
  destruct (dfs depth g x st) as [st1|] eqn:Hx;
    [|rewrite fold_dfs_None in Hrun; discriminate].
  rewrite (Hdfs _ _ _ Hx). apply IH, Hrun.
Qed.

(** A call that returns with [depth] calls allowed returns the same with
    more. *)
Lemma dfs_more depth : forall node st st',
  dfs depth g node st = Some st' -> dfs (S depth) g node st = Some st'.
Proof.
  induction depth as [|depth IH]; intros node st st' Hrun; [discriminate|].
  rewrite dfs_S in Hrun. rewrite dfs_S.
  destruct (decide (node ∈ st.1)); [exact Hrun|].
  destruct (fold_left _ _ _) as [st1|] eqn:Hf in Hrun; [|discriminate].
  rewrite (fold_dfs_more depth IH _ _ _ Hf). exact Hrun.
Qed.

Lemma dfs_all_more depth st :
  dfs_all depth g = Some st -> dfs_all (S depth) g = Some st.
Proof. unfold dfs_all. apply fold_dfs_more, dfs_more. Qed.

Lemma dfs_all_le depth depth' st :
  depth <= depth' -> dfs_all depth g = Some st -> dfs_all depth' g = Some st.
Proof.
  induction 1 as [|depth' _ IH]; intros Hrun; [exact Hrun|].
  apply dfs_all_more, IH, Hrun.
Qed.

(** Whatever the room, the traversal gives the order it gives with room
    enough, or it is stopped by the interpreter. *)
Lemma tsort_order_cases depth :
  closed g ->
  tsort_order depth g = tsort_order (S (length g)) g \/ tsort_order depth g = None.
Proof.
  intros Hcl. unfold tsort_order.
  destruct (dfs_all depth g) as [st|] eqn:Hrun; [|right; reflexivity].
  left. destruct (Nat.le_gt_cases depth (S (length g))) as [Hle|Hgt].
  - rewrite (dfs_all_le _ _ _ Hle Hrun). reflexivity.
  - destruct (dfs_all_spec (S (length g)) Hcl) as (res & Hrun0 & _); [lia|].
    assert (Hle : S (length g) <= depth) by lia.
    rewrite (dfs_all_le _ _ _ Hle Hrun0) in Hrun. rewrite Hrun0. congruence.
Qed.

End Traversal.

Lemma NoDup_rev_list (l : list string) : NoDup l -> NoDup (rev l).
Proof. rewrite !NoDup_ListNoDup. apply List.NoDup_rev. Qed.

Lemma elem_of_rev_list (l : list string) x : x ∈ rev l <-> x ∈ l.
Proof. rewrite !list_elem_of_In. symmetry. apply in_rev. Qed.

Lemma length_graph_declare g u : length (graph_declare g u) <= S (length g).
Proof.
  unfold graph_declare. destruct (mem u (map fst g)); [lia|].
  rewrite length_app. simpl. lia.
Qed.

Lemma length_add_edge g u v : length (add_edge g u v) <= 2 + length g.
Proof.
  unfold add_edge, graph_add. rewrite length_map.
  pose proof (length_graph_declare (graph_declare g u) v).
  pose proof (length_graph_declare g u). lia.
Qed.

(** The graph has at most two nodes a line. *)
Lemma build_graph_length edges : forall g g',
  build_graph g edges = inl g' -> length g' <= length g + 2 * length edges.
Proof.
  induction edges as [|e edges IH]; intros g g' Hb.
  - injection Hb as <-. simpl. lia.
  - destruct e as [|u [|v [|]]]; try discriminate.
    apply IH in Hb. pose proof (length_add_edge g u v). simpl length. lia.
Qed.

(** C4 (as amended): for a file whose lines each hold two tokens, the
    graph of the lines has an order of all its nodes, each once, that
    [tsort] prints on one line whenever it prints; when the graph has no
    cycle, the node [u] of every edge from [u] to [v] comes before [v] in
    it.  [tsort] prints it when the interpreter allows more nested calls
    than the graph has nodes, which are at most two a line; otherwise the
    traversal may be stopped by the [RecursionError] of the interpreter,
    and nothing is printed then.  A cycle is not detected. *)
Theorem tsort_orders_a_dag {W : Type} {host : Host W}
    (c : Console) (w : W) (file : string) (rest : list string) (content : string) :
  read_file w (path_join (current_dir c) file) = inl content ->
  Forall (fun e => length e = 2) (tsort_edges (readlines content)) ->
  exists g order,
    build_graph [] (tsort_edges (readlines content)) = inl g /\
    length g <= 2 * length (readlines content) /\
    (forall u v, edge g u v <-> [u; v] ∈ tsort_edges (readlines content)) /\
    NoDup order /\
    (forall x, x ∈ order <-> exists e, e ∈ tsort_edges (readlines content) /\ x ∈ e) /\
    (acyclic g ->
     forall u v, [u; v] ∈ tsort_edges (readlines content) -> before u v order) /\
    forall depth,
      (length g < depth ->
       tsort depth (file :: rest) c w = prints c w [join " " order]) /\
      (tsort depth (file :: rest) c w = prints c w [join " " order] \/
       tsort depth (file :: rest) c w = raises c w (overflow w "dfs")).
Proof.
  intros Hread Hpairs.
  destruct (build_graph_spec _ [] Hpairs) as (g & Hbuild & Hedges & Hkeys).
  assert (Hedge : forall u v, edge g u v <-> [u; v] ∈ tsort_edges (readlines content)).
  { intros u v. rewrite Hedges. unfold edge. simpl. rewrite elem_of_empty. tauto. }
  assert (Hnode : forall x, x ∈ map fst g <->
                    exists e, e ∈ tsort_edges (readlines content) /\ x ∈ e).
  { intros x. rewrite Hkeys. simpl. rewrite elem_of_nil. tauto. }
  assert (Hcl : closed g).
  { intros u v Huv%Hedge. apply elem_of_list_to_set, Hnode.
    exists [u; v]. split; [exact Huv | right; left]. }
  destruct (dfs_all_spec g (S (length g)) Hcl) as (res & Hrun & Hnd & Hres & Hord); [lia|].
  assert (Horder : tsort_order (S (length g)) g = Some (rev res)).
  { unfold tsort_order. rewrite Hrun. reflexivity. }
  exists g, (rev res). split; [exact Hbuild|]. split.
  { apply build_graph_length in Hbuild. unfold tsort_edges in Hbuild.
    rewrite length_map in Hbuild. simpl in Hbuild. lia. }
  split; [exact Hedge|]. split; [apply NoDup_rev_list, Hnd|]. split.
  { intros x. rewrite elem_of_rev_list, Hres. apply Hnode. }
  split.
  { intros Hac u v Huv. apply before_rev, (Hord Hac).
    - apply Hres, Hnode. exists [u; v]. split; [exact Huv | left].
    - apply Hedge, Huv. }
  intros depth. unfold tsort. rewrite Hread, Hbuild. split.
  - intros Hdepth.
    destruct (dfs_all_spec g depth Hcl Hdepth) as (res' & Hrun' & _).
    destruct (tsort_order_cases g depth Hcl) as [Heq|Hnone].
    + rewrite Heq, Horder. reflexivity.
    + unfold tsort_order in Hnone. rewrite Hrun' in Hnone. discriminate.
  - destruct (tsort_order_cases g depth Hcl) as [Heq|Hnone].
    + left. rewrite Heq, Horder. reflexivity.
    + right. rewrite Hnone. reflexivity.
Qed.

Lemma tsort_orders_a_dag_witness :
  read_file sample_disk (path_join "/" "dag")
    = inl ("a b" +:+ String LF ("b c" +:+ String LF "a c")) /\
  Forall (fun e => length e = 2)
    (tsort_edges (readlines ("a b" +:+ String LF ("b c" +:+ String LF "a c")))) /\
  exists g (order : list string),
    build_graph [] (tsort_edges (readlines ("a b" +:+ String LF ("b c" +:+ String LF "a c"))))
      = inl g /\
    NoDup order /\
    tsort 4 ["dag"] (new_console home) sample_disk
      = prints (new_console home) sample_disk ["a b c"].
Proof.
  assert (Hpairs : Forall (fun e => length e = 2)
            (tsort_edges (readlines ("a b" +:+ String LF ("b c" +:+ String LF "a c"))))).
  { repeat constructor. }
  assert (Hread : read_file sample_disk (path_join "/" "dag")
                    = inl ("a b" +:+ String LF ("b c" +:+ String LF "a c"))).
  { reflexivity. }
  split; [exact Hread|]. split; [exact Hpairs|].
  destruct (tsort_orders_a_dag (new_console home) sample_disk "dag" []
              ("a b" +:+ String LF ("b c" +:+ String LF "a c")) Hread Hpairs)
    as (g & order & Hg & _ & _ & Hnd & _).
  exists g, order. split; [exact Hg|]. split; [exact Hnd|]. vm_compute. reflexivity.
Defined.

(** C4 as stated fails: the two lines of the file [pairs] make the cycle
    from [a] to [b] and back, and [tsort] prints the order [a b] without
    raising anything. *)
Lemma tsort_cycle_counterexample :
  exists g,
    build_graph [] (tsort_edges (readlines ("a b" +:+ String LF ("b a" +:+ String LF ""))))
      = inl g /\
    path g "a" "a" /\
    tsort 3 ["pairs"] (new_console home) sample_disk
      = prints (new_console home) sample_disk ["a b"] /\
    execute_command 4 (new_console home) sample_disk "tsort pairs"
      = prints (new_console home) sample_disk ["a b"].
Proof.
  exists [("a", {["b"]}); ("b", {["a"]})].
  split; [vm_compute; reflexivity|]. split.
  - apply (path_cons _ "a" "b" "a"); [|apply path_one]; vm_compute; reflexivity.
  - split; vm_compute; reflexivity.
Qed.
(** * More on the console state *)

Section ConsoleState.
Context {W : Type} {host : Host W} {str : PyStr}.

(** What the handlers that do not call [eval] leave alone. *)
Lemma call_frame depth cmd args (c : Console) (w : W) :
  mem cmd evaluating = false ->
  file_system (console (call depth cmd args c w)) = file_system c /\
  command_history (console (call depth cmd args c w)) = command_history c /\
  (current_dir (console (call depth cmd args c w)) <> current_dir c -> cmd = "cd") /\
  (environment (console (call depth cmd args c w)) <> environment c -> cmd = "export") /\
  (aliases (console (call depth cmd args c w)) <> aliases c ->
   cmd = "alias" \/ cmd = "unalias").
Proof.
  intros Hcmd. unfold call.
  destruct (String.eqb_spec cmd "alias") as [->|_].
  { unfold alias. destruct args as [|? [|? [|]]]; simpl; repeat split; tauto || auto. }
  destruct (String.eqb_spec cmd "unalias") as [->|_].
  { unfold unalias. destruct args as [|name ?]; [|destruct (aliases c !! name)];
      simpl; repeat split; tauto || auto. }
  destruct (String.eqb_spec cmd "export") as [->|_].
  { unfold export. destruct args as [|? [|? [|]]]; simpl; repeat split; tauto || auto. }
  destruct (String.eqb_spec cmd "cd") as [->|_].
  { unfold cd. destruct args; [|destruct (change_dir _ _ w) as [[[] ?]|]];
      simpl; repeat split; tauto || auto. }
  destruct (String.eqb cmd "help"); [rewrite help_console; repeat split; tauto|].
  destruct (String.eqb cmd "man"); [rewrite man_console; repeat split; tauto|].
  destruct (String.eqb cmd "uniq"); [rewrite uniq_console; repeat split; tauto|].
  destruct (String.eqb cmd "comm"); [rewrite comm_console; repeat split; tauto|].
  destruct (String.eqb cmd "cksum"); [rewrite cksum_console; repeat split; tauto|].
  destruct (String.eqb cmd "tsort"); [rewrite tsort_console; repeat split; tauto|].
  rewrite Hcmd. destruct (external cmd args c w) as [[? ?] ?]. simpl. repeat split; tauto.
Qed.

Lemma path_join_absolute cur arg :
  starts_with_slash cur = true -> starts_with_slash (path_join cur arg) = true.
Proof.
  intros Hc. unfold path_join. destruct (starts_with_slash arg) eqn:Ha; [exact Ha|].
  destruct cur as [|x cur]; [discriminate|].
  destruct (String.eqb (String x cur) "" || ends_with_slash (String x cur)); exact Hc.
Qed.

Lemma call_current_dir depth cmd args (c : Console) (w : W) :
  mem cmd evaluating = false ->
  starts_with_slash (current_dir c) = true ->
  starts_with_slash (current_dir (console (call depth cmd args c w))) = true.
Proof.
  intros Hcmd Hc.
  destruct (String.eqb_spec cmd "cd") as [->|Hne].
  - change (call depth "cd" args c w) with (cd args c w). unfold cd.
    destruct args; [exact Hc|].
    destruct (change_dir _ _ w) as [[[] ?]|]; simpl; [apply path_join_absolute| |]; exact Hc.
  - destruct (String.eqb_spec (current_dir (console (call depth cmd args c w)))
                (current_dir c)) as [->|Hd]; [exact Hc|].
    apply (call_frame depth cmd args c w Hcmd) in Hd. contradiction.
Qed.

(** On a line that does not end at a handler that calls [eval],
    [execute_command] leaves the file system object and the history alone,
    and the current directory absolute. *)
Lemma execute_command_frame depth : forall (c : Console) (w : W) command,
  avoids_eval depth (aliases c) command = true ->
  let c' := console (execute_command depth c w command) in
  file_system c' = file_system c /\ command_history c' = command_history c /\
  (starts_with_slash (current_dir c) = true -> starts_with_slash (current_dir c') = true).
Proof.
  induction depth as [|depth IH]; intros c w command Hav; cbv zeta;
    unfold avoids_eval in Hav; rewrite dispatched_eq in Hav;
    rewrite execute_command_eq;
    (destruct (split command) as [|part args]; [auto|]);
    (destruct (aliases c !! lower part); [rewrite handle_console|]).
  - auto.
  - destruct (mem (lower part) commands); [rewrite handle_console|]; auto.
  - apply IH, Hav.
  - destruct (mem (lower part) commands); [rewrite handle_console|auto].
    apply negb_true_iff in Hav.
    destruct (call_frame depth (lower part) args c w Hav) as (Hf & Hh & _).
    split; [exact Hf|]. split; [exact Hh|]. apply call_current_dir, Hav.
Qed.

(** X3: a line that does not end at a handler that calls [eval] (awk,
    expr, bc) writes at most one part of the console, the one that belongs
    to the handler it ends at: the current directory changes only when
    that handler is [cd], the environment only when it is [export], the
    alias table only when it is [alias] or [unalias], whatever the aliases
    the line went through. *)
Theorem a_line_writes_the_field_of_its_handler depth :
  forall (c : Console) (w : W) command,
  avoids_eval depth (aliases c) command = true ->
  let c' := console (execute_command depth c w command) in
  (current_dir c' <> current_dir c -> dispatched depth (aliases c) command = Some "cd") /\
  (environment c' <> environment c ->
   dispatched depth (aliases c) command = Some "export") /\
  (aliases c' <> aliases c ->
   dispatched depth (aliases c) command = Some "alias" \/
   dispatched depth (aliases c) command = Some "unalias").
Proof.
  induction depth as [|depth IH]; intros c w command Hav; cbv zeta;
    unfold avoids_eval in Hav; rewrite dispatched_eq in Hav |- *;
    rewrite execute_command_eq;
    (destruct (split command) as [|part args]; [cbn [console prints]; tauto|]);
    (destruct (aliases c !! lower part); [rewrite handle_console|]).
  - cbn [console raises]. tauto.
  - destruct (mem (lower part) commands); [rewrite handle_console|];
      cbn [console raises prints]; tauto.
  - apply IH, Hav.
  - destruct (mem (lower part) commands);
      [rewrite handle_console | cbn [console prints]; tauto].
    apply negb_true_iff in Hav.
    destruct (call_frame depth (lower part) args c w Hav) as (_ & _ & Hd & He & Ha).
    split; [|split].
    + intros ->%Hd. reflexivity.
    + intros ->%He. reflexivity.
    + intros [-> | ->]%Ha; [left | right]; reflexivity.
Qed.

(** X2: a turn of the loop of [run] that goes on, on a line that does not
    end at a handler that calls [eval], appends the stripped line to the
    history and changes nothing else in it: the history is the list of
    the lines entered so far, oldest first. *)
Theorem history_is_append_only depth (c : Console) (w : W) line c' w' out :
  avoids_eval depth (aliases c) (strip line) = true ->
  repl_step depth c w line = Continue c' w' out ->
  command_history c' = command_history c ++ [strip line] /\
  lower (strip line) <> "exit".
Proof.
  intros Hav (Hne & -> & _)%repl_step_Continue.
  split; [|apply String.eqb_neq, Hne].
  destruct (execute_command_frame depth
              (set_command_history (command_history c ++ [strip line]) c) w (strip line) Hav)
    as (_ & Hh & _).
  exact Hh.
Qed.

(** X1: in every console that a session reaches by lines none of which
    ends at a handler that calls [eval], the root directory is the one the
    session started with and the current directory begins with a slash. *)
Theorem root_is_fixed_and_current_dir_absolute (fs : FileSystem) (c : Console) :
  session (W := W) fs c ->
  file_system c = fs /\ starts_with_slash (current_dir c) = true.
Proof.
  induction 1 as [|c w depth line c' w' out _ [IHf IHd] Hav Hstep]; [split; reflexivity|].
  apply repl_step_Continue in Hstep as (_ & -> & _).
  destruct (execute_command_frame depth
              (set_command_history (command_history c ++ [strip line]) c) w (strip line) Hav)
    as (Hf & _ & Hd).
  split; [rewrite Hf; exact IHf | apply Hd, IHd].
Qed.

End ConsoleState.

Lemma a_line_writes_witness :
  avoids_eval 2 (<["go" := "cd"]> (aliases (new_console home))) "GO docs" = true /\
  dispatched 2 (<["go" := "cd"]> (aliases (new_console home))) "GO docs" = Some "cd".
Proof.
  assert (Hav : avoids_eval 2
                  (aliases (set_aliases (<["go" := "cd"]> (aliases (new_console home)))
                             (new_console home))) "GO docs" = true) by reflexivity.
  split; [exact Hav|].
  apply (proj1 (a_line_writes_the_field_of_its_handler 2 _ sample_disk _ Hav)).
  vm_compute. discriminate.
Defined.

Lemma history_is_append_only_witness :
  exists c' w' out,
    avoids_eval 1 (aliases (new_console home)) (strip "  cd docs ") = true /\
    repl_step 1 (new_console home) sample_disk "  cd docs " = Continue c' w' out /\
    command_history c' = ["cd docs"].
Proof.
  exists (set_current_dir "/docs" (set_command_history ["cd docs"] (new_console home))),
         sample_disk, [].
  assert (Hav : avoids_eval 1 (aliases (new_console home)) (strip "  cd docs ") = true)
    by reflexivity.
  assert (Hstep : repl_step 1 (new_console home) sample_disk "  cd docs "
                  = Continue
                      (set_current_dir "/docs"
                         (set_command_history ["cd docs"] (new_console home)))
                      sample_disk []) by reflexivity.
  split; [exact Hav|]. split; [exact Hstep|].
  exact (proj1 (history_is_append_only 1 _ _ _ _ _ _ Hav Hstep)).
Defined.

Lemma root_is_fixed_witness :
  exists c : Console,
    session (W := Disk) home c /\ current_dir c = "/docs" /\ file_system c = home.
Proof.
  exists (set_current_dir "/docs" (set_command_history ["cd docs"] (new_console home))).
  assert (Hr : session (W := Disk) home
                 (set_current_dir "/docs"
                    (set_command_history ["cd docs"] (new_console home)))).
  { eapply (session_turn home (new_console home) sample_disk 1 "cd docs");
      [constructor | reflexivity | reflexivity]. }
  split; [exact Hr|]. split; [reflexivity|].
  exact (proj1 (root_is_fixed_and_current_dir_absolute home _ Hr)).
Defined.

(** * More on aliases *)

Lemma alias_expand_insert_upper {str : PyStr} table name value command :
  lower name <> name ->
  alias_expand (<[name := value]> table) command = alias_expand table command.
Proof.
  intros Hup. unfold alias_expand. destruct (split command) as [|part args]; [reflexivity|].
  rewrite lookup_insert_ne; [reflexivity|].
  intros ->. apply Hup, lower_lower.
Qed.

(** X4: the name of an alias is stored as it is typed and looked up in
    lower case: an alias whose name has an upper-case letter is never
    expanded, whatever the line. *)
Theorem upper_case_alias_is_never_expanded {W : Type} {host : Host W} {str : PyStr}
    (c : Console) (w : W) (name value : string) :
  lower name <> name ->
  aliases (console (alias [name; value] c w)) !! name = Some value /\
  forall command n,
    alias_chain n (aliases (console (alias [name; value] c w))) command
    = alias_chain n (aliases c) command.
Proof.
  intros Hup. split; [apply lookup_insert_eq|].
  intros command n. simpl. revert command.
  induction n as [|n IH]; intros command; [reflexivity|].
  rewrite !alias_chain_S, alias_expand_insert_upper by exact Hup.
  destruct (alias_expand (aliases c) command) as [[? next]|]; [|reflexivity].
  f_equal. apply IH.
Qed.

Lemma upper_case_alias_witness :
  lower "LL" <> "LL" /\
  alias_chain 3 (aliases (console (alias ["LL"; "ls"] (new_console home) sample_disk))) "LL"
    = [] /\
  execute_command 2 (console (alias ["LL"; "ls"] (new_console home) sample_disk))
      sample_disk "LL"
    = prints (console (alias ["LL"; "ls"] (new_console home) sample_disk)) sample_disk
        ["未找到命令 'll'"].
Proof.
  assert (Hup : lower "LL" <> "LL") by (vm_compute; discriminate).
  split; [exact Hup|]. split; [|vm_compute; reflexivity].
  rewrite (proj2 (upper_case_alias_is_never_expanded
                    (new_console home) sample_disk "LL" "ls" Hup)).
  reflexivity.
Defined.

(** X5: [unalias] of a name that is not an alias changes nothing and says
    so; [alias] followed by [unalias] of that name gives the table back;
    a second [alias] of a name replaces the first without a word of it. *)
Theorem alias_then_unalias_restores {W : Type} {host : Host W}
    (c : Console) (w w' : W) (name value value' : string) (rest : list string) :
  aliases c !! name = None ->
  unalias (name :: rest) c w = prints c w ["未找到别名 '" +:+ name +:+ "'"] /\
  aliases (console (unalias (name :: rest) (console (alias [name; value] c w)) w'))
    = aliases c /\
  console (alias [name; value'] (console (alias [name; value] c w)) w')
    = console (alias [name; value'] c w).
Proof.
  intros Hn. split; [|split].
  - unfold unalias. rewrite Hn. reflexivity.
  - unfold unalias. simpl. rewrite lookup_insert_eq. simpl.
    apply delete_insert_id, Hn.
  - simpl. unfold set_aliases. simpl. rewrite insert_insert_eq. reflexivity.
Qed.

Lemma alias_then_unalias_witness :
  aliases (new_console home) !! "ll" = None /\
  aliases (console (unalias ["ll"]
                      (console (alias ["ll"; "ls"] (new_console home) sample_disk))
                      sample_disk))
    = aliases (new_console home).
Proof.
  split; [reflexivity|].
  exact (proj1 (proj2 (alias_then_unalias_restores (new_console home) sample_disk
                         sample_disk "ll" "ls" "ls" [] eq_refl))).
Defined.

(** * More on paths *)

Lemma starts_with_slash_append a b :
  a <> "" -> starts_with_slash (a +:+ b) = starts_with_slash a.
Proof. destruct a; [congruence | reflexivity]. Qed.

Lemma ends_with_slash_append a b :
  b <> "" -> ends_with_slash (a +:+ b) = ends_with_slash b.
Proof.
  intros Hb. induction a as [|x a IH]; [reflexivity|].
  rewrite append_cons. simpl. rewrite IH.
  destruct (a +:+ b) eqn:E; [|reflexivity].
  destruct a, b; try discriminate. congruence.
Qed.

Lemma append_empty a b : a +:+ b = "" -> a = "" /\ b = "".
Proof. destruct a; [auto | discriminate]. Qed.

Lemma path_join_abs a b : starts_with_slash b = true -> path_join a b = b.
Proof. intros Hb. unfold path_join. rewrite Hb. reflexivity. Qed.

Lemma path_join_rel a b :
  starts_with_slash b = false ->
  path_join a b = if String.eqb a "" || ends_with_slash a then a +:+ b else a +:+ "/" +:+ b.
Proof. intros Hb. unfold path_join. rewrite Hb. reflexivity. Qed.

Lemma path_join_rel_relative a b :
  a <> "" -> starts_with_slash a = false -> starts_with_slash b = false ->
  starts_with_slash (path_join a b) = false.
Proof.
  intros Hne Ha Hb. rewrite path_join_rel by exact Hb.
  destruct (String.eqb a "" || ends_with_slash a);
    rewrite starts_with_slash_append by exact Hne; exact Ha.
Qed.

Lemma path_join_ends a b :
  b <> "" -> starts_with_slash b = false ->
  path_join a b <> "" /\ ends_with_slash (path_join a b) = ends_with_slash b.
Proof.
  intros Hne Hb. rewrite path_join_rel by exact Hb.
  destruct (String.eqb a "" || ends_with_slash a).
  - split; [intros [_ E]%append_empty; contradiction|].
    apply ends_with_slash_append, Hne.
  - split; [intros [_ E]%append_empty; discriminate|].
    rewrite ends_with_slash_append by discriminate.
    change ("/" +:+ b) with (String "/" b). destruct b; [contradiction | reflexivity].
Qed.

(** [os.path.join] is associative. *)
Lemma path_join_assoc a b d :
  path_join (path_join a b) d = path_join a (path_join b d).
Proof.
  destruct (starts_with_slash d) eqn:Hd.
  { rewrite !(path_join_abs _ d) by exact Hd. reflexivity. }
  destruct (starts_with_slash b) eqn:Hb.
  { rewrite (path_join_abs a b) by exact Hb.
    rewrite (path_join_abs a (path_join b d)); [reflexivity|].
    unfold path_join. rewrite Hd.
    assert (b <> "") by (destruct b; [discriminate | congruence]).
    destruct (String.eqb b "" || ends_with_slash b);
      rewrite starts_with_slash_append by assumption; exact Hb. }
  destruct (String.eqb_spec b "") as [->|Hbne].
  { rewrite (path_join_rel "" d) by exact Hd. simpl. rewrite append_nil_l.
    rewrite (path_join_rel a "") by reflexivity. rewrite (path_join_rel a d) by exact Hd.
    destruct (String.eqb_spec a "") as [->|Ha]; simpl.
    - rewrite path_join_rel by exact Hd. reflexivity.
    - destruct (ends_with_slash a) eqn:Hea.
      + rewrite append_nil_r, path_join_rel, Hea, orb_true_r by exact Hd. reflexivity.
      + rewrite append_nil_r, path_join_rel by exact Hd.
        rewrite ends_with_slash_append by discriminate. simpl.
        rewrite orb_true_r, append_assoc. reflexivity. }
  destruct (path_join_ends a b Hbne Hb) as [Habne Habe].
  rewrite (path_join_rel (path_join a b) d) by exact Hd.
  apply String.eqb_neq in Habne. rewrite Habne, Habe. simpl.
  rewrite (path_join_rel b d) by exact Hd.
  apply String.eqb_neq in Hbne. rewrite Hbne. simpl.
  apply String.eqb_neq in Hbne.
  rewrite (path_join_rel a b) by exact Hb.
  destruct (ends_with_slash b).
  - rewrite path_join_rel by (rewrite starts_with_slash_append by exact Hbne; exact Hb).
    destruct (String.eqb a "" || ends_with_slash a); rewrite !append_assoc; reflexivity.
  - rewrite path_join_rel by (rewrite starts_with_slash_append by exact Hbne; exact Hb).
    destruct (String.eqb a "" || ends_with_slash a); rewrite !append_assoc; reflexivity.
Qed.

(** X6: two changes of directory that succeed one after the other, the
    directories being there and [os.chdir] entering them, leave the
    current directory that a single change to the joined argument would
    set. *)
Theorem cd_twice_is_cd_of_the_join {W : Type} {host : Host W}
    (c : Console) (w w1 w2 : W) (a b : string) :
  isdir w (resolve (root_dir (file_system c)) (current_dir c) a) = true ->
  chdir (resolve (root_dir (file_system c)) (current_dir c) a) w = inl w1 ->
  isdir w1 (resolve (root_dir (file_system c)) (path_join (current_dir c) a) b) = true ->
  chdir (resolve (root_dir (file_system c)) (path_join (current_dir c) a) b) w1 = inl w2 ->
  let r := cd [b] (console (cd [a] c w)) (world (cd [a] c w)) in
  current_dir (console r) = path_join (current_dir c) (path_join a b) /\
  world r = w2 /\ output r = [] /\ raised r = None /\
  resolve (root_dir (file_system c)) (path_join (current_dir c) a) b
    = resolve (root_dir (file_system c)) (current_dir c) (path_join a b).
Proof.
  intros Ha Hca Hb Hcb r. subst r. unfold resolve in *.
  assert (E : cd [a] c w = prints (set_current_dir (path_join (current_dir c) a) c) w1 []).
  { unfold cd, change_dir. rewrite Ha, Hca. reflexivity. }
  rewrite E. cbn [console world prints]. unfold cd, change_dir.
  cbn [file_system current_dir set_current_dir]. rewrite Hb, Hcb.
  cbn [console world output raised prints current_dir set_current_dir].
  split; [apply path_join_assoc|]. repeat split. rewrite path_join_assoc. reflexivity.
Qed.

Lemma cd_twice_witness :
  isdir demo_disk (resolve "/home/gtos" "/" "docs") = true /\
  chdir (resolve "/home/gtos" "/" "docs") demo_disk = inl demo_disk /\
  isdir demo_disk (resolve "/home/gtos" (path_join "/" "docs") "img") = true /\
  chdir (resolve "/home/gtos" (path_join "/" "docs") "img") demo_disk = inl demo_disk /\
  current_dir (console (cd ["img"] (console (cd ["docs"] (new_console home) demo_disk))
                          (world (cd ["docs"] (new_console home) demo_disk))))
    = "/docs/img".
Proof.
  assert (Ha : isdir demo_disk (resolve "/home/gtos" "/" "docs") = true) by reflexivity.
  assert (Hca : chdir (resolve "/home/gtos" "/" "docs") demo_disk = inl demo_disk)
    by reflexivity.
  assert (Hb : isdir demo_disk (resolve "/home/gtos" (path_join "/" "docs") "img") = true)
    by reflexivity.
  assert (Hcb : chdir (resolve "/home/gtos" (path_join "/" "docs") "img") demo_disk
                = inl demo_disk) by reflexivity.
  split; [exact Ha|]. split; [exact Hca|]. split; [exact Hb|]. split; [exact Hcb|].
  exact (proj1 (cd_twice_is_cd_of_the_join (new_console home) demo_disk demo_disk demo_disk
                  "docs" "img" Ha Hca Hb Hcb)).
Defined.

Lemma length_append a b : String.length (a +:+ b) = String.length a + String.length b.
Proof. induction a as [|x a IH]; [reflexivity|]. rewrite append_cons. simpl. rewrite IH. reflexivity. Qed.

(** X7: the current directory is never brought to a normal form.  A
    change of directory by a relative path that succeeds, the directory
    being there and [os.chdir] entering it, puts the path behind the old
    current directory, whatever its segments: the new current directory is
    longer than the old one, also after [cd ..]. *)
Theorem cd_relative_only_appends {W : Type} {host : Host W}
    (c : Console) (w w' : W) (arg : string) (rest : list string) :
  starts_with_slash arg = false -> arg <> "" ->
  isdir w (resolve (root_dir (file_system c)) (current_dir c) arg) = true ->
  chdir (resolve (root_dir (file_system c)) (current_dir c) arg) w = inl w' ->
  (exists sep, (sep = "" \/ sep = "/") /\
     current_dir (console (cd (arg :: rest) c w)) = current_dir c +:+ sep +:+ arg) /\
  String.length (current_dir c) < String.length (current_dir (console (cd (arg :: rest) c w))).
Proof.
  intros Hrel Hne Hd Hc. unfold cd, change_dir. unfold resolve in Hd, Hc.
  rewrite Hd, Hc. simpl.
  rewrite path_join_rel by exact Hrel.
  assert (Hlen : 0 < String.length arg) by (destruct arg; [congruence | simpl; lia]).
  destruct (String.eqb (current_dir c) "" || ends_with_slash (current_dir c)).
  - split; [exists ""; split; [left|]; reflexivity|]. rewrite length_append. lia.
  - split; [exists "/"; split; [right|]; reflexivity|]. rewrite !length_append. lia.
Qed.

Lemma cd_relative_witness :
  starts_with_slash ".." = false /\
  isdir demo_disk (resolve "/home/gtos" "/docs" "..") = true /\
  chdir (resolve "/home/gtos" "/docs" "..") demo_disk = inl demo_disk /\
  current_dir (console (cd [".."] (set_current_dir "/docs" (new_console home)) demo_disk))
    = "/docs/.." /\
  String.length "/docs"
    < String.length
        (current_dir (console (cd [".."] (set_current_dir "/docs" (new_console home))
                                 demo_disk))).
Proof.
  assert (Hd : isdir demo_disk (resolve "/home/gtos" "/docs" "..") = true) by reflexivity.
  assert (Hc : chdir (resolve "/home/gtos" "/docs" "..") demo_disk = inl demo_disk)
    by reflexivity.
  split; [reflexivity|]. split; [exact Hd|]. split; [exact Hc|]. split; [reflexivity|].
  exact (proj2 (cd_relative_only_appends (set_current_dir "/docs" (new_console home))
                  demo_disk demo_disk ".." [] eq_refl ltac:(discriminate) Hd Hc)).
Defined.

(** * Completion *)

Lemma py_index_nat {A : Type} (l : list A) (k : nat) : py_index l (Z.of_nat k) = nth_error l k.
Proof.
  unfold py_index. destruct (Z.leb_spec 0 (Z.of_nat k)); [|lia].
  rewrite Nat2Z.id. reflexivity.
Qed.

Lemma py_index_In {A : Type} (l : list A) (i : Z) (x : A) : py_index l i = Some x -> In x l.
Proof.
  unfold py_index. destruct (0 <=? i)%Z; [apply nth_error_In|].
  destruct (- Z.of_nat (length l) <=? i)%Z; [apply nth_error_In | discriminate].
Qed.

Lemma custom_completer_sound cmds text state cmd :
  custom_completer cmds text state = inl (Some cmd) ->
  In cmd cmds /\ String.prefix text cmd = true.
Proof.
  unfold custom_completer.
  destruct (state <? _)%Z; [|discriminate].
  destruct (py_index _ state) as [o|] eqn:Hi; [|discriminate].
  intros [= ->]. apply py_index_In, filter_In in Hi. exact Hi.
Qed.

Lemma custom_completer_nat cmds text (k : nat) :
  custom_completer cmds text (Z.of_nat k)
  = inl (nth_error (List.filter (String.prefix text) cmds) k).
Proof.
  unfold custom_completer. rewrite py_index_nat.
  destruct (Z.ltb_spec (Z.of_nat k) (Z.of_nat (length (List.filter (String.prefix text) cmds))))
    as [Hlt|Hge].
  - destruct (nth_error _ k) eqn:Hn; [reflexivity|].
    apply nth_error_None in Hn. lia.
  - symmetry. f_equal. apply nth_error_None. lia.
Qed.

Lemma custom_completer_complete cmds text cmd :
  In cmd cmds -> String.prefix text cmd = true ->
  exists k, custom_completer cmds text (Z.of_nat k) = inl (Some cmd).
Proof.
  intros Hin Hp.
  assert (Hf : In cmd (List.filter (String.prefix text) cmds)) by (apply filter_In; auto).
  apply In_nth_error in Hf as [k Hk]. exists k. rewrite custom_completer_nat, Hk. reflexivity.
Qed.

Lemma forallb_not_mem_NoDup (l : list string) :
  (fix check (l : list string) : bool :=
     match l with
     | [] => true
     | x :: rest => negb (mem x rest) && check rest
     end) l = true ->
  NoDup l.
Proof.
  induction l as [|x l IH]; [constructor|].
  intros [Hx Hl]%andb_true_iff. constructor; [|apply IH, Hl].
  apply mem_false, negb_true_iff, Hx.
Qed.

Lemma commands_NoDup : NoDup commands.
Proof. apply forallb_not_mem_NoDup. vm_compute. reflexivity. Qed.

(** X8: the completer proposes, for the successive states, the registered
    commands that start with the text, each once and in the order of the
    registry, and [None] from the state that equals their number on;
    every proposal is a name the dispatcher finds in the registry. *)
Theorem completer_proposes_the_matching_commands (text : string) :
  (forall state cmd, completer text state = inl (Some cmd) ->
     mem cmd commands = true /\ String.prefix text cmd = true) /\
  (forall cmd, mem cmd commands = true -> String.prefix text cmd = true ->
     exists k, completer text (Z.of_nat k) = inl (Some cmd)) /\
  (forall state,
     (Z.of_nat (length (List.filter (String.prefix text) commands)) <= state)%Z ->
     completer text state = inl None) /\
  (forall j k cmd, completer text (Z.of_nat j) = inl (Some cmd) ->
     completer text (Z.of_nat k) = inl (Some cmd) -> j = k).
Proof.
  unfold completer, create_completer. split; [|split; [|split]].
  - intros state cmd [Hin Hp]%custom_completer_sound. split; [|exact Hp].
    apply mem_spec, list_elem_of_In, Hin.
  - intros cmd Hin%mem_spec%list_elem_of_In Hp. apply custom_completer_complete; assumption.
  - intros state Hge. unfold custom_completer.
    destruct (Z.ltb_spec state (Z.of_nat (length (List.filter (String.prefix text) commands))));
      [lia | reflexivity].
  - intros j k cmd. rewrite !custom_completer_nat.
    assert (Hnd : List.NoDup (List.filter (String.prefix text) commands)).
    { apply List.NoDup_filter, NoDup_ListNoDup, commands_NoDup. }
    revert Hnd. generalize (List.filter (String.prefix text) commands). intros options Hnd.
    intros [= Hj] [= Hk].
    eapply (proj1 (List.NoDup_nth_error _) Hnd); [|congruence].
    apply nth_error_Some. congruence.
Qed.

(** * sort *)

Lemma ltb_false_leb x y : String.ltb y x = false <-> String.leb x y = true.
Proof.
  unfold String.ltb, String.leb. rewrite (String.compare_antisym y x).
  destruct (String.compare x y); simpl; split; congruence.
Qed.

Lemma leb_trans x y z :
  String.leb x y = true -> String.leb y z = true -> String.leb x z = true.
Proof.
  intros Hxy Hyz. apply Is_true_true.
  change (String.le x z). transitivity y; apply Is_true_true; assumption.
Qed.

Lemma insert_sorted_perm x l : insert_sorted x l ≡ₚ x :: l.
Proof.
  induction l as [|y l IH]; simpl; [reflexivity|].
  destruct (String.ltb y x); [|reflexivity].
  rewrite IH. apply Permutation_swap.
Qed.

Lemma sorted_perm l : sorted l ≡ₚ l.
Proof.
  induction l as [|x l IH]; simpl; [reflexivity|].
  rewrite insert_sorted_perm, IH. reflexivity.
Qed.

Lemma insert_sorted_ordered x l :
  StronglySorted (fun a b => String.leb a b = true) l ->
  StronglySorted (fun a b => String.leb a b = true) (insert_sorted x l).
Proof.
  induction l as [|y l IH]; intros Hs; simpl; [repeat constructor|].
  apply StronglySorted_inv in Hs as [Hl Hall].
  destruct (String.ltb y x) eqn:Hyx.
  - constructor; [apply IH, Hl|].
    apply Forall_forall. intros z Hz. rewrite insert_sorted_perm in Hz.
    apply elem_of_cons in Hz as [->|Hz]; [apply ltb_leb, Hyx|].
    rewrite Forall_forall in Hall. apply Hall, Hz.
  - apply ltb_false_leb in Hyx. constructor; [constructor; assumption|].
    constructor; [exact Hyx|].
    apply Forall_forall. intros z Hz. rewrite Forall_forall in Hall.
    eapply leb_trans; [exact Hyx | apply Hall, Hz].
Qed.

Lemma sorted_ordered l : StronglySorted (fun a b => String.leb a b = true) (sorted l).
Proof.
  induction l as [|x l IH]; simpl; [constructor|]. apply insert_sorted_ordered, IH.
Qed.

Lemma sorted_of_ordered l :
  StronglySorted (fun a b => String.leb a b = true) l -> sorted l = l.
Proof.
  induction l as [|x l IH]; intros Hs; [reflexivity|].
  apply StronglySorted_inv in Hs as [Hl Hall]. simpl. rewrite IH by exact Hl.
  destruct l as [|y l]; [reflexivity|]. simpl.
  apply Forall_cons in Hall as [Hxy _]. apply ltb_false_leb in Hxy. rewrite Hxy. reflexivity.
Qed.

(** X9: on a readable file [sort] prints, stripped, the lines of the file
    rearranged in non-decreasing order of the lines as they were read;
    sorting what is sorted changes nothing. *)
Theorem sort_prints_a_sorted_permutation {W : Type} {host : Host W} {py : PyInt}
    (c : Console) (w : W) (arg : string) (rest : list string) (content : string) :
  read_file w (path_join (current_dir c) arg) = inl content ->
  exists order,
    Cmd.sort (arg :: rest) c w = prints c w (map strip order) /\
    order ≡ₚ readlines content /\
    StronglySorted (fun a b => String.leb a b = true) order /\
    sorted order = order /\
    length (output (Cmd.sort (arg :: rest) c w)) = length (readlines content).
Proof.
  intros Hr. exists (sorted (readlines content)).
  assert (E : Cmd.sort (arg :: rest) c w = prints c w (map strip (sorted (readlines content)))).
  { unfold Cmd.sort. rewrite Hr. reflexivity. }
  split; [exact E|]. split; [apply sorted_perm|]. split; [apply sorted_ordered|].
  split; [apply sorted_of_ordered, sorted_ordered|].
  rewrite E. simpl. rewrite length_map. apply Permutation_length, sorted_perm.
Qed.

Lemma sort_witness :
  read_file demo_disk (path_join "/" "words")
    = inl ("pear" +:+ String LF ("apple" +:+ String LF ("fig" +:+ String LF ""))) /\
  output (Cmd.sort ["words"] (new_console home) demo_disk) = ["apple"; "fig"; "pear"] /\
  length (output (Cmd.sort ["words"] (new_console home) demo_disk)) = 3.
Proof.
  assert (Hr : read_file demo_disk (path_join "/" "words")
               = inl ("pear" +:+ String LF ("apple" +:+ String LF ("fig" +:+ String LF ""))))
    by reflexivity.
  split; [exact Hr|]. split; [vm_compute; reflexivity|].
  destruct (sort_prints_a_sorted_permutation (new_console home) demo_disk "words" [] _ Hr)
    as (order & _ & _ & _ & _ & Hlen).
  exact Hlen.
Defined.

(** * sum *)

Lemma land_65535 x : Z.land x 65535 = (x mod 65536)%Z.
Proof. change 65535%Z with (Z.ones 16). rewrite Z.land_ones by lia. reflexivity. Qed.

Lemma sum_loop_mod bytes : forall checksum,
  sum_loop (checksum mod 65536) bytes
  = ((checksum + fold_right Z.add 0%Z bytes) mod 65536)%Z.
Proof.
  induction bytes as [|byte bytes IH]; intros checksum; simpl.
  - rewrite Z.add_0_r. reflexivity.
  - rewrite land_65535, IH, <- Z.add_assoc.
    apply Z.add_mod_idemp_l. lia.
Qed.

Lemma sum_loop_total bytes :
  sum_loop 0 bytes = (fold_right Z.add 0%Z bytes mod 65536)%Z.
Proof. change 0%Z with (0 mod 65536)%Z at 1. rewrite sum_loop_mod. reflexivity. Qed.

Lemma bytes_of_append a b : bytes_of (a +:+ b) = bytes_of a ++ bytes_of b.
Proof.
  induction a as [|x a IH]; [reflexivity|]. rewrite append_cons. simpl. rewrite IH. reflexivity.
Qed.

Lemma fold_add_app l k :
  fold_right Z.add 0%Z (l ++ k) = (fold_right Z.add 0%Z l + fold_right Z.add 0%Z k)%Z.
Proof. induction l as [|x l IH]; simpl; [reflexivity|]. rewrite IH. lia. Qed.

Lemma fold_add_perm l k : l ≡ₚ k -> fold_right Z.add 0%Z l = fold_right Z.add 0%Z k.
Proof. induction 1; simpl; lia. Qed.

(** X10: the checksum [sum] prints is the sum of the bytes of the file
    modulo 65536: it lies from 0 to 65535, it does not change when the
    bytes are rearranged, and the checksum of two contents put together is
    the sum of their checksums modulo 65536. *)
Theorem sum_is_the_byte_sum_mod_65536 {W : Type} {host : Host W} {py : PyInt}
    (c : Console) (w : W) (arg : string) (rest : list string) (content : string) :
  read_file w (path_join (current_dir c) arg) = inl content ->
  Cmd.sum (arg :: rest) c w =
    prints c w [show_Z (fold_right Z.add 0%Z (bytes_of content) mod 65536)%Z +:+ " "
                  +:+ show_Z (Z.of_nat (String.length content)) +:+ " " +:+ arg] /\
  (0 <= sum_loop 0 (bytes_of content) < 65536)%Z /\
  (forall content', bytes_of content' ≡ₚ bytes_of content ->
     sum_loop 0 (bytes_of content') = sum_loop 0 (bytes_of content)) /\
  (forall content',
     sum_loop 0 (bytes_of (content +:+ content'))
     = ((sum_loop 0 (bytes_of content) + sum_loop 0 (bytes_of content')) mod 65536)%Z).
Proof.
  intros Hr. split; [|split; [|split]].
  - unfold Cmd.sum. rewrite Hr, sum_loop_total. reflexivity.
  - rewrite sum_loop_total. apply Z.mod_pos_bound. lia.
  - intros content' Hp. rewrite !sum_loop_total, (fold_add_perm _ _ Hp). reflexivity.
  - intros content'. rewrite !sum_loop_total, bytes_of_append, fold_add_app.
    apply Z.add_mod. lia.
Qed.

Lemma sum_witness :
  read_file demo_disk (path_join "/" "words2")
    = inl ("pear" +:+ String LF ("plum" +:+ String LF "")) /\
  output (Cmd.sum ["words2"] (new_console home) demo_disk) = ["890 10 words2"].
Proof.
  assert (Hr : read_file demo_disk (path_join "/" "words2")
               = inl ("pear" +:+ String LF ("plum" +:+ String LF ""))) by reflexivity.
  split; [exact Hr|].
  rewrite (proj1 (sum_is_the_byte_sum_mod_65536 (new_console home) demo_disk "words2" [] _ Hr)).
  vm_compute. reflexivity.
Defined.

(** * diff *)

Lemma diff_changes_equal lines : forall i, diff_changes i lines lines = [].
Proof.
  induction lines as [|line lines IH]; intros i; [reflexivity|].
  simpl. rewrite String.eqb_refl. apply IH.
Qed.

Lemma diff_changes_nil lines1 : forall i lines2,
  length lines1 = length lines2 -> diff_changes i lines1 lines2 = [] -> lines1 = lines2.
Proof.
  induction lines1 as [|line1 rest1 IH]; intros i [|line2 rest2] Hlen Hd;
    try discriminate; [reflexivity|].
  simpl in Hd. destruct (String.eqb_spec line1 line2) as [->|_]; [|discriminate].
  f_equal. eapply IH; [simpl in Hlen; lia | exact Hd].
Qed.

Lemma diff_changes_length lines1 : forall i lines2,
  length (diff_changes i lines1 lines2)
  = 4 * length (List.filter (fun p => negb (String.eqb p.1 p.2)) (combine lines1 lines2)).
Proof.
  induction lines1 as [|line1 rest1 IH]; intros i [|line2 rest2]; try reflexivity.
  simpl. rewrite length_app, IH. destruct (String.eqb line1 line2); simpl; lia.
Qed.

Lemma diff_excess_length letter mark lines : forall i,
  length (diff_excess letter mark i lines) = 2 * length lines.
Proof.
  induction lines as [|line lines IH]; intros i; [reflexivity|].
  simpl. rewrite IH. lia.
Qed.

(** X11: on two readable files [diff] prints nothing exactly when the two
    files have the same lines; it prints four lines for each position at
    which both files have a line and the lines differ, and two lines for
    each line one file has more than the other. *)
Theorem diff_is_silent_iff_same_lines {W : Type} {host : Host W} {py : PyInt}
    (c : Console) (w : W) (file1 file2 content1 content2 : string) :
  read_file w (path_join (current_dir c) file1) = inl content1 ->
  read_file w (path_join (current_dir c) file2) = inl content2 ->
  let lines1 := readlines content1 in
  let lines2 := readlines content2 in
  Cmd.diff [file1; file2] c w = prints c w (diff_lines lines1 lines2) /\
  (diff_lines lines1 lines2 = [] <-> lines1 = lines2) /\
  length (diff_lines lines1 lines2)
  = 4 * length (List.filter (fun p => negb (String.eqb p.1 p.2)) (combine lines1 lines2))
    + 2 * (length lines1 - length lines2) + 2 * (length lines2 - length lines1).
Proof.
  intros Hr1 Hr2 lines1 lines2. split; [|split].
  - unfold Cmd.diff. rewrite Hr1, Hr2. reflexivity.
  - unfold diff_lines. split.
    + intros [Hc He]%app_eq_nil.
      assert (Hlen : length lines1 = length lines2).
      { destruct (Nat.ltb_spec (length lines2) (length lines1)) as [Hlt|Hge].
        - apply (f_equal (@length string)) in He.
          rewrite diff_excess_length, length_skipn in He. simpl in He. lia.
        - destruct (Nat.ltb_spec (length lines1) (length lines2)) as [Hlt|Hge']; [|lia].
          apply (f_equal (@length string)) in He.
          rewrite diff_excess_length, length_skipn in He. simpl in He. lia. }
      eapply diff_changes_nil; eassumption.
    + intros ->. rewrite diff_changes_equal, Nat.ltb_irrefl. reflexivity.
  - unfold diff_lines. rewrite length_app, diff_changes_length.
    destruct (Nat.ltb_spec (length lines2) (length lines1)) as [Hlt|Hge].
    + rewrite diff_excess_length, length_skipn. lia.
    + destruct (Nat.ltb_spec (length lines1) (length lines2)) as [Hlt|Hge'].
      * rewrite diff_excess_length, length_skipn. lia.
      * simpl. lia.
Qed.

Lemma diff_witness :
  read_file demo_disk (path_join "/" "words")
    = inl ("pear" +:+ String LF ("apple" +:+ String LF ("fig" +:+ String LF ""))) /\
  read_file demo_disk (path_join "/" "words2")
    = inl ("pear" +:+ String LF ("plum" +:+ String LF "")) /\
  output (Cmd.diff ["words"; "words2"] (new_console home) demo_disk)
    = ["2c2"; "< apple"; "---"; "> plum"; "3a3"; "> fig"].
Proof.
  assert (Hr1 : read_file demo_disk (path_join "/" "words")
               = inl ("pear" +:+ String LF ("apple" +:+ String LF ("fig" +:+ String LF ""))))
    by reflexivity.
  assert (Hr2 : read_file demo_disk (path_join "/" "words2")
               = inl ("pear" +:+ String LF ("plum" +:+ String LF ""))) by reflexivity.
  split; [exact Hr1|]. split; [exact Hr2|].
  rewrite (proj1 (diff_is_silent_iff_same_lines (new_console home) demo_disk
                    "words" "words2" _ _ Hr1 Hr2)).
  vm_compute. reflexivity.
Defined.

(** * cmp *)

Lemma cmp_loop_same data1 : forall i data2, cmp_loop i data1 data2 = Same <-> data1 = data2.
Proof.
  induction data1 as [|x data1 IH]; intros i [|y data2]; simpl; try (split; congruence).
  destruct (Ascii.eqb_spec x y) as [->|Hne].
  - rewrite IH. split; congruence.
  - split; congruence.
Qed.

Lemma cmp_loop_differ data1 : forall i data2 j,
  cmp_loop i data1 data2 = Differ j ->
  exists common x rest1 y rest2,
    data1 = common +:+ String x rest1 /\ data2 = common +:+ String y rest2 /\
    x <> y /\ j = (i + Z.of_nat (String.length common) + 1)%Z.
Proof.
  induction data1 as [|x data1 IH]; intros i [|y data2] j; simpl; try discriminate.
  destruct (Ascii.eqb_spec x y) as [->|Hne].
  - intros (common & x' & r1 & y' & r2 & -> & -> & Hd & ->)%IH.
    exists (String y common), x', r1, y', r2. repeat split; [exact Hd|]. simpl String.length. lia.
  - intros [= <-]. exists "", x, data1, y, data2. repeat split; [exact Hne|]. simpl. lia.
Qed.

Lemma cmp_loop_lengths data1 : forall i data2,
  cmp_loop i data1 data2 = LengthsDiffer <->
  exists x rest, data1 = data2 +:+ String x rest \/ data2 = data1 +:+ String x rest.
Proof.
  induction data1 as [|x data1 IH]; intros i [|y data2]; simpl.
  - split; [discriminate|]. intros (z & r & [E|E]); discriminate.
  - split; [|reflexivity]. intros _. exists y, data2. right. reflexivity.
  - split; [|reflexivity]. intros _. exists x, data1. left. reflexivity.
  - destruct (Ascii.eqb_spec x y) as [->|Hne].
    + rewrite IH. split; intros (z & r & [E|E]); exists z, r.
      * left. rewrite E. reflexivity.
      * right. rewrite E. reflexivity.
      * left. rewrite append_cons in E. congruence.
      * right. rewrite append_cons in E. congruence.
    + split; [discriminate|]. intros (z & r & [E|E]); rewrite append_cons in E; congruence.
Qed.

(** X12: on two readable files [cmp] says that the files are the same
    exactly when their bytes are the same, that their lengths differ
    exactly when one is the other followed by at least one more byte, and
    otherwise names the place of the first byte at which they differ,
    counted from 1. *)
Theorem cmp_finds_the_first_difference {W : Type} {host : Host W} {py : PyInt}
    (c : Console) (w : W) (file1 file2 data1 data2 : string) :
  read_file w (path_join (current_dir c) file1) = inl data1 ->
  read_file w (path_join (current_dir c) file2) = inl data2 ->
  Cmd.cmp [file1; file2] c w = prints c w [cmp_print file1 file2 (cmp_loop 0 data1 data2)] /\
  (cmp_loop 0 data1 data2 = Same <-> data1 = data2) /\
  (cmp_loop 0 data1 data2 = LengthsDiffer <->
   exists x rest, data1 = data2 +:+ String x rest \/ data2 = data1 +:+ String x rest) /\
  (forall j, cmp_loop 0 data1 data2 = Differ j ->
   exists common x rest1 y rest2,
     data1 = common +:+ String x rest1 /\ data2 = common +:+ String y rest2 /\
     x <> y /\ j = (Z.of_nat (String.length common) + 1)%Z).
Proof.
  intros Hr1 Hr2. split; [|split; [|split]].
  - unfold Cmd.cmp. rewrite Hr1, Hr2. reflexivity.
  - apply cmp_loop_same.
  - apply cmp_loop_lengths.
  - intros j Hj. apply cmp_loop_differ in Hj. exact Hj.
Qed.

Lemma cmp_witness :
  read_file demo_disk (path_join "/" "words")
    = inl ("pear" +:+ String LF ("apple" +:+ String LF ("fig" +:+ String LF ""))) /\
  read_file demo_disk (path_join "/" "words2")
    = inl ("pear" +:+ String LF ("plum" +:+ String LF "")) /\
  output (Cmd.cmp ["words"; "words2"] (new_console home) demo_disk)
    = ["文件 'words' 和 'words2' 在第 6 个字节处不同"].
Proof.
  assert (Hr1 : read_file demo_disk (path_join "/" "words")
               = inl ("pear" +:+ String LF ("apple" +:+ String LF ("fig" +:+ String LF ""))))
    by reflexivity.
  assert (Hr2 : read_file demo_disk (path_join "/" "words2")
               = inl ("pear" +:+ String LF ("plum" +:+ String LF ""))) by reflexivity.
  split; [exact Hr1|]. split; [exact Hr2|].
  rewrite (proj1 (cmp_finds_the_first_difference (new_console home) demo_disk
                    "words" "words2" _ _ Hr1 Hr2)).
  vm_compute. reflexivity.
Defined.

(** * strings *)

Lemma all_printable_append a b :
  all_printable (a +:+ b) = all_printable a && all_printable b.
Proof.
  induction a as [|x a IH]; [reflexivity|].
  rewrite append_cons. simpl. rewrite IH. apply andb_assoc.
Qed.

Lemma all_printable_snoc s ch :
  all_printable s = true -> printable ch = true -> all_printable (snoc s ch) = true.
Proof.
  intros Hs Hc. unfold snoc. rewrite all_printable_append, Hs. simpl. rewrite Hc. reflexivity.
Qed.

Lemma strings_flush_spec current s :
  s ∈ strings_flush current -> s = current /\ 4 <= String.length current.
Proof.
  unfold strings_flush. destruct (Nat.leb_spec 4 (String.length current)) as [Hle|Hlt].
  - intros ->%list_elem_of_singleton. auto.
  - intros Hs. inversion Hs.
Qed.

Lemma strings_loop_spec data : forall current s,
  all_printable current = true ->
  s ∈ strings_loop current data ->
  4 <= String.length s /\ all_printable s = true /\
  exists before after,
    current +:+ data = before +:+ s +:+ after /\
    (before = "" \/ exists b ch, before = b +:+ String ch "" /\ printable ch = false) /\
    (after = "" \/ exists ch a, after = String ch a /\ printable ch = false).
Proof.
  induction data as [|byte data IH]; intros current s Hc Hs; simpl in Hs.
  - apply strings_flush_spec in Hs as [-> Hlen]. split; [exact Hlen|]. split; [exact Hc|].
    exists "", "". rewrite !append_nil_r. auto.
  - destruct (printable byte) eqn:Hb.
    + destruct (IH _ s (all_printable_snoc _ _ Hc Hb) Hs)
        as (Hlen & Hp & before & after & E & Hbefore & Hafter).
      split; [exact Hlen|]. split; [exact Hp|]. exists before, after.
      rewrite snoc_append in E. auto.
    + apply elem_of_app in Hs as [Hs|Hs].
      * apply strings_flush_spec in Hs as [-> Hlen]. split; [exact Hlen|]. split; [exact Hc|].
        exists "", (String byte data). split; [reflexivity|]. split; [auto|].
        right. exists byte, data. auto.
      * destruct (IH "" s eq_refl Hs) as (Hlen & Hp & before & after & E & Hbefore & Hafter).
        split; [exact Hlen|]. split; [exact Hp|].
        exists (current +:+ String byte before), after. split; [|split; [|exact Hafter]].
        -- rewrite append_nil_l in E. rewrite E, !append_assoc. reflexivity.
        -- right. destruct Hbefore as [->|(b & ch & -> & Hch)].
           ++ exists current, byte. auto.
           ++ exists (current +:+ String byte b), ch. rewrite !append_assoc. auto.
Qed.

(** X13: every string [strings] prints is at least four bytes long, is
    made of printable bytes only, and stands in the file between two
    bytes that are not printable or at an end of the file. *)
Theorem strings_prints_printable_runs {W : Type} {host : Host W} {py : PyInt}
    (c : Console) (w : W) (arg : string) (rest : list string) (data : string) (s : string) :
  read_file w (path_join (current_dir c) arg) = inl data ->
  s ∈ output (Cmd.strings (arg :: rest) c w) ->
  4 <= String.length s /\ all_printable s = true /\
  exists before after,
    data = before +:+ s +:+ after /\
    (before = "" \/ exists b ch, before = b +:+ String ch "" /\ printable ch = false) /\
    (after = "" \/ exists ch a, after = String ch a /\ printable ch = false).
Proof.
  intros Hr. unfold Cmd.strings. rewrite Hr. simpl.
  intros Hs. apply (strings_loop_spec data "" s eq_refl) in Hs. exact Hs.
Qed.

Lemma strings_witness :
  read_file demo_disk (path_join "/" "blob")
    = inl (String (ascii_of_nat 1) ("GTOS" +:+ String (ascii_of_nat 0) "ab")) /\
  output (Cmd.strings ["blob"] (new_console home) demo_disk) = ["GTOS"] /\
  4 <= String.length "GTOS".
Proof.
  assert (Hr : read_file demo_disk (path_join "/" "blob")
               = inl (String (ascii_of_nat 1) ("GTOS" +:+ String (ascii_of_nat 0) "ab")))
    by reflexivity.
  assert (Hout : output (Cmd.strings ["blob"] (new_console home) demo_disk) = ["GTOS"])
    by reflexivity.
  split; [exact Hr|]. split; [exact Hout|].
  refine (proj1 (strings_prints_printable_runs (new_console home) demo_disk "blob" [] _
                   "GTOS" Hr _)).
  rewrite Hout. left.
Defined.

(** * head and tail *)

Lemma py_slice_from_last {A : Type} (l : list A) (n : nat) :
  0 < n -> py_slice_from l (- Z.of_nat n) = skipn (length l - n) l.
Proof.
  intros Hn. unfold py_slice_from. destruct (Z.leb_spec 0 (- Z.of_nat n)); [lia|].
  f_equal. lia.
Qed.

(** X14: on a readable file [head] prints the first ten lines and [tail]
    the last ten, stripped, or all the lines when the file has fewer; on a
    file of at most ten lines both print the whole file. *)
Theorem head_and_tail_print_the_ends {W : Type} {host : Host W} {py : PyInt}
    (c : Console) (w : W) (arg : string) (rest : list string) (content : string) :
  read_file w (path_join (current_dir c) arg) = inl content ->
  let lines := readlines content in
  output (Cmd.head (arg :: rest) c w) = map strip (firstn 10 lines) /\
  output (Cmd.tail (arg :: rest) c w) = map strip (skipn (length lines - 10) lines) /\
  length (output (Cmd.head (arg :: rest) c w)) = Nat.min 10 (length lines) /\
  length (output (Cmd.tail (arg :: rest) c w)) = Nat.min 10 (length lines) /\
  (length lines <= 10 ->
   output (Cmd.head (arg :: rest) c w) = map strip lines /\
   output (Cmd.tail (arg :: rest) c w) = map strip lines).
Proof.
  intros Hr lines.
  assert (Hh : output (Cmd.head (arg :: rest) c w) = map strip (firstn 10 lines)).
  { unfold Cmd.head. rewrite Hr. reflexivity. }
  assert (Ht : output (Cmd.tail (arg :: rest) c w)
               = map strip (skipn (length lines - 10) lines)).
  { unfold Cmd.tail. rewrite Hr. simpl output.
    change (-10)%Z with (- Z.of_nat 10)%Z. rewrite py_slice_from_last by lia. reflexivity. }
  rewrite Hh, Ht. split; [reflexivity|]. split; [reflexivity|].
  split; [rewrite length_map, length_firstn; reflexivity|].
  split; [rewrite length_map, length_skipn; lia|].
  intros Hle. split.
  - rewrite firstn_all2 by exact Hle. reflexivity.
  - replace (length lines - 10) with 0 by lia. reflexivity.
Qed.

Lemma head_and_tail_witness :
  read_file demo_disk (path_join "/" "words")
    = inl ("pear" +:+ String LF ("apple" +:+ String LF ("fig" +:+ String LF ""))) /\
  output (Cmd.tail ["words"] (new_console home) demo_disk) = ["pear"; "apple"; "fig"].
Proof.
  assert (Hr : read_file demo_disk (path_join "/" "words")
               = inl ("pear" +:+ String LF ("apple" +:+ String LF ("fig" +:+ String LF ""))))
    by reflexivity.
  split; [exact Hr|].
  destruct (head_and_tail_print_the_ends (new_console home) demo_disk "words" [] _ Hr)
    as (_ & Ht & _).
  rewrite Ht. reflexivity.
Defined.

(** * seq *)

Lemma range_from_length n : forall start step, length (range_from n start step) = n.
Proof. induction n as [|n IH]; intros start step; simpl; [reflexivity|]. rewrite IH. reflexivity. Qed.

Lemma range_from_nth n : forall start step k,
  k < n -> nth_error (range_from n start step) k = Some (start + Z.of_nat k * step)%Z.
Proof.
  induction n as [|n IH]; intros start step k Hk; [lia|].
  destruct k as [|k]; simpl.
  - f_equal. lia.
  - rewrite IH by lia. f_equal. lia.
Qed.

Lemma range_from_elem n start step x :
  In x (range_from n start step) <->
  exists k, k < n /\ x = (start + Z.of_nat k * step)%Z.
Proof.
  split.
  - intros (k & Hk)%In_nth_error.
    assert (Hlt : k < n).
    { rewrite <- (range_from_length n start step). apply nth_error_Some. congruence. }
    exists k. split; [exact Hlt|]. rewrite range_from_nth in Hk by exact Hlt. congruence.
  - intros (k & Hk & ->). eapply nth_error_In. apply range_from_nth, Hk.
Qed.

Lemma py_range_unit start stop :
  py_range start (stop + 1) 1 = Some (range_from (Z.to_nat (stop - start + 1)) start 1).
Proof.
  unfold py_range, range_length.
  change (1 =? 0)%Z with false. change (0 <? 1)%Z with true. cbv iota.
  destruct (Z.ltb_spec start (stop + 1)).
  - rewrite Z.div_1_r. replace (stop + 1 - start - 1 + 1)%Z with (stop - start + 1)%Z by lia.
    reflexivity.
  - replace (Z.to_nat (stop - start + 1)) with 0 by lia. reflexivity.
Qed.

(** X15: [seq] with a start and an end that are integers prints the
    integers from the start to the end, one a line and in order, and
    nothing when the end is below the start; with the end only it starts
    from 1. *)
Theorem seq_counts_from_start_to_end {W : Type} {host : Host W} {py : PyInt}
    (c : Console) (w : W) (a b : string) (start stop : Z) :
  int_of_str a = Some start -> int_of_str b = Some stop ->
  output (Cmd.seq [a; b] c w) = map show_Z (range_from (Z.to_nat (stop - start + 1)) start 1) /\
  length (output (Cmd.seq [a; b] c w)) = Z.to_nat (stop - start + 1) /\
  (forall k, k < Z.to_nat (stop - start + 1) ->
     nth_error (output (Cmd.seq [a; b] c w)) k = Some (show_Z (start + Z.of_nat k))) /\
  ((stop < start)%Z -> output (Cmd.seq [a; b] c w) = []) /\
  output (Cmd.seq [b] c w) = map show_Z (range_from (Z.to_nat stop) 1 1).
Proof.
  intros Ha Hb.
  assert (E : output (Cmd.seq [a; b] c w)
              = map show_Z (range_from (Z.to_nat (stop - start + 1)) start 1)).
  { unfold Cmd.seq. rewrite Ha, Hb, py_range_unit. reflexivity. }
  rewrite E. split; [reflexivity|]. split; [rewrite length_map; apply range_from_length|].
  split; [|split].
  - intros k Hk. rewrite nth_error_map, range_from_nth by exact Hk. simpl. do 2 f_equal. lia.
  - intros Hlt. replace (Z.to_nat (stop - start + 1)) with 0 by lia. reflexivity.
  - unfold Cmd.seq. rewrite Hb, py_range_unit. simpl. do 3 f_equal. lia.
Qed.

Lemma seq_counts_witness :
  int_of_str "-1" = Some (-1)%Z /\ int_of_str "2" = Some 2%Z /\
  output (Cmd.seq ["-1"; "2"] (new_console home) demo_disk) = ["-1"; "0"; "1"; "2"].
Proof.
  assert (Ha : int_of_str "-1" = Some (-1)%Z) by reflexivity.
  assert (Hb : int_of_str "2" = Some 2%Z) by reflexivity.
  split; [exact Ha|]. split; [exact Hb|].
  rewrite (proj1 (seq_counts_from_start_to_end (new_console home) demo_disk "-1" "2"
                    (-1)%Z 2%Z Ha Hb)).
  reflexivity.
Defined.

Lemma div_bound k a b : (0 < b)%Z -> (k <= a / b <-> k * b <= a)%Z.
Proof.
  intros Hb. split.
  - intros Hk. destruct (Z.le_gt_cases (k * b) a) as [|Hgt]; [assumption|].
    assert (a / b < k)%Z by (apply Z.div_lt_upper_bound; lia). lia.
  - intros Hk. apply Z.div_le_lower_bound; lia.
Qed.

Lemma range_length_elem start stop step (k : nat) :
  step <> 0%Z ->
  k < Z.to_nat (range_length start stop step) <->
  ((0 < step -> start + Z.of_nat k * step < stop) /\
   (step < 0 -> stop < start + Z.of_nat k * step))%Z.
Proof.
  intros Hs. unfold range_length.
  destruct (Z.ltb_spec 0 step) as [Hpos|Hneg].
  - destruct (Z.ltb_spec start stop) as [Hlt|Hge].
    + pose proof (div_bound (Z.of_nat k) (stop - start - 1) step Hpos) as Hd.
      assert (0 <= (stop - start - 1) / step)%Z by (apply Z.div_pos; lia).
      split; [intros Hk; split; [intros _|lia] | intros [Hk _]; specialize (Hk Hpos)]; lia.
    + split; [simpl; lia|]. intros [Hk _]. specialize (Hk Hpos). simpl. nia.
  - destruct (Z.ltb_spec step 0) as [Hlt0|]; [|lia].
    destruct (Z.ltb_spec stop start) as [Hlt|Hge].
    + pose proof (div_bound (Z.of_nat k) (start - stop - 1) (- step) ltac:(lia)) as Hd.
      assert (0 <= (start - stop - 1) / - step)%Z by (apply Z.div_pos; lia).
      split; [intros Hk; split; [lia|intros _] | intros [_ Hk]; specialize (Hk Hlt0)]; lia.
    + split; [simpl; lia|]. intros [_ Hk]. specialize (Hk Hlt0). simpl. nia.
Qed.

(** X16: [seq] with a start, an increment and an end that are integers
    prints its usage line when the increment is zero; otherwise it prints
    the numbers start + k * increment, for k = 0, 1, ..., that are at most
    the end when the increment is positive, and that are above the end
    plus one when it is negative. *)
Theorem seq_steps_by_the_increment {W : Type} {host : Host W} {py : PyInt}
    (c : Console) (w : W) (a b d : string) (start increment stop : Z) :
  int_of_str a = Some start -> int_of_str b = Some increment -> int_of_str d = Some stop ->
  (increment = 0%Z ->
   Cmd.seq [a; b; d] c w = prints c w ["用法：seq <开始值> <增量> <结束值>"]) /\
  (increment <> 0%Z ->
   exists numbers,
     output (Cmd.seq [a; b; d] c w) = map show_Z numbers /\
     forall x, In x numbers <->
       exists k : nat, x = (start + Z.of_nat k * increment)%Z /\
         (0 < increment -> x <= stop)%Z /\ (increment < 0 -> stop + 1 < x)%Z).
Proof.
  intros Ha Hb Hd. unfold Cmd.seq. rewrite Ha, Hb, Hd. unfold py_range. split.
  - intros ->. reflexivity.
  - intros Hne. apply Z.eqb_neq in Hne as Hne'. rewrite Hne'.
    exists (range_from (Z.to_nat (range_length start (stop + 1) increment)) start increment).
    split; [reflexivity|].
    intros x. rewrite range_from_elem. split.
    + intros (k & Hk & ->). exists k. split; [reflexivity|].
      apply range_length_elem in Hk; [|exact Hne]. lia.
    + intros (k & -> & Hpos & Hneg). exists k. split; [|reflexivity].
      apply range_length_elem; [exact Hne|]. lia.
Qed.

Lemma seq_steps_witness :
  int_of_str "5" = Some 5%Z /\ int_of_str "-1" = Some (-1)%Z /\ int_of_str "1" = Some 1%Z /\
  output (Cmd.seq ["5"; "-1"; "1"] (new_console home) demo_disk) = ["5"; "4"; "3"] /\
  exists numbers,
    output (Cmd.seq ["5"; "-1"; "1"] (new_console home) demo_disk) = map show_Z numbers.
Proof.
  assert (Ha : int_of_str "5" = Some 5%Z) by reflexivity.
  assert (Hb : int_of_str "-1" = Some (-1)%Z) by reflexivity.
  assert (Hd : int_of_str "1" = Some 1%Z) by reflexivity.
  split; [exact Ha|]. split; [exact Hb|]. split; [exact Hd|].
  split; [reflexivity|].
  destruct (proj2 (seq_steps_by_the_increment (new_console home) demo_disk "5" "-1" "1"
                     5%Z (-1)%Z 1%Z Ha Hb Hd) ltac:(discriminate))
    as (numbers & Hout & _).
  exists numbers. exact Hout.
Defined.

(** * history *)

Lemma enumerate_length l : forall start, length (enumerate start l) = length l.
Proof. induction l as [|x l IH]; intros start; simpl; [reflexivity|]. rewrite IH. reflexivity. Qed.

Lemma enumerate_snd l : forall start, map snd (enumerate start l) = l.
Proof. induction l as [|x l IH]; intros start; simpl; [reflexivity|]. rewrite IH. reflexivity. Qed.

Lemma enumerate_In l : forall start i x,
  In (i, x) (enumerate start l) ->
  exists k, nth_error l k = Some x /\ i = (start + Z.of_nat k)%Z.
Proof.
  induction l as [|y l IH]; intros start i x; simpl; [tauto|].
  intros [[= <- <-]|Hin].
  - exists 0. split; [reflexivity | lia].
  - apply IH in Hin as (k & Hk & ->). exists (S k). split; [exact Hk | lia].
Qed.

Lemma nth_error_skipn_shift {A : Type} (l : list A) : forall m k,
  nth_error (skipn m l) k = nth_error l (m + k).
Proof.
  induction l as [|x l IH]; intros m k.
  - rewrite skipn_nil. destruct k, m; reflexivity.
  - destruct m as [|m]; [reflexivity|]. simpl. apply IH.
Qed.

(** X17: [history] without an argument prints every line of the history
    with its place in it, counted from 1; with a number [num] from 1 to the
    length of the history it prints the last [num] lines, each with its
    place in the whole history. *)
Theorem history_numbers_are_places {W : Type} {host : Host W} {py : PyInt}
    (c : Console) (w : W) (arg : string) (rest : list string) (num : Z) :
  int_of_str arg = Some num ->
  (1 <= num <= Z.of_nat (length (command_history c)))%Z ->
  exists entries,
    output (Cmd.history (arg :: rest) c w) = map Cmd.history_print entries /\
    map snd entries = skipn (length (command_history c) - Z.to_nat num) (command_history c) /\
    length entries = Z.to_nat num /\
    (forall i cmd, In (i, cmd) entries ->
       (1 <= i)%Z /\ nth_error (command_history c) (Z.to_nat (i - 1)) = Some cmd) /\
    exists all,
      output (Cmd.history [] c w) = map Cmd.history_print all /\
      map snd all = command_history c /\
      forall i cmd, In (i, cmd) all ->
        (1 <= i)%Z /\ nth_error (command_history c) (Z.to_nat (i - 1)) = Some cmd.
Proof.
  intros Hn Hnum.
  set (len := length (command_history c)) in *.
  assert (Hs : py_slice_from (command_history c) (- num)
               = skipn (len - Z.to_nat num) (command_history c)).
  { unfold py_slice_from. destruct (Z.leb_spec 0 (- num)); [lia|]. f_equal. lia. }
  exists (enumerate (Z.of_nat len - num + 1) (skipn (len - Z.to_nat num) (command_history c))).
  split; [unfold Cmd.history; rewrite Hn, Hs; reflexivity|].
  split; [apply enumerate_snd|].
  split; [rewrite enumerate_length, length_skipn; lia|].
  split.
  - intros i cmd (k & Hk & ->)%enumerate_In. rewrite nth_error_skipn_shift in Hk.
    split; [lia|]. rewrite <- Hk. f_equal. lia.
  - exists (enumerate 1 (command_history c)).
    split; [reflexivity|]. split; [apply enumerate_snd|].
    intros i cmd (k & Hk & ->)%enumerate_In. split; [lia|]. rewrite <- Hk. f_equal. lia.
Qed.

Lemma history_witness :
  int_of_str "2" = Some 2%Z /\
  output (Cmd.history ["2"] (set_command_history ["ls"; "pwd"; "history 2"] (new_console home))
            demo_disk)
    = ["2: pwd"; "3: history 2"].
Proof.
  assert (Hn : int_of_str "2" = Some 2%Z) by reflexivity.
  split; [exact Hn|].
  destruct (history_numbers_are_places
              (set_command_history ["ls"; "pwd"; "history 2"] (new_console home))
              demo_disk "2" [] 2%Z Hn ltac:(simpl; lia)) as (entries & Hout & _).
  reflexivity.
Defined.

(** X18: with the number 0, or a number above the length of the history,
    [history] prints the whole history, and the numbers it prints are not
    the places of the lines: they start at the length plus one minus the
    number, which is not 1 unless the history is empty. *)
Theorem history_numbers_shift_out_of_range {W : Type} {host : Host W} {py : PyInt}
    (c : Console) (w : W) (arg : string) (rest : list string) (num : Z) :
  int_of_str arg = Some num ->
  (num = 0 \/ Z.of_nat (length (command_history c)) < num)%Z ->
  output (Cmd.history (arg :: rest) c w)
    = map Cmd.history_print
        (enumerate (Z.of_nat (length (command_history c)) - num + 1) (command_history c)) /\
  length (output (Cmd.history (arg :: rest) c w)) = length (command_history c) /\
  (command_history c <> [] ->
   (Z.of_nat (length (command_history c)) - num + 1 <> 1)%Z).
Proof.
  intros Hn Hnum.
  assert (Hs : py_slice_from (command_history c) (- num) = command_history c).
  { unfold py_slice_from. destruct (Z.leb_spec 0 (- num)).
    - replace (Z.to_nat (- num)) with 0 by lia. reflexivity.
    - replace (Z.to_nat (Z.of_nat (length (command_history c)) + - num)) with 0 by lia.
      reflexivity. }
  assert (E : output (Cmd.history (arg :: rest) c w)
              = map Cmd.history_print
                  (enumerate (Z.of_nat (length (command_history c)) - num + 1)
                     (command_history c))).
  { unfold Cmd.history. rewrite Hn, Hs. reflexivity. }
  rewrite E. split; [reflexivity|]. split; [rewrite length_map; apply enumerate_length|].
  intros Hne. destruct (command_history c); [congruence | cbn [length] in *; lia].
Qed.

Lemma history_shift_witness :
  int_of_str "0" = Some 0%Z /\
  output (Cmd.history ["0"] (set_command_history ["ls"; "pwd"] (new_console home)) demo_disk)
    = ["3: ls"; "4: pwd"].
Proof.
  assert (Hn : int_of_str "0" = Some 0%Z) by reflexivity.
  split; [exact Hn|].
  rewrite (proj1 (history_numbers_shift_out_of_range
                    (set_command_history ["ls"; "pwd"] (new_console home))
                    demo_disk "0" [] 0%Z Hn (or_introl eq_refl))).
  reflexivity.
Defined.

(** * More on comm, tsort and uniq *)

Lemma comm_swap_pair1 l : map comm_swap (map (pair Only1) l) = map (pair Only2) l.
Proof. induction l as [|x l IH]; simpl; [reflexivity|]. rewrite IH. reflexivity. Qed.

Lemma comm_swap_pair2 l : map comm_swap (map (pair Only2) l) = map (pair Only1) l.
Proof. induction l as [|x l IH]; simpl; [reflexivity|]. rewrite IH. reflexivity. Qed.

Lemma comm_merge_nil_r' lines1 : comm_merge lines1 [] = map (pair Only1) lines1.
Proof. destruct lines1; reflexivity. Qed.

Lemma comm_merge_swap lines1 : forall lines2,
  comm_merge lines2 lines1 = map comm_swap (comm_merge lines1 lines2).
Proof.
  induction lines1 as [|x rest1 IH1]; intros lines2.
  { rewrite comm_merge_nil_l, comm_merge_nil_r', comm_swap_pair2. reflexivity. }
  induction lines2 as [|y rest2 IH2].
  { rewrite comm_merge_nil_l, comm_merge_nil_r, comm_swap_pair1. reflexivity. }
  rewrite !comm_merge_cons.
  destruct (String.ltb x y) eqn:Hxy.
  - rewrite (ltb_asym _ _ Hxy). cbn [map comm_swap]. rewrite <- IH1. reflexivity.
  - destruct (String.ltb y x) eqn:Hyx.
    + cbn [map comm_swap]. rewrite <- IH2. reflexivity.
    + pose proof (ltb_total _ _ Hxy Hyx) as ->. cbn [map comm_swap].
      rewrite <- IH1. reflexivity.
Qed.

Lemma comm_merge_same lines : comm_merge lines lines = map (pair Both) lines.
Proof.
  induction lines as [|x lines IH]; [reflexivity|].
  rewrite comm_merge_cons, ltb_irrefl. simpl. rewrite IH. reflexivity.
Qed.

(** X19: [comm] with the two files exchanged prints the same lines in the
    same order with the marks of the first two columns exchanged; [comm]
    of a file with itself puts every line in the column of the lines of
    both. *)
Theorem comm_is_symmetric {W : Type} {host : Host W}
    (c : Console) (w : W) (file1 file2 content1 content2 : string) :
  read_file w (path_join (current_dir c) file1) = inl content1 ->
  read_file w (path_join (current_dir c) file2) = inl content2 ->
  output (comm [file2; file1] c w)
    = map comm_print (map comm_swap (comm_lines content1 content2)) /\
  output (comm [file1; file2] c w) = map comm_print (comm_lines content1 content2) /\
  comm_lines content1 content1
    = map (pair Both) (sorted (set_iter (unique_lines_of content1))).
Proof.
  intros Hr1 Hr2. split; [|split].
  - unfold comm. rewrite Hr1, Hr2. simpl. unfold comm_lines. rewrite comm_merge_swap. reflexivity.
  - unfold comm. rewrite Hr1, Hr2. reflexivity.
  - apply comm_merge_same.
Qed.

Lemma comm_is_symmetric_witness :
  read_file sample_disk (path_join "/" "dag")
    = inl ("a b" +:+ String LF ("b c" +:+ String LF "a c")) /\
  read_file sample_disk (path_join "/" "pairs")
    = inl ("a b" +:+ String LF ("b a" +:+ String LF "")) /\
  output (comm ["pairs"; "dag"] (new_console home) sample_disk)
    = ["  a b"; "> a c"; "< b a"; "> b c"].
Proof.
  assert (Hr1 : read_file sample_disk (path_join "/" "dag")
                = inl ("a b" +:+ String LF ("b c" +:+ String LF "a c"))) by reflexivity.
  assert (Hr2 : read_file sample_disk (path_join "/" "pairs")
                = inl ("a b" +:+ String LF ("b a" +:+ String LF ""))) by reflexivity.
  split; [exact Hr1|]. split; [exact Hr2|].
  rewrite (proj1 (comm_is_symmetric (new_console home) sample_disk "dag" "pairs" _ _ Hr1 Hr2)).
  vm_compute. reflexivity.
Defined.

Lemma build_graph_error edges : forall g,
  Exists (fun e => length e <> 2) edges ->
  exists n, n <> 2 /\ build_graph g edges = inr (ValueError 2 n).
Proof.
  induction edges as [|e edges IH]; intros g Hex; [inversion Hex|].
  destruct e as [|u [|v [|x e]]].
  - exists 0. split; [lia | reflexivity].
  - exists 1. split; [lia | reflexivity].
  - apply Exists_cons in Hex as [Hbad|Hex]; [simpl in Hbad; lia|]. apply IH, Hex.
  - exists (S (S (S (length e)))). split; [lia | reflexivity].
Qed.

(** X20: a line of the file that does not hold two tokens, an empty line
    for one, and [tsort] prints nothing: the [ValueError] of the unpacking
    is raised, for [execute_command] to report.  When every line holds two
    tokens, the only exception [tsort] can raise is the [RecursionError] of
    the interpreter, in the traversal.  So with more nested calls allowed
    than twice the number of lines, [tsort] raises nothing exactly when
    every line of the file holds two tokens. *)
Theorem tsort_wants_two_tokens_a_line {W : Type} {host : Host W}
    (depth : nat) (c : Console) (w : W) (arg : string) (rest : list string)
    (content : string) :
  read_file w (path_join (current_dir c) arg) = inl content ->
  (~ Forall (fun e => length e = 2) (tsort_edges (readlines content)) ->
   output (tsort depth (arg :: rest) c w) = [] /\
   exists n, n <> 2 /\ raised (tsort depth (arg :: rest) c w) = Some (ValueError 2 n)) /\
  (Forall (fun e => length e = 2) (tsort_edges (readlines content)) ->
   raised (tsort depth (arg :: rest) c w) = None \/
   tsort depth (arg :: rest) c w = raises c w (overflow w "dfs")) /\
  (2 * length (readlines content) < depth ->
   (raised (tsort depth (arg :: rest) c w) = None <->
    Forall (fun e => length e = 2) (tsort_edges (readlines content)))).
Proof.
  intros Hr.
  assert (Hbad : ~ Forall (fun e => length e = 2) (tsort_edges (readlines content)) ->
            output (tsort depth (arg :: rest) c w) = [] /\
            exists n, n <> 2 /\
              raised (tsort depth (arg :: rest) c w) = Some (ValueError 2 n)).
  { intros Hex. apply not_Forall_Exists in Hex; [|intros e; apply Nat.eq_dec].
    destruct (build_graph_error _ [] Hex) as (n & Hn & Hb).
    unfold tsort. rewrite Hr, Hb. split; [reflexivity|]. exists n. auto. }
  assert (Hgood : Forall (fun e => length e = 2) (tsort_edges (readlines content)) ->
            exists g, build_graph [] (tsort_edges (readlines content)) = inl g /\
              closed g /\ length g <= 2 * length (readlines content)).
  { intros Hall.
    destruct (build_graph_spec _ [] Hall) as (g & Hb & Hedges & Hkeys).
    exists g. split; [exact Hb|]. split.
    - intros u v Huv%Hedges.
      destruct Huv as [Huv|Huv]; [unfold edge in Huv; simpl in Huv; set_solver|].
      apply elem_of_list_to_set, Hkeys. right. exists [u; v].
      split; [exact Huv | right; left].
    - apply build_graph_length in Hb. unfold tsort_edges in Hb.
      rewrite length_map in Hb. simpl in Hb. lia. }
  split; [exact Hbad|]. split.
  - intros (g & Hb & Hcl & _)%Hgood. unfold tsort. rewrite Hr, Hb.
    destruct (tsort_order depth g); [left | right]; reflexivity.
  - intros Hdepth. split.
    + intros Hnone.
      destruct (Stdlib.Lists.List.Forall_dec (fun e : list string => length e = 2)
                  (fun e => Nat.eq_dec (length e) 2) (tsort_edges (readlines content)))
        as [Hall|Hex]; [exact Hall|].
      destruct (Hbad Hex) as (_ & n & _ & Hraised). congruence.
    + intros (g & Hb & Hcl & Hlen)%Hgood.
      destruct (dfs_all_spec g depth Hcl) as (res & Hrun & _); [lia|].
      unfold tsort, tsort_order. rewrite Hr, Hb, Hrun. reflexivity.
Qed.

Lemma tsort_wants_two_tokens_witness :
  read_file sample_disk (path_join "/" "byte") = inl "a" /\
  raised (tsort 8 ["byte"] (new_console home) sample_disk) = Some (ValueError 2 1).
Proof.
  assert (Hr : read_file sample_disk (path_join "/" "byte") = inl "a") by reflexivity.
  split; [exact Hr|].
  destruct (proj1 (tsort_wants_two_tokens_a_line 8 (new_console home) sample_disk "byte" []
                     "a" Hr)) as (_ & n & _ & Hraised).
  - intros Hall. inversion Hall as [|? ? Hlen _]. discriminate Hlen.
  - reflexivity.
Defined.

Lemma first_occurrences_NoDup lines : NoDup lines -> first_occurrences lines = lines.
Proof.
  induction 1 as [|x l Hx _ IH]; [reflexivity|].
  simpl. rewrite IH. f_equal.
  apply forallb_filter_id, forallb_forall. intros z Hz.
  apply negb_true_iff, String.eqb_neq. intros ->. apply Hx, list_elem_of_In, Hz.
Qed.

(** X21: [uniq] prints as many lines as the file has exactly when no line
    of the file comes twice, and then it prints every line, stripped, in
    the order of the file; a second pass over the lines kept keeps them
    all. *)
Theorem uniq_keeps_lines_that_differ (lines : list string) :
  (length (uniq_lines lines) = length lines <-> NoDup lines) /\
  (NoDup lines -> uniq_lines lines = map strip lines) /\
  uniq_kept [] (uniq_kept [] lines) = uniq_kept [] lines.
Proof.
  destruct (uniq_kept_spec lines [] (NoDup_nil_2 (A := string))) as (Hnd & Hin & _).
  assert (Hsame : NoDup lines -> uniq_lines lines = map strip lines).
  { intros Hl. rewrite uniq_lines_kept, <- first_occurrences_kept,
      first_occurrences_NoDup by exact Hl. reflexivity. }
  split; [|split; [exact Hsame|]].
  - split.
    + intros Hlen. rewrite uniq_lines_kept, length_map in Hlen.
      assert (Hp : uniq_kept [] lines ≡ₚ lines).
      { apply submseteq_length_Permutation; [|lia].
        apply NoDup_submseteq; [exact Hnd|]. intros x Hx%Hin. rewrite elem_of_nil in Hx. tauto. }
      rewrite <- Hp. exact Hnd.
    + intros Hl. rewrite Hsame by exact Hl. apply length_map.
  - rewrite <- !first_occurrences_kept.
    apply first_occurrences_NoDup. rewrite first_occurrences_kept. exact Hnd.
Qed.

(** * cut *)

Lemma cut_loop_positive {py : PyInt} (a1 : string) (n : Z) (lines : list string) :
  int_of_str a1 = Some n -> (1 <= n)%Z ->
  Cmd.cut_loop "-f" a1 lines
  = (flat_map (fun line =>
                 match nth_error (split (strip line)) (Z.to_nat (n - 1)) with
                 | Some field => [field]
                 | None => []
                 end) lines, None).
Proof.
  intros Hn Hpos. induction lines as [|line rest IH]; [reflexivity|].
  cbn [Cmd.cut_loop flat_map]. change (String.eqb "-f" "-f") with true. cbv iota.
  rewrite Hn. cbv zeta. unfold py_index.
  destruct (Z.ltb_spec (n - 1) (Z.of_nat (length (split (strip line))))) as [Hlt|Hge].
  - destruct (Z.leb_spec 0 (n - 1)); [|lia].
    destruct (nth_error (split (strip line)) (Z.to_nat (n - 1))) as [field|] eqn:Hf.
    + rewrite IH. reflexivity.
    + apply nth_error_None in Hf. lia.
  - rewrite IH.
    destruct (nth_error (split (strip line)) (Z.to_nat (n - 1))) as [field|] eqn:Hf;
      [|reflexivity].
    assert (Hb : Z.to_nat (n - 1) < length (split (strip line))).
    { apply nth_error_Some. congruence. }
    lia.
Qed.

Lemma cut_loop_from_the_end {py : PyInt} (a1 : string) (n : Z) (before after : list string) :
  int_of_str a1 = Some n -> (n <= 0)%Z ->
  Forall (fun line => Z.to_nat (1 - n) <= length (split (strip line))) before ->
  match after with
  | [] => True
  | line :: _ => length (split (strip line)) < Z.to_nat (1 - n)
  end ->
  Cmd.cut_loop "-f" a1 (before ++ after)
  = (map (fun line =>
            nth (length (split (strip line)) - Z.to_nat (1 - n)) (split (strip line)) "")
       before,
     match after with [] => None | _ :: _ => Some IndexError end).
Proof.
  intros Hn Hneg Hbefore Hafter.
  induction Hbefore as [|line before Hline _ IH].
  - destruct after as [|line after]; [reflexivity|].
    cbn [app Cmd.cut_loop map]. change (String.eqb "-f" "-f") with true. cbv iota.
    rewrite Hn. cbv zeta. unfold py_index.
    destruct (Z.ltb_spec (n - 1) (Z.of_nat (length (split (strip line))))); [|lia].
    destruct (Z.leb_spec 0 (n - 1)); [lia|].
    destruct (Z.leb_spec (- Z.of_nat (length (split (strip line)))) (n - 1)); [lia|].
    reflexivity.
  - cbn [app Cmd.cut_loop map]. change (String.eqb "-f" "-f") with true. cbv iota.
    rewrite Hn. cbv zeta. unfold py_index.
    destruct (Z.ltb_spec (n - 1) (Z.of_nat (length (split (strip line))))); [|lia].
    destruct (Z.leb_spec 0 (n - 1)); [lia|].
    destruct (Z.leb_spec (- Z.of_nat (length (split (strip line)))) (n - 1)); [|lia].
    replace (Z.to_nat (Z.of_nat (length (split (strip line))) + (n - 1)))
      with (length (split (strip line)) - Z.to_nat (1 - n)) by lia.
    destruct (nth_error (split (strip line))
                (length (split (strip line)) - Z.to_nat (1 - n))) as [field|] eqn:Hf.
    + rewrite IH. f_equal. f_equal. symmetry. apply nth_error_nth, Hf.
    + apply nth_error_None in Hf. lia.
Qed.

(** X22: [cut -f a1 ... file] reads the file named by its last argument.
    With a number from 1 on it prints, for every line that has that many
    fields, the field of that number counted from 1, and passes over the
    other lines.  With a number [n] that is zero or negative it counts
    from the end of the line: it prints the field that is [1 - n] from the
    end as long as the lines have that many fields, and stops with an
    [IndexError] at the first line that has fewer, an empty line for
    one. *)
Theorem cut_counts_fields_from_one {W : Type} {host : Host W} {py : PyInt}
    (c : Console) (w : W) (a1 : string) (rest : list string) (content : string) (n : Z) :
  read_file w (path_join (current_dir c) (List.last (a1 :: rest) a1)) = inl content ->
  int_of_str a1 = Some n ->
  let fields := fun line => split (strip line) in
  ((1 <= n)%Z ->
   Cmd.cut ("-f" :: a1 :: rest) c w
   = prints c w
       (flat_map (fun line =>
                    match nth_error (fields line) (Z.to_nat (n - 1)) with
                    | Some field => [field]
                    | None => []
                    end) (readlines content))) /\
  ((n <= 0)%Z ->
   forall before after, readlines content = before ++ after ->
     Forall (fun line => Z.to_nat (1 - n) <= length (fields line)) before ->
     match after with
     | [] => True
     | line :: _ => length (fields line) < Z.to_nat (1 - n)
     end ->
     output (Cmd.cut ("-f" :: a1 :: rest) c w)
     = map (fun line => nth (length (fields line) - Z.to_nat (1 - n)) (fields line) "") before /\
     raised (Cmd.cut ("-f" :: a1 :: rest) c w)
     = match after with [] => None | _ :: _ => Some IndexError end).
Proof.
  intros Hr Hn fields. split.
  - intros Hpos. unfold Cmd.cut. rewrite Hr, (cut_loop_positive a1 n _ Hn Hpos). reflexivity.
  - intros Hneg before after Hlines Hbefore Hafter.
    unfold Cmd.cut. rewrite Hr, Hlines, (cut_loop_from_the_end a1 n _ _ Hn Hneg Hbefore Hafter).
    split; reflexivity.
Qed.

Lemma cut_witness :
  read_file demo_disk (path_join "/" "table")
    = inl ("a b c" +:+ String LF ("d e" +:+ String LF (String LF "f"))) /\
  int_of_str "0" = Some 0%Z /\
  output (Cmd.cut ["-f"; "0"; "table"] (new_console home) demo_disk) = ["c"; "e"] /\
  raised (Cmd.cut ["-f"; "0"; "table"] (new_console home) demo_disk) = Some IndexError.
Proof.
  assert (Hr : read_file demo_disk (path_join "/" "table")
               = inl ("a b c" +:+ String LF ("d e" +:+ String LF (String LF "f"))))
    by reflexivity.
  assert (Hn : int_of_str "0" = Some 0%Z) by reflexivity.
  split; [exact Hr|]. split; [exact Hn|].
  destruct (proj2 (cut_counts_fields_from_one (new_console home) demo_disk "0" ["table"]
                     _ 0%Z Hr Hn) ltac:(lia)
              ["a b c" +:+ String LF ""; "d e" +:+ String LF ""]
              [String LF ""; "f"] eq_refl) as [Hout Hraised].
  - repeat constructor.
  - vm_compute. lia.
  - rewrite Hout, Hraised. split; reflexivity.
Defined.
